(** * Stencil / Vitest testing helpers: serializer, matchers and event spies

    A shallow embedding of [src/testing/html-serializer.ts],
    [src/testing/matchers.ts] and the [spyOnEvent] closure of
    [src/testing/render.ts], with the properties of the specification
    stated and proved (or refuted) over it.

    Conventions of the embedding.
    - A JavaScript string is a [string]: a sequence of code units.  Only the
      code units below 256 are represented, so [\s], [trim] and
      [toLowerCase] are their restrictions to that range.
    - A JavaScript number that is a count or a length is a [Z]; the index
      that a test passes to a matcher is any number, a [JsNumber].
    - A DOM tree is an inductive type with exactly the fields the code reads.
    - Objects whose identity matters (event spies, event payloads) live in a
      store and are referred to by address. *)

From Stdlib Require Import Bool List ZArith Lia Ascii String Permutation Sorted.
From Stdlib Require Import Numbers.DecimalString.
Import ListNotations.

Open Scope list_scope.
Open Scope string_scope.

(* ================================================================== *)
(** * Strings as JavaScript sees them *)
(* ================================================================== *)

Module Str.

(** Code unit of a character. *)
Definition code (c : ascii) : N := N_of_ascii c.

(** The class [\s] of regular expressions, which is also what
    [String.prototype.trim] strips: TAB, LF, VT, FF, CR, SPACE and the
    no-break space U+00A0 (the other members lie above U+00FF). *)
Definition isWhitespace (c : ascii) : bool :=
  let n := code c in
  ((9 <=? n) && (n <=? 13) || (n =? 32) || (n =? 160))%N.

(** [toLowerCase] on one code unit: A-Z, and the upper-case letters of
    Latin-1 (U+00C0..U+00DE without the multiplication sign U+00D7). *)
Definition lowerChar (c : ascii) : ascii :=
  let n := code c in
  if ((65 <=? n) && (n <=? 90))%N then ascii_of_N (n + 32)
  else if ((192 <=? n) && (n <=? 222) && negb (n =? 215))%N then ascii_of_N (n + 32)
  else c.

Fixpoint toLowerCase (s : string) : string :=
  match s with
  | EmptyString => EmptyString
  | String c r => String (lowerChar c) (toLowerCase r)
  end.

(** Truthiness of a string value: only the empty string is falsy. *)
Definition truthy (s : string) : bool :=
  match s with EmptyString => false | String _ _ => true end.

(** [s.startsWith(p)]. *)
Fixpoint startsWith (p s : string) : bool :=
  match p, s with
  | EmptyString, _ => true
  | String a p', String b s' => Ascii.eqb a b && startsWith p' s'
  | String _ _, EmptyString => false
  end.

(** [s.includes(p)]: [p] occurs in [s] at some offset. *)
Fixpoint includes (p s : string) : bool :=
  startsWith p s ||
  match s with
  | EmptyString => false
  | String _ s' => includes p s'
  end.

(** Does the character occur in the string. *)
Fixpoint hasChar (c : ascii) (s : string) : bool :=
  match s with
  | EmptyString => false
  | String a r => Ascii.eqb a c || hasChar c r
  end.

(** The one-character string made of a double quote. *)
Definition dquote : string := String (ascii_of_nat 34) EmptyString.

(** The one-character string made of a line feed. *)
Definition newline : string := String (ascii_of_nat 10) EmptyString.

(** ASCII lower case, as the DOM applies it to names: A-Z only. *)
Definition asciiLowerChar (c : ascii) : ascii :=
  let n := code c in
  if ((65 <=? n) && (n <=? 90))%N then ascii_of_N (n + 32) else c.

Fixpoint asciiLowerCase (s : string) : string :=
  match s with
  | EmptyString => EmptyString
  | String c r => String (asciiLowerChar c) (asciiLowerCase r)
  end.

(** [s.endsWith(p)]. *)
Definition endsWith (p s : string) : bool :=
  String.eqb p (substring (String.length s - String.length p) (String.length p) s).

(** [s.repeat(n)]. *)
Fixpoint repeat (s : string) (n : nat) : string :=
  match n with
  | O => EmptyString
  | S k => s ++ repeat s k
  end.

(** Decimal rendering of an integer, as [String(n)] gives it. *)
Definition ofZ (z : Z) : string := NilEmpty.string_of_int (Z.to_int z).

End Str.

(* ================================================================== *)
(** * The DOM capability model *)
(* ================================================================== *)

(** One entry of [elem.attributes]. *)
Record Attr := mkAttr {
  attr_name : string;
  attr_prefix : option string;      (* null when there is none *)
  attr_localName : option string;
  attr_value : string
}.

(** Node kinds the serializer passes over in silence. *)
Inductive OtherKind := CDataSection | ProcessingInstruction | DocumentType.

(** The children of an element or of a fragment.  An element carries the
    optional members the serializer probes: [localName], [attributes],
    [shadowRoot] and the [__childNodes] list of Stencil's slot polyfill. *)
Inductive Node :=
| ElementNode (e : Element)
| TextNode (textContent : string)
| CommentNode (textContent : string)
| OtherNode (kind : OtherKind)
with Element :=
| mkElement (localName : option string)
            (tagName : string)
            (attributes : option (list Attr))
            (shadowRoot : option ShadowRoot)
            (childNodes : list Node)
            (__childNodes : option (list Node))
with ShadowRoot :=
| mkShadowRoot (delegatesFocus : bool) (childNodes : list Node).

Definition localName (e : Element) := let 'mkElement x _ _ _ _ _ := e in x.
Definition tagName (e : Element) := let 'mkElement _ x _ _ _ _ := e in x.
Definition attributes (e : Element) := let 'mkElement _ _ x _ _ _ := e in x.
Definition shadowRoot (e : Element) := let 'mkElement _ _ _ x _ _ := e in x.
Definition childNodes (e : Element) := let 'mkElement _ _ _ _ x _ := e in x.
Definition __childNodes (e : Element) := let 'mkElement _ _ _ _ _ x := e in x.

Definition delegatesFocus (s : ShadowRoot) := let 'mkShadowRoot x _ := s in x.
Definition shadowChildNodes (s : ShadowRoot) := let 'mkShadowRoot _ x := s in x.

Definition nodeType (n : Node) : Z :=
  match n with
  | ElementNode _ => 1
  | TextNode _ => 3
  | CommentNode _ => 8
  | OtherNode CDataSection => 4
  | OtherNode ProcessingInstruction => 7
  | OtherNode DocumentType => 10
  end.

(** What [serializeHtml] accepts besides a string:
    [HTMLElement | ShadowRoot | DocumentFragment].  A shadow root is a
    document fragment ([nodeType] 11). *)
Inductive Root :=
| RootElement (e : Element)
| RootFragment (childNodes : list Node).

(* ================================================================== *)
(** * Completions *)
(* ================================================================== *)

Inductive ErrorKind := Error | TypeError | SyntaxError.

Record JsError := mkJsError { errorKind : ErrorKind; errorMessage : string }.

(** The outcome of evaluating JavaScript code: a value is returned or an
    exception is thrown. *)
Inductive Completion (A : Type) :=
| Return (a : A)
| Throw (e : JsError).
Arguments Return {A} a.
Arguments Throw {A} e.

Definition bind {A B} (c : Completion A) (k : A -> Completion B) : Completion B :=
  match c with Return a => k a | Throw e => Throw e end.

(** [try { c } catch { handler }]. *)
Definition tryCatch {A} (c : Completion A) (handler : JsError -> Completion A) : Completion A :=
  match c with Return a => Return a | Throw e => handler e end.

Notation "x <- c ;; k" := (bind c (fun x => k))
  (at level 61, c at next level, right associativity).

(* ================================================================== *)
(** * html-serializer.ts *)
(* ================================================================== *)

Definition VOID_ELEMENTS : list string :=
  [ "area"; "base"; "br"; "col"; "embed"; "hr"; "img"; "input"; "link";
    "meta"; "param"; "source"; "track"; "wbr" ].

(** [VOID_ELEMENTS.has(tagName)]. *)
Definition VOID_ELEMENTS_has (t : string) : bool := existsb (String.eqb t) VOID_ELEMENTS.

(** [(elem as any).localName || elem.tagName.toLowerCase()]. *)
Definition elementTagName (e : Element) : string :=
  match localName e with
  | Some n => if Str.truthy n then n else Str.toLowerCase (tagName e)
  | None => Str.toLowerCase (tagName e)
  end.

(** [attr.prefix && attr.localName ? prefix:localName : attr.name]. *)
Definition attrName (a : Attr) : string :=
  match attr_prefix a, attr_localName a with
  | Some p, Some l => if Str.truthy p && Str.truthy l then p ++ ":" ++ l else attr_name a
  | _, _ => attr_name a
  end.

(** One turn of the loop over [elem.attributes]. *)
Definition serializeAttr (a : Attr) : string :=
  if String.eqb (attr_value a) EmptyString then " " ++ attrName a
  else " " ++ attrName a ++ "=" ++ Str.dquote ++ attr_value a ++ Str.dquote.

(** The element branch of [serializeElementWithShadow] (lines 97-200).
    [html] is built by successive [html += ...]; the loops over the child
    lists are the local fixpoints. *)
Fixpoint serializeElement (elem : Element) (excludeStyles serializeShadowRoot : bool)
  {struct elem} : string :=
  match elem with
  | mkElement _ _ attrs shadow children polyfill =>
    let tag := elementTagName elem in
    (* Build opening tag with attributes *)
    let html := "<" ++ tag in
    let html :=
      match attrs with
      | Some l => html ++ String.concat EmptyString (map serializeAttr l)
      | None => html
      end in
    let html := html ++ ">" in
    (* hasShadowRoot = serializeShadowRoot && 'shadowRoot' in elem && elem.shadowRoot *)
    let html :=
      match shadow with
      | Some shadowRoot =>
        if serializeShadowRoot then
          let shadowRootTag := "<mock:shadow-root" in
          let shadowRootTag :=
            if delegatesFocus shadowRoot
            then shadowRootTag ++ " shadowrootdelegatesfocus" else shadowRootTag in
          let shadowRootTag := shadowRootTag ++ ">" in
          let html := html ++ shadowRootTag in
          let html := html ++
            (fix loop (shadowChildren : list Node) : string :=
               match shadowChildren with
               | [] => EmptyString
               | child :: rest =>
                 match child with
                 | ElementNode childElem =>
                   if excludeStyles
                      && String.eqb (Str.toLowerCase (tagName childElem)) "style"
                   then EmptyString (* continue *)
                   else serializeElement childElem excludeStyles serializeShadowRoot
                 | TextNode text => text
                 | CommentNode text =>
                   if Str.truthy text then "<!--" ++ text ++ "-->" else EmptyString
                 | OtherNode _ => EmptyString
                 end ++ loop rest
               end) (shadowChildNodes shadowRoot) in
          html ++ "</mock:shadow-root>"
        else html
      | None => html
      end in
    (* hasStencilPolyfill = serializeShadowRoot && '__childNodes' in elem && elem.__childNodes *)
    let childNodes :=
      match polyfill with
      | Some hidden => if serializeShadowRoot then hidden else children
      | None => children
      end in
    let html := html ++
      (fix loop (children : list Node) : string :=
         match children with
         | [] => EmptyString
         | child :: rest =>
           match child with
           | ElementNode childElem =>
             serializeElement childElem excludeStyles serializeShadowRoot
           | TextNode text => text
           | CommentNode text =>
             if Str.truthy text then "<!--" ++ text ++ "-->" else EmptyString
           | OtherNode _ => EmptyString
           end ++ loop rest
         end) childNodes in
    (* Void elements don't have closing tags *)
    if negb (VOID_ELEMENTS_has tag) then html ++ "</" ++ tag ++ ">" else html
  end.

(** The body shared by the loop over a fragment's children (lines 81-93)
    and the loop over light-DOM children (lines 181-193). *)
Definition serializeChild (excludeStyles serializeShadowRoot : bool) (child : Node) : string :=
  match child with
  | ElementNode childElem => serializeElement childElem excludeStyles serializeShadowRoot
  | TextNode text => text
  | CommentNode text => if Str.truthy text then "<!--" ++ text ++ "-->" else EmptyString
  | OtherNode _ => EmptyString
  end.

(** The body of the loop over shadow children (lines 150-166), which skips
    [<style>] elements when [excludeStyles] is set. *)
Definition serializeShadowChild (excludeStyles serializeShadowRoot : bool) (child : Node) : string :=
  match child with
  | ElementNode childElem =>
    if excludeStyles && String.eqb (Str.toLowerCase (tagName childElem)) "style"
    then EmptyString
    else serializeElement childElem excludeStyles serializeShadowRoot
  | _ => serializeChild excludeStyles serializeShadowRoot child
  end.

(** [serializeElementWithShadow]: a fragment ([nodeType] 11) is the
    concatenation of its children, anything else is read as an element. *)
Definition serializeElementWithShadow (element : Root)
  (excludeStyles serializeShadowRoot : bool) : string :=
  match element with
  | RootFragment children =>
    String.concat EmptyString (map (serializeChild excludeStyles serializeShadowRoot) children)
  | RootElement elem => serializeElement elem excludeStyles serializeShadowRoot
  end.

Record SerializeOptions := mkSerializeOptions {
  opt_serializeShadowRoot : option bool;
  opt_pretty : option bool;
  opt_excludeStyles : option bool
}.

(** Destructuring default [= true]. *)
Definition orTrue (o : option bool) : bool := match o with Some b => b | None => true end.

Inductive SerializeInput :=
| InputString (s : string)
| InputNode (n : Root).

(** [serializeHtml].  The prettifier is passed in, as a function that
    returns a string or throws; the function of the source is [prettifyHtml]
    below, and what is proved for every prettifier holds for it. *)
Definition serializeHtml (prettifyHtml : string -> Completion string)
  (input : SerializeInput) (options : SerializeOptions) : Completion string :=
  let serializeShadowRoot := orTrue (opt_serializeShadowRoot options) in
  let pretty := orTrue (opt_pretty options) in
  let excludeStyles := orTrue (opt_excludeStyles options) in
  match input with
  | InputString s => Return s
  | InputNode n =>
    let html := serializeElementWithShadow n excludeStyles serializeShadowRoot in
    if pretty then prettifyHtml html else Return html
  end.

(** ** Regular-expression replacement

    [s.replace(re, r)] with a global [re]: the string is scanned from the
    left; where [re] matches, the replacement is emitted and the scan
    resumes after the match, otherwise one character is copied.  A pattern
    is given by the length of its match at the head of a string. *)
Definition Pattern := string -> option nat.

(** [skip] counts the characters of the current match still to be dropped. *)
Fixpoint replaceFrom (re : Pattern) (replacement : string) (skip : nat) (s : string) : string :=
  match s with
  | EmptyString => EmptyString
  | String c r =>
    match skip with
    | S k => replaceFrom re replacement k r
    | O =>
      match re s with
      | Some n => replacement ++ replaceFrom re replacement (Nat.pred n) r
      | None => String c (replaceFrom re replacement 0 r)
      end
    end
  end.

Definition replaceAll (re : Pattern) (replacement : string) (s : string) : string :=
  replaceFrom re replacement 0 s.

(** Length of the longest prefix made of whitespace. *)
Fixpoint spaces (s : string) : nat :=
  match s with
  | String c r => if Str.isWhitespace c then S (spaces r) else 0
  | EmptyString => 0
  end.

(** The string after its leading whitespace. *)
Fixpoint trimStart (s : string) : string :=
  match s with
  | String c r => if Str.isWhitespace c then trimStart r else s
  | EmptyString => EmptyString
  end.

Fixpoint trimEnd (s : string) : string :=
  match s with
  | EmptyString => EmptyString
  | String c r =>
    match trimEnd r with
    | EmptyString => if Str.isWhitespace c then EmptyString else String c EmptyString
    | r' => String c r'
    end
  end.

Definition trim (s : string) : string := trimEnd (trimStart s).

(** [/\s+/]: a non-empty, maximal run of whitespace. *)
Definition re_spaces : Pattern :=
  fun s => match spaces s with O => None | n => Some n end.

(** [/>\s+</]: [>], a non-empty run of whitespace, [<]. *)
Definition re_gt_spaces_lt : Pattern :=
  fun s =>
    match s with
    | String c r =>
      if Ascii.eqb c ">" then
        match spaces r, trimStart r with
        | S n, String d _ => if Ascii.eqb d "<" then Some (S (S (S n))) else None
        | _, _ => None
        end
      else None
    | EmptyString => None
    end.

(** [normalizeHtml]. *)
Definition normalizeHtml (html : string) : string :=
  trim (replaceAll re_gt_spaces_lt "><" (replaceAll re_spaces " " html)).


(** ** [prettifyHtml] (lines 206-256) *)

(** [/>\s*</]: [>], whitespace or none, [<]. *)
Definition re_gt_optional_spaces_lt : Pattern :=
  fun s =>
    match s with
    | String c r =>
      if Ascii.eqb c ">" then
        match trimStart r with
        | String d _ => if Ascii.eqb d "<" then Some (S (S (spaces r))) else None
        | EmptyString => None
        end
      else None
    | EmptyString => None
    end.

(** Position of the first [>]. *)
Fixpoint indexOfGt (s : string) : option nat :=
  match s with
  | EmptyString => None
  | String c r => if Ascii.eqb c ">" then Some 0 else option_map S (indexOfGt r)
  end.

(** [/<[^>]+>/]: [<], at least one character other than [>], and the
    first [>] after them. *)
Definition re_tag : Pattern :=
  fun s =>
    match s with
    | String c r =>
      if Ascii.eqb c "<" then
        match indexOfGt r with
        | Some (S n) => Some (S (S (S n)))
        | _ => None
        end
      else None
    | EmptyString => None
    end.

(** [s.split(/(<[^>]+>)/)]: the scan of [replaceFrom], which here ends the
    piece collected so far at every match and puts the match itself into
    the result, as the capturing group makes [split] do. *)
Fixpoint splitFrom (skip : nat) (piece : string) (s : string) : list string :=
  match s with
  | EmptyString => [piece]
  | String c r =>
    match skip with
    | S k => splitFrom k piece r
    | O =>
      match re_tag s with
      | Some n => piece :: substring 0 n s :: splitFrom (Nat.pred n) EmptyString r
      | None => splitFrom 0 (piece ++ String c EmptyString) r
      end
    end
  end.

Definition splitTags (s : string) : list string := splitFrom 0 EmptyString s.

(** The class [[^>\s]]. *)
Definition isTagNameChar (c : ascii) : bool := negb (Ascii.eqb c ">" || Str.isWhitespace c).

(** The longest prefix made of characters of a class. *)
Fixpoint takeRun (class : ascii -> bool) (s : string) : string :=
  match s with
  | String c r => if class c then String c (takeRun class r) else EmptyString
  | EmptyString => EmptyString
  end.

(** [part.match(/<\/([^>\s]+)/)?.[1]]: the name after the first [</] that
    has one, [None] for [undefined]. *)
Fixpoint closingTagName (part : string) : option string :=
  match part with
  | EmptyString => None
  | String c r =>
    if Ascii.eqb c "<" then
      match r with
      | String d r' =>
        if Ascii.eqb d "/" && Str.truthy (takeRun isTagNameChar r')
        then Some (takeRun isTagNameChar r')
        else closingTagName r
      | EmptyString => None
      end
    else closingTagName r
  end.

(** [/:/]. *)
Definition re_colon : Pattern :=
  fun s =>
    match s with
    | String c _ => if Ascii.eqb c ":" then Some 1 else None
    | EmptyString => None
    end.

(** The source of [openTagPattern] (line 231). *)
Definition openTagSource (tagName : string) : string :=
  "^\s*<" ++ replaceAll re_colon "\:" tagName ++ "[^>]*>$".

(** [' '.repeat(indentLevel * indentSize)]. *)
Definition indentation (indentLevel : nat) : string := Str.repeat " " (indentLevel * 2).

(** [lines[lines.length - 1]], [None] for [undefined]. *)
Definition lastOf (lines : list string) : option string := last (map Some lines) None.

Section Prettifier.

(** [new RegExp(source).test(s)], the engine's: the constructor throws a
    [SyntaxError] when [source] is not a pattern. *)
Variable regExpTest : string -> string -> Completion bool.

(** One round of the loop (lines 217-253) on [indentLevel] and [lines]. *)
Definition prettifyPart (state : nat * list string) (rawPart : string)
  : Completion (nat * list string) :=
  let (indentLevel, lines) := state in
  let part := trim rawPart in
  if negb (Str.truthy part) then Return (indentLevel, lines)
  else if Str.startsWith "<" part then
    if Str.startsWith "</" part then
      (* Closing tag - decrease indent first *)
      let indentLevel := Nat.pred indentLevel in
      let pushed := (indentLevel, (lines ++ [(indentation indentLevel ++ part)%string])%list) in
      match lastOf lines, closingTagName part with
      | Some lastLine, Some tagName =>
        if Str.truthy lastLine && Str.truthy tagName then
          matched <- regExpTest (openTagSource tagName) lastLine ;;
          if matched : bool
          then Return (indentLevel, (removelast lines ++ [(lastLine ++ part)%string])%list)
          else Return pushed
        else Return pushed
      | _, _ => Return pushed
      end
    else if Str.endsWith "/>" part then
      Return (indentLevel, (lines ++ [(indentation indentLevel ++ part)%string])%list)
    else
      Return (S indentLevel, (lines ++ [(indentation indentLevel ++ part)%string])%list)
  else Return (indentLevel, (lines ++ [(indentation indentLevel ++ part)%string])%list).

Fixpoint prettifyParts (state : nat * list string) (parts : list string)
  : Completion (list string) :=
  match parts with
  | [] => Return (snd state)
  | part :: rest =>
    state' <- prettifyPart state part ;;
    prettifyParts state' rest
  end.

(** [prettifyHtml]. *)
Definition prettifyHtml (html : string) : Completion string :=
  let html := trim (replaceAll re_gt_optional_spaces_lt "><" (replaceAll re_spaces " " html)) in
  lines <- prettifyParts (0, []) (splitTags html) ;;
  Return (String.concat Str.newline lines).

End Prettifier.

(** ** The serializer as a sequence of emissions

    The same traversal, recording every [html += ...] as a token instead
    of appending text.  [renderTokens] of the trace is the serializer's
    output (lemma [serializeElement_trace]); the trace says which piece of
    the output was written by which statement. *)
Inductive Token :=
| TOpen (tag : string)                 (* [<tagName] *)
| TAttr (a : Attr)                     (* one attribute *)
| TOpenEnd                             (* [>] *)
| TShadowOpen (delegatesFocus : bool)  (* [shadowRootTag] *)
| TShadowClose                         (* [</mock:shadow-root>] *)
| TText (text : string)
| TComment (text : string)
| TClose (tag : string).               (* [</tagName>] *)

Definition renderToken (t : Token) : string :=
  match t with
  | TOpen tag => "<" ++ tag
  | TAttr a => serializeAttr a
  | TOpenEnd => ">"
  | TShadowOpen true => "<mock:shadow-root shadowrootdelegatesfocus>"
  | TShadowOpen false => "<mock:shadow-root>"
  | TShadowClose => "</mock:shadow-root>"
  | TText text => text
  | TComment text => "<!--" ++ text ++ "-->"
  | TClose tag => "</" ++ tag ++ ">"
  end.

Definition renderTokens (l : list Token) : string :=
  String.concat EmptyString (map renderToken l).

Definition emitText (text : string) : list Token :=
  if Str.truthy text then [TText text] else [].

Definition emitComment (text : string) : list Token :=
  if Str.truthy text then [TComment text] else [].

Fixpoint emitElement (elem : Element) (excludeStyles serializeShadowRoot : bool)
  {struct elem} : list Token :=
  match elem with
  | mkElement _ _ attrs shadow children polyfill =>
    let tag := elementTagName elem in
    let out := [TOpen tag] in
    let out :=
      match attrs with
      | Some l => (out ++ map TAttr l)%list
      | None => out
      end in
    let out := (out ++ [TOpenEnd])%list in
    let out :=
      match shadow with
      | Some shadowRoot =>
        if serializeShadowRoot then
          let out := (out ++ [TShadowOpen (delegatesFocus shadowRoot)])%list in
          let out := (out ++
            (fix loop (shadowChildren : list Node) : list Token :=
               match shadowChildren with
               | [] => []
               | child :: rest =>
                 match child with
                 | ElementNode childElem =>
                   if excludeStyles
                      && String.eqb (Str.toLowerCase (tagName childElem)) "style"
                   then []
                   else emitElement childElem excludeStyles serializeShadowRoot
                 | TextNode text => emitText text
                 | CommentNode text => emitComment text
                 | OtherNode _ => []
                 end ++ loop rest
               end) (shadowChildNodes shadowRoot))%list in
          (out ++ [TShadowClose])%list
        else out
      | None => out
      end in
    let childNodes :=
      match polyfill with
      | Some hidden => if serializeShadowRoot then hidden else children
      | None => children
      end in
    let out := (out ++
      (fix loop (children : list Node) : list Token :=
         match children with
         | [] => []
         | child :: rest =>
           match child with
           | ElementNode childElem =>
             emitElement childElem excludeStyles serializeShadowRoot
           | TextNode text => emitText text
           | CommentNode text => emitComment text
           | OtherNode _ => []
           end ++ loop rest
         end) childNodes)%list in
    if negb (VOID_ELEMENTS_has tag) then (out ++ [TClose tag])%list else out
  end.

Definition emitChild (excludeStyles serializeShadowRoot : bool) (child : Node) : list Token :=
  match child with
  | ElementNode childElem => emitElement childElem excludeStyles serializeShadowRoot
  | TextNode text => emitText text
  | CommentNode text => emitComment text
  | OtherNode _ => []
  end.

Definition emitShadowChild (excludeStyles serializeShadowRoot : bool) (child : Node) : list Token :=
  match child with
  | ElementNode childElem =>
    if excludeStyles && String.eqb (Str.toLowerCase (tagName childElem)) "style"
    then []
    else emitElement childElem excludeStyles serializeShadowRoot
  | _ => emitChild excludeStyles serializeShadowRoot child
  end.

(** ** The parts of an element's serialization

    Named pieces of the output of [serializeElement], in the order in which
    the code appends them (lemma [serializeElement_eq]). *)

(** The list the light-DOM loop runs over (lines 173-178). *)
Definition lightNodes (e : Element) (serializeShadowRoot : bool) : list Node :=
  match __childNodes e with
  | Some hidden => if serializeShadowRoot then hidden else childNodes e
  | None => childNodes e
  end.

Definition attrsHtml (e : Element) : string :=
  match attributes e with
  | Some l => String.concat EmptyString (map serializeAttr l)
  | None => EmptyString
  end.

Definition shadowRootTag (s : ShadowRoot) : string :=
  if delegatesFocus s then "<mock:shadow-root shadowrootdelegatesfocus>"
  else "<mock:shadow-root>".

Definition shadowHtml (e : Element) (excludeStyles serializeShadowRoot : bool) : string :=
  match shadowRoot e with
  | Some s =>
    if serializeShadowRoot then
      shadowRootTag s
      ++ String.concat EmptyString
           (map (serializeShadowChild excludeStyles serializeShadowRoot) (shadowChildNodes s))
      ++ "</mock:shadow-root>"
    else EmptyString
  | None => EmptyString
  end.

Definition lightHtml (e : Element) (excludeStyles serializeShadowRoot : bool) : string :=
  String.concat EmptyString
    (map (serializeChild excludeStyles serializeShadowRoot) (lightNodes e serializeShadowRoot)).

Definition closingTag (e : Element) : string :=
  if VOID_ELEMENTS_has (elementTagName e) then EmptyString
  else "</" ++ elementTagName e ++ ">".

(** The same for the trace. *)
Definition shadowTokens (e : Element) (excludeStyles serializeShadowRoot : bool) : list Token :=
  match shadowRoot e with
  | Some s =>
    if serializeShadowRoot then
      (TShadowOpen (delegatesFocus s)
       :: flat_map (emitShadowChild excludeStyles serializeShadowRoot) (shadowChildNodes s)
       ++ [TShadowClose])%list
    else []
  | None => []
  end.

Definition closingTokens (e : Element) : list Token :=
  if VOID_ELEMENTS_has (elementTagName e) then [] else [TClose (elementTagName e)].

Definition attrTokens (e : Element) : list Token :=
  match attributes e with Some l => map TAttr l | None => [] end.

(** ** Predicates over trees *)

(** A predicate on elements, lifted to the nodes of a child list. *)
Definition onElements (P : Element -> Prop) (n : Node) : Prop :=
  match n with ElementNode e => P e | _ => True end.

Definition polyfillNodes (e : Element) : list Node :=
  match __childNodes e with Some l => l | None => [] end.

Definition shadowNodes (e : Element) : list Node :=
  match shadowRoot e with Some s => shadowChildNodes s | None => [] end.


(** Markup-free light DOM: no text, comment, tag name or attribute of the
    tree reached through the public child lists contains [<], and no
    tag name contains [mock:shadow-root].  Shadow trees and polyfill
    lists are not looked at. *)
Definition noLt (s : string) : bool := negb (Str.hasChar "<" s).

Definition tagOk (tag : string) : bool :=
  noLt tag && negb (Str.includes "mock:shadow-root" tag).

Definition attrOk (a : Attr) : bool := noLt (attrName a) && noLt (attr_value a).

Definition attrsOk (attrs : option (list Attr)) : bool :=
  match attrs with Some l => forallb attrOk l | None => true end.

Fixpoint lightMarkupFree (e : Element) : bool :=
  match e with
  | mkElement _ _ attrs _ children _ =>
    tagOk (elementTagName e) && attrsOk attrs &&
    (fix all (l : list Node) : bool :=
       match l with
       | [] => true
       | n :: r =>
         match n with
         | ElementNode c => lightMarkupFree c
         | TextNode t => noLt t
         | CommentNode t => noLt t
         | OtherNode _ => true
         end && all r
       end) children
  end.

Definition lightMarkupFreeNode (n : Node) : bool :=
  match n with
  | ElementNode c => lightMarkupFree c
  | TextNode t => noLt t
  | CommentNode t => noLt t
  | OtherNode _ => true
  end.

Definition lightMarkupFreeRoot (r : Root) : bool :=
  match r with
  | RootElement e => lightMarkupFree e
  | RootFragment l => forallb lightMarkupFreeNode l
  end.

(** A [<] with no [>] after it: the string ends inside a tag. *)
Fixpoint dangling (s : string) : bool :=
  match s with
  | EmptyString => false
  | String c r => (Ascii.eqb c "<" && negb (Str.hasChar ">" r)) || dangling r
  end.

(** The string holds no occurrence of the pattern and does not end inside a
    tag. *)
Definition safe (p s : string) : Prop :=
  Str.includes p s = false /\ dangling s = false.

(** ** Normal forms of [normalizeHtml] *)

(** Every whitespace character is a single space, followed by something
    that is not whitespace. *)
Fixpoint singleSpaced (s : string) : bool :=
  match s with
  | EmptyString => true
  | String c r =>
    (if Str.isWhitespace c then Ascii.eqb c " " && Nat.eqb (spaces r) 0 else true)
    && singleSpaced r
  end.

(** [/>\s+</] matches nowhere. *)
Fixpoint noGap (s : string) : bool :=
  match s with
  | EmptyString => true
  | String _ r =>
    match re_gt_spaces_lt s with None => true | Some _ => false end && noGap r
  end.

(** The first character after the leading whitespace, if there is one. *)
Definition firstNonSpace (s : string) : option ascii :=
  match trimStart s with String c _ => Some c | EmptyString => None end.

Definition collapseSpaces (s : string) : string := replaceAll re_spaces " " s.
Definition closeGaps (s : string) : string := replaceAll re_gt_spaces_lt "><" s.

(** The second stage of [prettifyHtml]. *)
Definition closeTags (s : string) : string := replaceAll re_gt_optional_spaces_lt "><" s.

(* ================================================================== *)
(** * JavaScript values *)
(* ================================================================== *)

(** Event payloads.  Primitives are values; objects and arrays live in a
    store and are referred to by address, so that two references can be the
    same object and an object can contain itself. *)
Inductive Value :=
| VUndefined
| VNull
| VBoolean (b : bool)
| VNumber (z : Z)
| VString (s : string)
| VBigInt (z : Z)
| VObject (address : nat).

Inductive Obj :=
| OPlain (properties : list (string * Value))   (* own enumerable properties, in key order *)
| OArray (elements : list Value).

Definition Store := list Obj.

(** Addresses outside the store do not occur in a well-formed store; they
    read as an object without properties. *)
Definition storeGet (h : Store) (address : nat) : Obj := nth address h (OPlain []).

(** [a === b]. *)
Definition strictEquals (a b : Value) : bool :=
  match a, b with
  | VUndefined, VUndefined => true
  | VNull, VNull => true
  | VBoolean x, VBoolean y => Bool.eqb x y
  | VNumber x, VNumber y => Z.eqb x y
  | VString x, VString y => String.eqb x y
  | VBigInt x, VBigInt y => Z.eqb x y
  | VObject x, VObject y => Nat.eqb x y
  | _, _ => false
  end.

(** The key of an array index. *)
Definition indexKey (i : nat) : string := NilEmpty.string_of_uint (Nat.to_uint i).

(** [Object.keys(o)]. *)
Definition ownKeys (o : Obj) : list string :=
  match o with
  | OPlain properties => map fst properties
  | OArray elements => map indexKey (seq 0 (List.length elements))
  end.

(** [o[key]]: the value of the own property, the [length] of an array,
    [undefined] when there is none.  The members of [Object.prototype] and
    [Array.prototype] are left out: under one of their names ([constructor],
    [toString]...) an object that has no such property of its own gives, in
    the source, the inherited member, which is no payload value.  The keys
    read here are the own keys of a payload; this is their reading for
    payloads whose keys are not such names. *)
Definition getProperty (o : Obj) (key : string) : Value :=
  match o with
  | OPlain properties =>
    match find (fun kv => String.eqb (fst kv) key) properties with
    | Some kv => snd kv
    | None => VUndefined
    end
  | OArray elements =>
    match find (fun i => String.eqb (indexKey i) key) (seq 0 (List.length elements)) with
    | Some i => nth i elements VUndefined
    | None =>
      if String.eqb key "length" then VNumber (Z.of_nat (List.length elements))
      else VUndefined
    end
  end.

(** ** [JSON.stringify] *)

Definition hexDigit (n : N) : string :=
  String (ascii_of_N (if (n <? 10)%N then 48 + n else 87 + n)) EmptyString.

(** One code unit inside a JSON string literal. *)
Definition quoteJSONChar (c : ascii) : string :=
  let n := Str.code c in
  if (n =? 34)%N then "\" ++ Str.dquote
  else if (n =? 92)%N then "\\"
  else if (n =? 8)%N then "\b"
  else if (n =? 9)%N then "\t"
  else if (n =? 10)%N then "\n"
  else if (n =? 12)%N then "\f"
  else if (n =? 13)%N then "\r"
  else if (n <? 32)%N then "\u00" ++ hexDigit (n / 16) ++ hexDigit (n mod 16)
  else String c EmptyString.

Fixpoint quoteJSONBody (s : string) : string :=
  match s with
  | EmptyString => EmptyString
  | String c r => quoteJSONChar c ++ quoteJSONBody r
  end.

Definition quoteJSONString (s : string) : string :=
  Str.dquote ++ quoteJSONBody s ++ Str.dquote.

Definition circularStructure : JsError :=
  mkJsError TypeError "Converting circular structure to JSON".

Definition cannotSerializeBigInt : JsError :=
  mkJsError TypeError "Do not know how to serialize a BigInt".

(** [SerializeJSONProperty]: [None] inside the completion stands for
    [undefined].  [stack] holds the objects being serialized; meeting one of
    them again is a cycle.  The recursion goes one object deeper at each
    step, and [fuel] bounds that depth: the outer [None] means that the
    bound was too small. *)
Fixpoint serializeJSONProperty (h : Store) (fuel : nat) (stack : list nat) (value : Value)
  {struct fuel} : option (Completion (option string)) :=
  match value with
  | VUndefined => Some (Return None)
  | VNull => Some (Return (Some "null"))
  | VBoolean b => Some (Return (Some (if b then "true" else "false")))
  | VNumber z => Some (Return (Some (Str.ofZ z)))
  | VString s => Some (Return (Some (quoteJSONString s)))
  | VBigInt _ => Some (Throw cannotSerializeBigInt)
  | VObject address =>
    if existsb (Nat.eqb address) stack then Some (Throw circularStructure)
    else
      match fuel with
      | O => None
      | S fuel' =>
        match storeGet h address with
        | OPlain properties =>
          match
            (fix members (l : list (string * Value)) : option (Completion (list string)) :=
               match l with
               | [] => Some (Return [])
               | (key, v) :: rest =>
                 match serializeJSONProperty h fuel' (address :: stack) v with
                 | None => None
                 | Some (Throw e) => Some (Throw e)
                 | Some (Return None) => members rest   (* undefined: property left out *)
                 | Some (Return (Some str)) =>
                   match members rest with
                   | None => None
                   | Some (Throw e) => Some (Throw e)
                   | Some (Return partial) =>
                     Some (Return (cons (quoteJSONString key ++ ":" ++ str) partial))
                   end
                 end
               end) properties
          with
          | None => None
          | Some (Throw e) => Some (Throw e)
          | Some (Return partial) =>
            Some (Return (Some ("{" ++ String.concat "," partial ++ "}")))
          end
        | OArray elements =>
          match
            (fix items (l : list Value) : option (Completion (list string)) :=
               match l with
               | [] => Some (Return [])
               | v :: rest =>
                 match serializeJSONProperty h fuel' (address :: stack) v with
                 | None => None
                 | Some (Throw e) => Some (Throw e)
                 | Some (Return item) =>
                   match items rest with
                   | None => None
                   | Some (Throw e) => Some (Throw e)
                   | Some (Return partial) =>
                     Some (Return
                       (cons (match item with Some str => str | None => "null" end) partial))
                   end
                 end
               end) elements
          with
          | None => None
          | Some (Throw e) => Some (Throw e)
          | Some (Return partial) =>
            Some (Return (Some ("[" ++ String.concat "," partial ++ "]")))
          end
        end
      end
  end.

(** [JSON.stringify(value)].  No chain of distinct objects is longer than
    the store, so the bound is never reached (lemma
    [serializeJSONProperty_enough_fuel]) and the last branch is dead. *)
Definition JSON_stringify (h : Store) (value : Value) : Completion (option string) :=
  match serializeJSONProperty h (S (List.length h)) [] value with
  | Some result => result
  | None => Throw (mkJsError Error "unreachable")
  end.

(* ================================================================== *)
(** * Event spies (types.ts, render.ts) *)
(* ================================================================== *)

Record CustomEvent := mkCustomEvent {
  eventType : string;
  detail : Value
}.

(** [interface EventSpy]; [spyLength] is its [length] member. *)
Record EventSpy := mkEventSpy {
  eventName : string;
  events : list CustomEvent;
  firstEvent : option CustomEvent;
  lastEvent : option CustomEvent;
  spyLength : Z
}.

(** The assignments a listener makes to its spy. *)
Inductive Write :=
| PushEvent (e : CustomEvent)       (* spy.events.push(e) *)
| SetLength (n : Z)                 (* spy.length = n *)
| SetLastEvent (e : CustomEvent)    (* spy.lastEvent = e *)
| SetFirstEvent (e : CustomEvent).  (* spy.firstEvent = e *)

Definition write (w : Write) (spy : EventSpy) : EventSpy :=
  match w with
  | PushEvent e =>
    mkEventSpy (eventName spy) (events spy ++ [e]) (firstEvent spy) (lastEvent spy) (spyLength spy)
  | SetLength n =>
    mkEventSpy (eventName spy) (events spy) (firstEvent spy) (lastEvent spy) n
  | SetLastEvent e =>
    mkEventSpy (eventName spy) (events spy) (firstEvent spy) (Some e) (spyLength spy)
  | SetFirstEvent e =>
    mkEventSpy (eventName spy) (events spy) (Some e) (lastEvent spy) (spyLength spy)
  end.

(** The listener of [spyOnEvent] (lines 699-707), run on the spy it has
    captured.  It returns the spy after the call and the assignments made. *)
Definition listener (spy : EventSpy) (customEvent : CustomEvent) : EventSpy * list Write :=
  let w1 := PushEvent customEvent in
  let spy := write w1 spy in
  let w2 := SetLength (Z.of_nat (List.length (events spy))) in
  let spy := write w2 spy in
  let w3 := SetLastEvent customEvent in
  let spy := write w3 spy in
  if (spyLength spy =? 1)%Z then
    let w4 := SetFirstEvent customEvent in
    (write w4 spy, [w1; w2; w3; w4])
  else (spy, [w1; w2; w3]).

(** The state [render] and its closures work on.  A render target is the
    container created by one call of [render], with the element rendered
    into it; targets are numbered.  Spy objects live in [spies] and are
    referred to by their position. *)
Record RenderState := mkRenderState {
  spies : list EventSpy;
  (** [eventSpies]: the [WeakMap] from containers to arrays of spies *)
  eventSpies : nat -> option (list nat);
  (** the listeners added with [element.addEventListener], in order of
      registration: target, event name, spy captured by the listener *)
  listeners : list (nat * string * nat)
}.

Definition initialState : RenderState := mkRenderState [] (fun _ => None) [].

(** [eventSpies.set(container, l)]. *)
Definition setEventSpies (container : nat) (l : list nat) (m : nat -> option (list nat))
  : nat -> option (list nat) :=
  fun c => if Nat.eqb c container then Some l else m c.

Definition spyHasName (st : RenderState) (name : string) (address : nat) : bool :=
  match nth_error (spies st) address with
  | Some spy => String.eqb (eventName spy) name
  | None => false
  end.

(** [spyOnEvent] of the render target [container] (lines 684-719).  The
    result is the spy, or [None] for [undefined]. *)
Definition spyOnEvent (container : nat) (name : string) (st : RenderState)
  : option nat * RenderState :=
  match eventSpies st container with
  | Some spiesForElement =>
    (* Return existing spy if already created *)
    (find (spyHasName st name) spiesForElement, st)
  | None =>
    let spy := mkEventSpy name [] None None 0 in
    let address := List.length (spies st) in
    let st := mkRenderState (spies st ++ [spy]) (eventSpies st) (listeners st) in
    (* element.addEventListener(eventName, listener) *)
    let st := mkRenderState (spies st) (eventSpies st)
                (listeners st ++ [(container, name, address)]) in
    (* Store the spy *)
    let spiesForElement :=
      match eventSpies st container with
      | Some l => l
      | None => []
      end in
    let st := mkRenderState (spies st)
                (setEventSpies container (spiesForElement ++ [address]) (eventSpies st))
                (listeners st) in
    (Some address, st)
  end.

(** Replace the spy at an address. *)
Fixpoint setSpy (address : nat) (spy : EventSpy) (l : list EventSpy) : list EventSpy :=
  match l, address with
  | [], _ => []
  | _ :: r, O => spy :: r
  | x :: r, S k => x :: setSpy k spy r
  end.

(** One listener receives the event. *)
Definition runListener (address : nat) (event : CustomEvent)
  (acc : list EventSpy * list (nat * Write)) : list EventSpy * list (nat * Write) :=
  match nth_error (fst acc) address with
  | Some spy =>
    let (spy', writes) := listener spy event in
    (setSpy address spy' (fst acc), (snd acc ++ map (pair address) writes)%list)
  | None => acc
  end.

(** [element.dispatchEvent(event)] on the element of a render target: the
    listeners registered on it for the type of the event run in order of
    registration.  The second component lists the assignments made, each
    with the spy it was made to. *)
Definition dispatchEvent (container : nat) (event : CustomEvent) (st : RenderState)
  : RenderState * list (nat * Write) :=
  let called :=
    filter (fun l => Nat.eqb (fst (fst l)) container
                     && String.eqb (snd (fst l)) (eventType event)) (listeners st) in
  let (spies', log) :=
    fold_left (fun acc l => runListener (snd l) event acc) called (spies st, []) in
  (mkRenderState spies' (eventSpies st) (listeners st), log).

(** A sequence of dispatches on one target. *)
Fixpoint dispatchAll (container : nat) (evs : list CustomEvent) (st : RenderState)
  : RenderState * list (nat * Write) :=
  match evs with
  | [] => (st, [])
  | e :: rest =>
    let (st1, log1) := dispatchEvent container e st in
    let (st2, log2) := dispatchAll container rest st1 in
    (st2, (log1 ++ log2)%list)
  end.

(** Every listener writes to a spy of the store. *)
Definition wellFormed (st : RenderState) : Prop :=
  Forall (fun l => snd l < List.length (spies st)) (listeners st).

(** The [length] of the spy is the number of its events. *)
Definition consistent (spy : EventSpy) : Prop :=
  spyLength spy = Z.of_nat (List.length (events spy)).

Definition isFirstEventWrite (w : Write) : bool :=
  match w with SetFirstEvent _ => true | _ => false end.

Definition isLastEventWrite (w : Write) : bool :=
  match w with SetLastEvent _ => true | _ => false end.

(** The entries of a log that are assignments of a given kind to the spy
    at [address]. *)
Definition writesTo (address : nat) (kind : Write -> bool) (log : list (nat * Write))
  : list (nat * Write) :=
  filter (fun entry => Nat.eqb (fst entry) address && kind (snd entry)) log.

(** The spy after its listener has received the events, and the
    assignments made on the way. *)
Fixpoint runSpy (spy : EventSpy) (evs : list CustomEvent) : EventSpy :=
  match evs with
  | [] => spy
  | e :: rest => runSpy (fst (listener spy e)) rest
  end.

Fixpoint runWrites (spy : EventSpy) (evs : list CustomEvent) : list Write :=
  match evs with
  | [] => []
  | e :: rest => (snd (listener spy e) ++ runWrites (fst (listener spy e)) rest)%list
  end.

(* ================================================================== *)
(** * matchers.ts *)
(* ================================================================== *)

(** What a matcher returns.  [message] is what the [message] thunk gives
    when it is called: a string for the matchers whose thunk only builds a
    string, a completion for the two HTML matchers, whose thunk calls
    [prettifyHtml] and may throw. *)
Record MatcherResultOf (M : Type) := mkMatcherResult {
  pass : bool;
  message : M
}.
Arguments mkMatcherResult {M} pass message.
Arguments pass {M} m.
Arguments message {M} m.

Definition MatcherResult : Type := MatcherResultOf string.

(** ** Class lists *)

(** [element.getAttribute(name)] on an HTML element of an HTML document,
    as the rendered components are: the requested name is put in lower
    case (the letters A-Z) before it is looked up; the result is the value
    of the first attribute of that name, [None] for [null]. *)
Definition getAttribute (e : Element) (name : string) : option string :=
  let name := Str.asciiLowerCase name in
  match attributes e with
  | Some l => option_map attr_value (find (fun a => String.eqb (attr_name a) name) l)
  | None => None
  end.

(** [s.split(/\s+/)]: the pieces between the runs of whitespace, empty
    pieces at the ends included. *)
Fixpoint splitSpaces (s : string) : list string :=
  match s with
  | EmptyString => [EmptyString]
  | String c r =>
    if Str.isWhitespace c then
      match r with
      | String c' _ => if Str.isWhitespace c' then splitSpaces r else EmptyString :: splitSpaces r
      | EmptyString => EmptyString :: splitSpaces r
      end
    else
      match splitSpaces r with
      | piece :: pieces => String c piece :: pieces
      | [] => [String c EmptyString]
      end
  end.

(** [l.filter(Boolean)] on strings. *)
Definition filterBoolean (l : list string) : list string := filter Str.truthy l.

(** [l.sort()]: by code units, the order of [String.compare]. *)
Fixpoint insertSorted (x : string) (l : list string) : list string :=
  match l with
  | [] => [x]
  | y :: r => if String.leb x y then x :: l else y :: insertSorted x r
  end.

Fixpoint sort (l : list string) : list string :=
  match l with
  | [] => []
  | x :: r => insertSorted x (sort r)
  end.

(** The order [sort] sorts by. *)
Definition leStr (x y : string) : Prop := String.leb x y = true.

(** [l.every((x, idx) => f(x, idx))], from index [idx] on. *)
Fixpoint everyFrom {A} (f : A -> nat -> bool) (idx : nat) (l : list A) : bool :=
  match l with
  | [] => true
  | x :: r => f x idx && everyFrom f (S idx) r
  end.

(** [l.join(', ')]. *)
Definition join (sep : string) (l : list string) : string := String.concat sep l.

(** [received.getAttribute('class') || ''] *)
Definition classAttrOf (received : Element) : string :=
  match getAttribute received "class" with
  | Some v => if Str.truthy v then v else EmptyString
  | None => EmptyString
  end.

(** [classAttr.split(/\s+/).filter(Boolean)] *)
Definition classTokens (received : Element) : list string :=
  filterBoolean (splitSpaces (classAttrOf received)).

Definition actualClassesOf (received : Element) : list string :=
  sort (classTokens received).

Definition toMatchClasses (received : Element) (classNames : list string) : MatcherResult :=
  let actualClasses := actualClassesOf received in
  let expectedClasses := sort (filterBoolean classNames) in
  let pass :=
    Nat.eqb (List.length actualClasses) (List.length expectedClasses)
    && everyFrom (fun cls idx =>
                    match nth_error expectedClasses idx with
                    | Some expected => String.eqb cls expected
                    | None => false      (* cls === undefined *)
                    end) 0 actualClasses in
  mkMatcherResult pass
    (if pass
     then "Expected element not to have exactly classes [" ++ join ", " classNames ++ "]"
     else "Expected element to have exactly classes [" ++ join ", " classNames
          ++ "], but got [" ++ join ", " actualClasses ++ "]").

(** ** Event payload comparison *)

(** [safeEquals]: the JSON texts are compared; when [JSON.stringify]
    throws, two objects are compared key by key and anything else with
    [===]. *)
Definition safeEquals (h : Store) (a b : Value) : Completion bool :=
  tryCatch
    (sa <- JSON_stringify h a ;;
     sb <- JSON_stringify h b ;;
     Return
       match sa, sb with
       | Some x, Some y => String.eqb x y
       | None, None => true          (* undefined === undefined *)
       | _, _ => false
       end)
    (fun _ =>
       match a, b with
       | VObject x, VObject y =>
         let keysA := ownKeys (storeGet h x) in
         let keysB := ownKeys (storeGet h y) in
         if negb (Nat.eqb (List.length keysA) (List.length keysB)) then Return false
         else
           Return (forallb (fun key =>
                              strictEquals (getProperty (storeGet h x) key)
                                           (getProperty (storeGet h y) key)) keysA)
       | _, _ => Return (strictEquals a b)
       end).

(** The comparison the claim describes for the second case: the same own
    keys, and strictly equal values under each of them. *)
Definition shallowEquals (h : Store) (x y : nat) : bool :=
  let keysA := ownKeys (storeGet h x) in
  let keysB := ownKeys (storeGet h y) in
  forallb (fun key => existsb (String.eqb key) keysB) keysA
  && forallb (fun key => existsb (String.eqb key) keysA) keysB
  && forallb (fun key =>
                strictEquals (getProperty (storeGet h x) key)
                             (getProperty (storeGet h y) key)) keysA.

Definition readDetailOfUndefined : JsError :=
  mkJsError TypeError "Cannot read properties of undefined (reading 'detail')".

(** ** Numbers passed as an index

    The value of a [number] argument: an integer (written in digits, as
    [String] writes the integers below 10^21), a finite number that is not
    an integer (given by its floor and by the text [String] gives for it),
    [NaN], or an infinity. *)
Inductive JsNumber :=
| Integer (z : Z)
| Fraction (floor : Z) (text : string)
| NaN
| Infinity (negative : bool).

(** [x < n] and [x >= n] for an integer [n].  Every comparison with [NaN]
    is false; a number that is not an integer lies strictly between its
    floor and the next integer. *)
Definition numberLtb (x : JsNumber) (n : Z) : bool :=
  match x with
  | Integer z => (z <? n)%Z
  | Fraction floor _ => (floor <? n)%Z
  | NaN => false
  | Infinity negative => negative
  end.

Definition numberGeb (x : JsNumber) (n : Z) : bool :=
  match x with
  | Integer z => (z >=? n)%Z
  | Fraction floor _ => (floor >=? n)%Z
  | NaN => false
  | Infinity negative => negb negative
  end.

(** [`${x}`] *)
Definition numberToString (x : JsNumber) : string :=
  match x with
  | Integer z => Str.ofZ z
  | Fraction _ text => text
  | NaN => "NaN"
  | Infinity negative => if negative then "-Infinity" else "Infinity"
  end.

(** [array[x]]: the element at an integer index within the array,
    [undefined] for any other number. *)
Definition elementAt {A : Type} (array : list A) (x : JsNumber) : option A :=
  match x with
  | Integer z => if (z <? 0)%Z then None else nth_error array (Z.to_nat z)
  | _ => None
  end.

Section Matchers.

(** The prettifier, the parser behind [parseHtmlFragment] and the
    conversion [String(value)] are taken as they are.  The prettifier and
    the parser return or throw; the prettifier of the source is
    [prettifyHtml] above, and what is proved for every prettifier holds
    for it. *)
Variable prettifyHtml : string -> Completion string.
(** [(fragment as any).innerHTML] and [fragment.textContent] of the
    parsed fragment, when parsing does not throw *)
Variable parseHtmlFragment : string -> Completion (option string * option string).
Variable toStringValue : Store -> Value -> string.

(** [safeStringify]; the result is interpolated into a message, where
    [undefined] reads "undefined". *)
Definition safeStringify (h : Store) (value : Value) : string :=
  match JSON_stringify h value with
  | Return (Some s) => s
  | Return None => "undefined"
  | Throw _ => toStringValue h value
  end.

Definition toHaveReceivedEvent (received : EventSpy) : MatcherResult :=
  let pass := (0 <? spyLength received)%Z in
  mkMatcherResult pass
    (if pass
     then "Expected event " ++ Str.dquote ++ eventName received ++ Str.dquote
          ++ " not to have been received"
     else "Expected event " ++ Str.dquote ++ eventName received ++ Str.dquote
          ++ " to have been received, but it was not").

Definition toHaveReceivedEventTimes (received : EventSpy) (count : Z) : MatcherResult :=
  let pass := (spyLength received =? count)%Z in
  mkMatcherResult pass
    (if pass
     then "Expected event " ++ Str.dquote ++ eventName received ++ Str.dquote
          ++ " not to have been received " ++ Str.ofZ count ++ " times"
     else "Expected event " ++ Str.dquote ++ eventName received ++ Str.dquote
          ++ " to have been received " ++ Str.ofZ count
          ++ " times, but it was received " ++ Str.ofZ (spyLength received) ++ " times").

Definition noEventsReceived (received : EventSpy) : MatcherResult :=
  mkMatcherResult false
    ("Expected event " ++ Str.dquote ++ eventName received ++ Str.dquote
     ++ " to have been received with detail, but no events were received").

Definition toHaveReceivedEventDetail (h : Store) (received : EventSpy) (expected : Value)
  : Completion MatcherResult :=
  if (spyLength received =? 0)%Z then Return (noEventsReceived received)
  else
    match lastEvent received with
    | None => Throw readDetailOfUndefined
    | Some lastEvent =>
      pass <- safeEquals h (detail lastEvent) expected ;;
      Return (mkMatcherResult pass
        (if pass
         then "Expected last event detail not to equal " ++ safeStringify h expected
         else "Expected last event detail to equal " ++ safeStringify h expected
              ++ ", but got " ++ safeStringify h (detail lastEvent)))
    end.

Definition toHaveFirstReceivedEventDetail (h : Store) (received : EventSpy) (expected : Value)
  : Completion MatcherResult :=
  if (spyLength received =? 0)%Z then Return (noEventsReceived received)
  else
    match firstEvent received with
    | None => Throw readDetailOfUndefined
    | Some firstEvent =>
      pass <- safeEquals h (detail firstEvent) expected ;;
      Return (mkMatcherResult pass
        (if pass
         then "Expected first event detail not to equal " ++ safeStringify h expected
         else "Expected first event detail to equal " ++ safeStringify h expected
              ++ ", but got " ++ safeStringify h (detail firstEvent)))
    end.

Definition toHaveLastReceivedEventDetail (h : Store) (received : EventSpy) (expected : Value)
  : Completion MatcherResult :=
  toHaveReceivedEventDetail h received expected.

Definition indexOutOfRange (received : EventSpy) (index : JsNumber) : MatcherResult :=
  mkMatcherResult false
    ("Expected event at index " ++ numberToString index ++ ", but only "
     ++ Str.ofZ (spyLength received) ++ " events were received").

(** [received.events[index]] is the only access to the list. *)
Definition toHaveNthReceivedEventDetail (h : Store) (received : EventSpy) (index : JsNumber)
  (expected : Value) : Completion MatcherResult :=
  if (spyLength received =? 0)%Z then Return (noEventsReceived received)
  else if numberLtb index 0 || numberGeb index (spyLength received)
  then Return (indexOutOfRange received index)
  else
    match elementAt (events received) index with
    | None => Throw readDetailOfUndefined
    | Some event =>
      pass <- safeEquals h (detail event) expected ;;
      Return (mkMatcherResult pass
        (if pass
         then "Expected event at index " ++ numberToString index ++ " detail not to equal "
              ++ safeStringify h expected
         else "Expected event at index " ++ numberToString index ++ " detail to equal "
              ++ safeStringify h expected ++ ", but got " ++ safeStringify h (detail event)))
    end.

(** ** HTML equality *)

(** What a matcher may receive.  [thenable] says that the [then] member
    of the value is a function. *)
Inductive Received :=
| RNull
| RUndefined
| RString (s : string)
| RNode (thenable : bool) (n : Root)   (* [nodeType] 1 or 11 *)
| ROther (thenable : bool).            (* a number, a plain object, a promise, a text node... *)

Definition isThenable (r : Received) : bool :=
  match r with
  | RNode t _ => t
  | ROther t => t
  | _ => false
  end.

Definition notResolved : JsError :=
  mkJsError TypeError
    "Element must be a resolved value, not a promise, before it can be tested".

(** [fragment.innerHTML || fragment.textContent || ''] *)
Definition fragmentHtml (s : string) : Completion string :=
  parsed <- parseHtmlFragment s ;;
  let (innerHTML, textContent) := parsed : option string * option string in
  Return
    match innerHTML with
    | Some x => if Str.truthy x then x else
                  match textContent with Some y => y | None => EmptyString end
    | None => match textContent with Some y => y | None => EmptyString end
    end.

(** The [message] thunk of the two HTML matchers, called: the template
    is filled from left to right, so the expected markup is prettified
    first. *)
Definition htmlMessage (subject : string) (pass : bool) (expectedHtml receivedHtml : string)
  : Completion string :=
  if pass then
    expectedPretty <- prettifyHtml expectedHtml ;;
    Return ("Expected " ++ subject ++ " not to equal:" ++ Str.newline ++ expectedPretty)
  else
    expectedPretty <- prettifyHtml expectedHtml ;;
    receivedPretty <- prettifyHtml receivedHtml ;;
    Return ("Expected " ++ subject ++ " to equal:" ++ Str.newline ++ expectedPretty
            ++ Str.newline ++ Str.newline ++ "Received:" ++ Str.newline ++ receivedPretty).

Definition toEqualHtml (received : Received) (expected : string)
  : Completion (MatcherResultOf (Completion string)) :=
  match received with
  | RNull =>
    Throw (mkJsError Error
      ("expect.toEqualHtml() received value is " ++ Str.dquote ++ "null" ++ Str.dquote))
  | RUndefined =>
    Throw (mkJsError Error
      ("expect.toEqualHtml() received value is " ++ Str.dquote ++ "undefined" ++ Str.dquote))
  | _ =>
    if isThenable received then Throw notResolved
    else
      receivedHtml <-
        match received with
        | RString s => fragmentHtml s
        | RNode _ n =>
          serializeHtml prettifyHtml (InputNode n) (mkSerializeOptions (Some true) None None)
        | _ =>
          Throw (mkJsError TypeError
            "expect.toEqualHtml() value should be an element, shadow root, or string")
        end ;;
      let expectedHtml := normalizeHtml (trim expected) in
      let receivedHtml := normalizeHtml receivedHtml in
      let pass := String.eqb receivedHtml expectedHtml in
      Return (mkMatcherResult pass (htmlMessage "HTML" pass expectedHtml receivedHtml))
  end.

Definition toEqualLightHtml (received : Received) (expected : string)
  : Completion (MatcherResultOf (Completion string)) :=
  match received with
  | RNull =>
    Throw (mkJsError Error
      ("expect.toEqualLightHtml() received value is " ++ Str.dquote ++ "null" ++ Str.dquote))
  | RUndefined =>
    Throw (mkJsError Error
      ("expect.toEqualLightHtml() received value is " ++ Str.dquote ++ "undefined"
       ++ Str.dquote))
  | _ =>
    if isThenable received then Throw notResolved
    else
      receivedHtml <-
        match received with
        | RString s => fragmentHtml s
        | RNode _ n =>
          serializeHtml prettifyHtml (InputNode n) (mkSerializeOptions (Some false) None None)
        | _ =>
          Throw (mkJsError TypeError
            "expect.toEqualLightHtml() value should be an element, shadow root, or string")
        end ;;
      let expectedHtml := normalizeHtml (trim expected) in
      let receivedHtml := normalizeHtml receivedHtml in
      let pass := String.eqb receivedHtml expectedHtml in
      Return (mkMatcherResult pass
                (htmlMessage "Light DOM HTML" pass expectedHtml receivedHtml))
  end.

End Matchers.

(* ================================================================== *)
(** * Sample data *)
(* ================================================================== *)

(** The store of the examples: three payloads [{n: 1}], [{n: 2}], [{n: 3}],
    an array, an object that contains itself and a second [{n: 2}]. *)
Definition sampleStore : Store :=
  [ OPlain [("n", VNumber 1)];
    OPlain [("n", VNumber 2)];
    OPlain [("n", VNumber 3)];
    OArray [VNumber 1; VUndefined; VString "a"; VObject 0];
    OPlain [("name", VString "loop"); ("self", VObject 4)];
    OPlain [("n", VNumber 2)] ].


(** Two payloads that cannot be serialized: [a = {x: undefined, self: a}]
    at address 0 and [b = {y: undefined, self: a}] at address 1. *)
Definition cyclicStore : Store :=
  [ OPlain [("x", VUndefined); ("self", VObject 0)];
    OPlain [("y", VUndefined); ("self", VObject 0)] ].

(** The answers of the engine in the examples, where no closing tag comes
    right after the line of its opening tag: every pattern is accepted and
    no line matches. *)
Definition noLineMatches (source line : string) : Completion bool := Return false.

(** A parser that finds nothing, for the examples that do not parse. *)
Definition noParser (s : string) : Completion (option string * option string) :=
  Return (None, None).

Definition plainString (h : Store) (v : Value) : string := "[object Object]".

(** The three events of the specification's scenario. *)
Definition click1 : CustomEvent := mkCustomEvent "buttonClick" (VObject 0).
Definition click2 : CustomEvent := mkCustomEvent "buttonClick" (VObject 1).
Definition click3 : CustomEvent := mkCustomEvent "buttonClick" (VObject 2).

(* ================================================================== *)
(** * Tactics *)
(* ================================================================== *)

(** Closes a goal in which [H] says that a token other than the two
    sentinel tokens is one of them. *)
Ltac not_a_sentinel H :=
  destruct H as [[? H] | H]; discriminate.

(* ================================================================== *)
(** * Views of a tree used in the statements *)
(* ================================================================== *)

(** The public light tree: every shadow root and every polyfill list
    taken away, the public child lists kept. *)
Fixpoint lightTree (e : Element) : Element :=
  match e with
  | mkElement ln tn attrs _ children _ =>
    mkElement ln tn attrs None
      ((fix go (l : list Node) : list Node :=
          match l with
          | [] => []
          | n :: r =>
            match n with
            | ElementNode c => ElementNode (lightTree c)
            | other => other
            end :: go r
          end) children)
      None
  end.

Definition lightNode (n : Node) : Node :=
  match n with
  | ElementNode c => ElementNode (lightTree c)
  | other => other
  end.

Definition lightRoot (r : Root) : Root :=
  match r with
  | RootElement e => RootElement (lightTree e)
  | RootFragment l => RootFragment (map lightNode l)
  end.

(** No element of the tree has a shadow root or a polyfill list. *)
Fixpoint shadowFree (e : Element) : bool :=
  match e with
  | mkElement _ _ _ sh children polyfill =>
    match sh, polyfill with
    | None, None =>
      (fix all (l : list Node) : bool :=
         match l with
         | [] => true
         | n :: r =>
           match n with
           | ElementNode c => shadowFree c
           | _ => true
           end && all r
         end) children
    | _, _ => false
    end
  end.

Definition shadowFreeNode (n : Node) : bool :=
  match n with ElementNode c => shadowFree c | _ => true end.

Definition shadowFreeRoot (r : Root) : bool :=
  match r with
  | RootElement e => shadowFree e
  | RootFragment l => forallb shadowFreeNode l
  end.

(** The test of line 154 on a child of a shadow root. *)
Definition isStyleElement (n : Node) : bool :=
  match n with
  | ElementNode c => String.eqb (Str.toLowerCase (tagName c)) "style"
  | _ => false
  end.

(** The tree without the [<style>] elements that are children of the
    shadow root of one of its elements, at any depth. *)
Fixpoint withoutShadowStyles (e : Element) : Element :=
  match e with
  | mkElement ln tn attrs sh children polyfill =>
    let keep :=
      fix keep (l : list Node) : list Node :=
        match l with
        | [] => []
        | n :: r =>
          match n with
          | ElementNode c => ElementNode (withoutShadowStyles c)
          | other => other
          end :: keep r
        end in
    mkElement ln tn attrs
      match sh with
      | Some (mkShadowRoot df shadowChildren) =>
        Some (mkShadowRoot df
          ((fix drop (l : list Node) : list Node :=
              match l with
              | [] => []
              | n :: r =>
                match n with
                | ElementNode c =>
                  if String.eqb (Str.toLowerCase (tagName c)) "style" then drop r
                  else ElementNode (withoutShadowStyles c) :: drop r
                | other => other :: drop r
                end
              end) shadowChildren))
      | None => None
      end
      (keep children)
      match polyfill with
      | Some hidden => Some (keep hidden)
      | None => None
      end
  end.

Definition withoutShadowStylesNode (n : Node) : Node :=
  match n with
  | ElementNode c => ElementNode (withoutShadowStyles c)
  | other => other
  end.

(** ** Nesting of the emitted tokens *)

(** What is open at some point of the output: an element, or the shadow
    root of the element below it. *)
Inductive Frame :=
| FElement (tag : string)
| FShadowRoot.

Definition frameEqb (a b : Frame) : bool :=
  match a, b with
  | FElement x, FElement y => String.eqb x y
  | FShadowRoot, FShadowRoot => true
  | _, _ => false
  end.

(** Reads a trace with the stack of what is open.  [inTag] holds between
    [<name] and [>], where only attributes may come.  A name of
    [VOID_ELEMENTS] opens nothing; a closing tag and a closing sentinel
    must close what was opened last.  The result is the stack at the end,
    [None] when the trace breaks the nesting. *)
Fixpoint nesting (stack : list Frame) (inTag : bool) (l : list Token) : option (list Frame) :=
  match l with
  | [] => if inTag then None else Some stack
  | t :: rest =>
    match t with
    | TOpen tag =>
      if inTag then None
      else nesting (if VOID_ELEMENTS_has tag then stack else FElement tag :: stack) true rest
    | TAttr _ => if inTag then nesting stack true rest else None
    | TOpenEnd => if inTag then nesting stack false rest else None
    | TShadowOpen _ => if inTag then None else nesting (FShadowRoot :: stack) false rest
    | TShadowClose =>
      match stack with
      | FShadowRoot :: below => if inTag then None else nesting below false rest
      | _ => None
      end
    | TText _ | TComment _ => if inTag then None else nesting stack false rest
    | TClose tag =>
      match stack with
      | FElement open :: below =>
        if inTag then None
        else if String.eqb open tag then nesting below false rest else None
      | _ => None
      end
    end
  end.

(** The verdict of a matcher: whether it passes, or what it throws. *)
Definition verdict {M : Type} (c : Completion (MatcherResultOf M)) : Completion bool :=
  r <- c ;; Return (pass r).

(** The children of a shadow root that [withoutShadowStyles] keeps. *)
Definition withoutStyles (l : list Node) : list Node :=
  flat_map (fun n => if isStyleElement n then [] else [withoutShadowStylesNode n]) l.

(** The same for the input of the serializer.  When the input is itself a
    fragment or a shadow root, its own children are all kept, [<style>]
    elements included: the branch of lines 78-95 has no test for them. *)
Definition withoutShadowStylesRoot (r : Root) : Root :=
  match r with
  | RootElement e => RootElement (withoutShadowStyles e)
  | RootFragment l => RootFragment (map withoutShadowStylesNode l)
  end.

(** A host with a shadow tree, a style sheet in it, and slotted light DOM. *)
Definition sampleButton : Element :=
  mkElement (Some "my-button") "MY-BUTTON" (Some [mkAttr "class" None None "hydrated"])
    (Some (mkShadowRoot false
       [ElementNode (mkElement (Some "style") "STYLE" (Some []) None
                       [TextNode ":host { display: block }"] None);
        ElementNode (mkElement (Some "button") "BUTTON" (Some []) None
                       [ElementNode (mkElement (Some "slot") "SLOT" (Some []) None [] None)]
                       None)]))
    [TextNode "Click me"] None.

(** A plain list: nothing in it has a shadow root. *)
Definition sampleList : Element :=
  mkElement (Some "ul") "UL" (Some []) None
    [ElementNode (mkElement (Some "li") "LI" (Some []) None [TextNode "one"] None);
     ElementNode (mkElement (Some "li") "LI" (Some []) None
                    [TextNode "two"; ElementNode (mkElement (Some "br") "BR" (Some []) None [] None)]
                    None)]
    None.

(** Tokens that leave the stack of open frames as they found it. *)
Definition neutral (tokens : list Token) : Prop :=
  forall stack rest, nesting stack false (tokens ++ rest)%list = nesting stack false rest.

(** ** Normal forms of [normalizeHtml] *)

(** A string made of whitespace only (the empty string included). *)
Definition isBlank (s : string) : bool :=
  match trimStart s with EmptyString => true | _ => false end.

(** Single spaces only, none of them between [>] and [<], none at either
    end. *)
Definition isNormalHtml (s : string) : bool :=
  singleSpaced s && noGap s && Nat.eqb (spaces s) 0 && String.eqb (trimEnd s) s.

(** ** Runs of the event-spy registry *)

(** What a test does to the registry: it asks for a spy, or an event is
    dispatched on the element of a render target. *)
Inductive Action :=
| CallSpyOnEvent (container : nat) (name : string)
| CallDispatchEvent (container : nat) (event : CustomEvent).

Definition step (st : RenderState) (a : Action) : RenderState :=
  match a with
  | CallSpyOnEvent c name => snd (spyOnEvent c name st)
  | CallDispatchEvent c e => fst (dispatchEvent c e st)
  end.

(** The state after a sequence of calls, from the state of a fresh module. *)
Definition run (actions : list Action) : RenderState :=
  fold_left step actions initialState.

(** The members of a spy agree with its list of events: [length] is the
    number of events, [firstEvent] is [events[0]] and [lastEvent] is
    [events[length - 1]]. *)
Definition tracked (spy : EventSpy) : Prop :=
  spyLength spy = Z.of_nat (List.length (events spy))
  /\ firstEvent spy = nth_error (events spy) 0
  /\ lastEvent spy = nth_error (events spy) (List.length (events spy) - 1).

(** Every event of the spy has the name the spy was created for. *)
Definition ownEvents (spy : EventSpy) : Prop :=
  Forall (fun e => eventType e = eventName spy) (events spy).

(** The listeners registered on a render target. *)
Definition listenersOn (container : nat) (st : RenderState) : list (nat * string * nat) :=
  filter (fun l => Nat.eqb (fst (fst l)) container) (listeners st).

(** What holds of every state of a run: listener [i] writes to spy [i];
    spies are tracked and hold their own events; a listener on a target is
    the listener of the one spy recorded for the target. *)
Definition registryInvariant (st : RenderState) : Prop :=
  map snd (listeners st) = seq 0 (List.length (spies st))
  /\ Forall (fun spy => tracked spy /\ ownEvents spy) (spies st)
  /\ Forall (fun l =>
               option_map eventName (nth_error (spies st) (snd l)) = Some (snd (fst l))
               /\ eventSpies st (fst (fst l)) = Some [snd l]) (listeners st)
  /\ (forall c l, eventSpies st c = Some l ->
        exists name a, l = [a] /\ In (c, name, a) (listeners st)).

(** What an observer of the calls expects of the spy of a render target:
    the name it was first asked for on the target, and the events of that
    name dispatched on the target since. *)
Definition observe (container : nat) (seen : option string * list CustomEvent) (a : Action)
  : option string * list CustomEvent :=
  match a with
  | CallSpyOnEvent c name =>
    (match fst seen with
     | Some first => Some first
     | None => if Nat.eqb c container then Some name else None
     end, snd seen)
  | CallDispatchEvent c e =>
    (fst seen,
     (snd seen
      ++ if Nat.eqb c container
            && match fst seen with
               | Some name => String.eqb name (eventType e)
               | None => false
               end
         then [e] else [])%list)
  end.

Definition observed (container : nat) (actions : list Action)
  : option string * list CustomEvent :=
  fold_left (observe container) actions (None, []).

(** The registry agrees with the observer on a render target. *)
Definition agrees (st : RenderState) (container : nat)
  (seen : option string * list CustomEvent) : Prop :=
  match fst seen, eventSpies st container with
  | Some name, Some [a] =>
    exists spy, nth_error (spies st) a = Some spy
                /\ eventName spy = name /\ events spy = snd seen
  | None, None => snd seen = []
  | _, _ => False
  end.

(* ================================================================== *)
(** * The matchers on classes, attributes and text (matchers.ts) *)
(* ================================================================== *)

(** [classList.contains(token)]; [classList] is given by its tokens. *)
Definition contains (classList : list string) (token : string) : bool :=
  existsb (String.eqb token) classList.

(** [toHaveClass] (lines 62-70). *)
Definition toHaveClass (classList : list string) (className : string) : MatcherResult :=
  let pass := contains classList className in
  mkMatcherResult pass
    (if pass
     then "Expected element not to have class " ++ Str.dquote ++ className ++ Str.dquote
     else "Expected element to have class " ++ Str.dquote ++ className ++ Str.dquote).

(** The loop of [toHaveClasses] (lines 79-83), from the names already
    found missing. *)
Fixpoint missingFrom (classList : list string) (missingClasses classNames : list string)
  : list string :=
  match classNames with
  | [] => missingClasses
  | className :: rest =>
    if negb (contains classList className)
    then missingFrom classList (missingClasses ++ [className]) rest
    else missingFrom classList missingClasses rest
  end.

(** [toHaveClasses] (lines 76-95). *)
Definition toHaveClasses (classList : list string) (classNames : list string) : MatcherResult :=
  let missingClasses := missingFrom classList [] classNames in
  let pass := Nat.eqb (List.length missingClasses) 0 in
  let actualClasses := join ", " classList in
  mkMatcherResult pass
    (if pass
     then "Expected element not to have classes [" ++ join ", " classNames ++ "]"
     else "Expected element to have classes [" ++ join ", " classNames
          ++ "], but missing [" ++ join ", " missingClasses
          ++ "]. Actual classes: [" ++ actualClasses ++ "]").

(** [element.hasAttribute(name)]. *)
Definition hasAttribute (e : Element) (name : string) : bool :=
  match getAttribute e name with Some _ => true | None => false end.

(** A value that may be [null], interpolated into a template. *)
Definition orNull (v : option string) : string :=
  match v with Some s => s | None => "null" end.

(** [actualValue === value] for a value that may be [null]. *)
Definition isValue (actualValue : option string) (value : string) : bool :=
  match actualValue with Some s => String.eqb s value | None => false end.

(** [toHaveAttribute] (lines 122-153); [value] is [None] when the argument
    is left out. *)
Definition toHaveAttribute (received : Element) (attribute : string) (value : option string)
  : MatcherResult :=
  if negb (hasAttribute received attribute) then
    mkMatcherResult false
      ("Expected element to have attribute " ++ Str.dquote ++ attribute ++ Str.dquote)
  else
    match value with
    | Some value =>
      let actualValue := getAttribute received attribute in
      let pass := isValue actualValue value in
      mkMatcherResult pass
        (if pass
         then "Expected element not to have attribute " ++ Str.dquote ++ attribute ++ Str.dquote
              ++ " with value " ++ Str.dquote ++ value ++ Str.dquote
         else "Expected element to have attribute " ++ Str.dquote ++ attribute ++ Str.dquote
              ++ " with value " ++ Str.dquote ++ value ++ Str.dquote
              ++ ", but got " ++ Str.dquote ++ orNull actualValue ++ Str.dquote)
    | None =>
      mkMatcherResult true
        ("Expected element not to have attribute " ++ Str.dquote ++ attribute ++ Str.dquote)
    end.

(** [toEqualAttribute] (lines 158-173). *)
Definition toEqualAttribute (received : Element) (attribute : string) (value : string)
  : MatcherResult :=
  let actualValue := getAttribute received attribute in
  let pass := isValue actualValue value in
  mkMatcherResult pass
    (if pass
     then "Expected element attribute " ++ Str.dquote ++ attribute ++ Str.dquote
          ++ " not to equal " ++ Str.dquote ++ value ++ Str.dquote
     else "Expected element attribute " ++ Str.dquote ++ attribute ++ Str.dquote
          ++ " to equal " ++ Str.dquote ++ value ++ Str.dquote
          ++ ", but got " ++ Str.dquote ++ orNull actualValue ++ Str.dquote).

(** The loop of [toEqualAttributes] over [Object.entries(expectedAttrs)]
    (lines 192-200), from the mismatches already found. *)
Fixpoint mismatchesFrom (received : Element) (mismatches : list string)
  (entries : list (string * string)) : list string :=
  match entries with
  | [] => mismatches
  | (name, expectedValue) :: rest =>
    match getAttribute received name with
    | None =>
      mismatchesFrom received
        (mismatches ++ ["missing " ++ Str.dquote ++ name ++ Str.dquote]) rest
    | Some actualValue =>
      if negb (String.eqb actualValue expectedValue) then
        mismatchesFrom received
          (mismatches ++ [Str.dquote ++ name ++ Str.dquote ++ ": expected "
                          ++ Str.dquote ++ expectedValue ++ Str.dquote ++ ", got "
                          ++ Str.dquote ++ actualValue ++ Str.dquote]) rest
      else mismatchesFrom received mismatches rest
    end
  end.

Definition readLengthOfUndefined : JsError :=
  mkJsError TypeError "Cannot read properties of undefined (reading 'length')".

Section ElementMatchers.

(** [JSON.stringify] of the object that has the given entries, assigned in
    that order; it is only used in messages. *)
Variable stringifyRecord : list (string * string) -> string.

(** [toEqualAttributes] (lines 178-211).  [expectedAttrs] is given by its
    entries.  Reading [received.attributes.length] throws on a node that has
    no [attributes]. *)
Definition toEqualAttributes (received : Element) (expectedAttrs : list (string * string))
  : Completion MatcherResult :=
  match attributes received with
  | None => Throw readLengthOfUndefined
  | Some attrs =>
    let actualAttrs := map (fun attr => (attr_name attr, attr_value attr)) attrs in
    let mismatches := mismatchesFrom received [] expectedAttrs in
    let pass := Nat.eqb (List.length mismatches) 0 in
    Return (mkMatcherResult pass
      (if pass
       then "Expected element not to have attributes " ++ stringifyRecord expectedAttrs
       else "Expected element attributes to match." ++ Str.newline
            ++ "Mismatches: " ++ join ", " mismatches ++ Str.newline
            ++ "Expected: " ++ stringifyRecord expectedAttrs ++ Str.newline
            ++ "Actual: " ++ stringifyRecord actualAttrs))
  end.

End ElementMatchers.

(** [received.textContent || ''] *)
Definition textOrEmpty (textContent : option string) : string :=
  match textContent with
  | Some s => if Str.truthy s then s else EmptyString
  | None => EmptyString
  end.

(** [toHaveTextContent] (lines 248-259), on the [textContent] of the
    element. *)
Definition toHaveTextContent (textContent : option string) (text : string) : MatcherResult :=
  let actualText := textOrEmpty textContent in
  let pass := Str.includes text actualText in
  mkMatcherResult pass
    (if pass
     then "Expected element not to have text content " ++ Str.dquote ++ text ++ Str.dquote
     else "Expected element to have text content " ++ Str.dquote ++ text ++ Str.dquote
          ++ ", but got " ++ Str.dquote ++ actualText ++ Str.dquote).

(** [toEqualText] (lines 264-276). *)
Definition toEqualText (textContent : option string) (expectedText : string) : MatcherResult :=
  let actualText := trim (textOrEmpty textContent) in
  let trimmedExpected := trim expectedText in
  let pass := String.eqb actualText trimmedExpected in
  mkMatcherResult pass
    (if pass
     then "Expected element text not to equal " ++ Str.dquote ++ trimmedExpected ++ Str.dquote
     else "Expected element text to equal " ++ Str.dquote ++ trimmedExpected ++ Str.dquote
          ++ ", but got " ++ Str.dquote ++ actualText ++ Str.dquote).

(** [toHaveShadowRoot] (lines 281-288). *)
Definition toHaveShadowRoot (received : Element) : MatcherResult :=
  let pass := match shadowRoot received with Some _ => true | None => false end in
  mkMatcherResult pass
    (if pass then "Expected element not to have shadow root"
     else "Expected element to have shadow root").

(* ================================================================== *)
(** * The command line of [stencil-test] (bin/stencil-test) *)
(* ================================================================== *)

Module Cli.

(** [interface ParsedArgs].  An optional member is [None] while it is
    [undefined]; an element of [project], [reporter] and [vitestArgs] is
    [None] when [undefined] was pushed. *)
Record ParsedArgs := mkParsedArgs {
  watch : bool;
  serve : bool;
  port : option string;
  stencilConfig : option string;
  verbose : bool;
  debug : bool;
  prod : bool;
  project : option (list (option string));
  reporter : option (list (option string));
  coverage : bool;
  noCoverage : bool;
  ui : bool;
  help : bool;
  vitestArgs : list (option string);
  stencilArgs : list string
}.

(** The object [parseArgs] starts from (lines 75-87). *)
Definition initialArgs : ParsedArgs :=
  mkParsedArgs false false None None false false false None None false false false false [] [].

(** [if (!array) array = []; array.push(value)] *)
Definition pushTo (array : option (list (option string))) (value : option string)
  : option (list (option string)) :=
  Some (match array with Some l => l | None => [] end ++ [value])%list.

(** The body of the [switch] (lines 93-189) for the argument [arg], with
    [next] for [argv[i + 1]].  The second component says whether [i] is
    advanced by two. *)
Definition switchArg (p : ParsedArgs) (arg : string) (next : option string)
  : ParsedArgs * bool :=
  if String.eqb arg "--help" || String.eqb arg "-h" then
    (mkParsedArgs (watch p) (serve p) (port p) (stencilConfig p) (verbose p) (debug p) (prod p)
       (project p) (reporter p) (coverage p) (noCoverage p) (ui p) true
       (vitestArgs p) (stencilArgs p), false)
  else if String.eqb arg "--watch" then
    (mkParsedArgs true (serve p) (port p) (stencilConfig p) (verbose p) (debug p) (prod p)
       (project p) (reporter p) (coverage p) (noCoverage p) (ui p) (help p)
       (vitestArgs p) (stencilArgs p), false)
  else if String.eqb arg "--serve" then
    (mkParsedArgs (watch p) true (port p) (stencilConfig p) (verbose p) (debug p) (prod p)
       (project p) (reporter p) (coverage p) (noCoverage p) (ui p) (help p)
       (vitestArgs p) (stencilArgs p), false)
  else if String.eqb arg "--port" then
    (mkParsedArgs (watch p) (serve p) next (stencilConfig p) (verbose p) (debug p) (prod p)
       (project p) (reporter p) (coverage p) (noCoverage p) (ui p) (help p)
       (vitestArgs p) (stencilArgs p), true)
  else if String.eqb arg "--stencil-config" then
    (mkParsedArgs (watch p) (serve p) (port p) next (verbose p) (debug p) (prod p)
       (project p) (reporter p) (coverage p) (noCoverage p) (ui p) (help p)
       (vitestArgs p) (stencilArgs p), true)
  else if String.eqb arg "--verbose" || String.eqb arg "-v" then
    (mkParsedArgs (watch p) (serve p) (port p) (stencilConfig p) true (debug p) (prod p)
       (project p) (reporter p) (coverage p) (noCoverage p) (ui p) (help p)
       (vitestArgs p) (stencilArgs p), false)
  else if String.eqb arg "--debug" then
    (mkParsedArgs (watch p) (serve p) (port p) (stencilConfig p) (verbose p) true (prod p)
       (project p) (reporter p) (coverage p) (noCoverage p) (ui p) (help p)
       (vitestArgs p) (stencilArgs p), false)
  else if String.eqb arg "--prod" then
    (mkParsedArgs (watch p) (serve p) (port p) (stencilConfig p) (verbose p) (debug p) true
       (project p) (reporter p) (coverage p) (noCoverage p) (ui p) (help p)
       (vitestArgs p) (stencilArgs p), false)
  else if String.eqb arg "--project" then
    (mkParsedArgs (watch p) (serve p) (port p) (stencilConfig p) (verbose p) (debug p) (prod p)
       (pushTo (project p) next) (reporter p) (coverage p) (noCoverage p) (ui p) (help p)
       (vitestArgs p ++ [Some arg; next])%list (stencilArgs p), true)
  else if String.eqb arg "--reporter" then
    (mkParsedArgs (watch p) (serve p) (port p) (stencilConfig p) (verbose p) (debug p) (prod p)
       (project p) (pushTo (reporter p) next) (coverage p) (noCoverage p) (ui p) (help p)
       (vitestArgs p ++ [Some arg; next])%list (stencilArgs p), true)
  else if String.eqb arg "--coverage" then
    (mkParsedArgs (watch p) (serve p) (port p) (stencilConfig p) (verbose p) (debug p) (prod p)
       (project p) (reporter p) true (noCoverage p) (ui p) (help p)
       (vitestArgs p ++ [Some arg])%list (stencilArgs p), false)
  else if String.eqb arg "--no-coverage" then
    (mkParsedArgs (watch p) (serve p) (port p) (stencilConfig p) (verbose p) (debug p) (prod p)
       (project p) (reporter p) (coverage p) true (ui p) (help p)
       (vitestArgs p ++ [Some arg])%list (stencilArgs p), false)
  else if String.eqb arg "--ui" then
    (mkParsedArgs (watch p) (serve p) (port p) (stencilConfig p) (verbose p) (debug p) (prod p)
       (project p) (reporter p) (coverage p) (noCoverage p) true (help p)
       (vitestArgs p ++ [Some arg])%list (stencilArgs p), false)
  else if Str.startsWith "-" arg then
    match next with
    | Some value =>
      if negb (Str.startsWith "-" value) then
        (mkParsedArgs (watch p) (serve p) (port p) (stencilConfig p) (verbose p) (debug p)
           (prod p) (project p) (reporter p) (coverage p) (noCoverage p) (ui p) (help p)
           (vitestArgs p ++ [Some arg; Some value])%list (stencilArgs p), true)
      else
        (mkParsedArgs (watch p) (serve p) (port p) (stencilConfig p) (verbose p) (debug p)
           (prod p) (project p) (reporter p) (coverage p) (noCoverage p) (ui p) (help p)
           (vitestArgs p ++ [Some arg])%list (stencilArgs p), false)
    | None =>
      (mkParsedArgs (watch p) (serve p) (port p) (stencilConfig p) (verbose p) (debug p)
         (prod p) (project p) (reporter p) (coverage p) (noCoverage p) (ui p) (help p)
         (vitestArgs p ++ [Some arg])%list (stencilArgs p), false)
    end
  else
    (mkParsedArgs (watch p) (serve p) (port p) (stencilConfig p) (verbose p) (debug p) (prod p)
       (project p) (reporter p) (coverage p) (noCoverage p) (ui p) (help p)
       (vitestArgs p ++ [Some arg])%list (stencilArgs p), false).

(** The [while] loop (lines 90-190) on the arguments from index [i] on. *)
Fixpoint parseFrom (parsed : ParsedArgs) (argv : list string) : ParsedArgs :=
  match argv with
  | [] => parsed
  | arg :: rest =>
    let (parsed', two) := switchArg parsed arg (hd_error rest) in
    if two then
      match rest with
      | [] => parsed'
      | _ :: rest' => parseFrom parsed' rest'
      end
    else parseFrom parsed' rest
  end.

(** [parseArgs] (lines 74-193). *)
Definition parseArgs (argv : list string) : ParsedArgs := parseFrom initialArgs argv.

(** Truthiness of an element of [vitestArgs]. *)
Definition isTruthy (a : option string) : bool :=
  match a with Some s => Str.truthy s | None => false end.

(** The strings among values that are truthy. *)
Fixpoint truthyStrings (l : list (option string)) : list string :=
  match l with
  | [] => []
  | Some s :: r => if Str.truthy s then s :: truthyStrings r else truthyStrings r
  | None :: r => truthyStrings r
  end.

(** [commandArgs] of [runTests] (lines 287-288):
    [['vitest', vitestMode, ...args.vitestArgs].filter(Boolean)]. *)
Definition commandArgs (args : ParsedArgs) : list string :=
  let vitestMode := if watch args then "watch" else "run" in
  truthyStrings (Some "vitest" :: Some vitestMode :: vitestArgs args).

(** The strings among values that are not [undefined]. *)
Fixpoint definedArgs (l : list (option string)) : list string :=
  match l with
  | [] => []
  | Some s :: r => s :: definedArgs r
  | None :: r => definedArgs r
  end.

(** The switches that take the next argument as their value, whatever it
    is. *)
Definition takesValue (arg : string) : bool :=
  String.eqb arg "--port" || String.eqb arg "--stencil-config"
  || String.eqb arg "--project" || String.eqb arg "--reporter".

(** The last argument is a switch that pushes its value to [vitestArgs]. *)
Definition endsWithPushedValue (argv : list string) : bool :=
  String.eqb (last argv EmptyString) "--project"
  || String.eqb (last argv EmptyString) "--reporter".

Definition isUndefined (a : option string) : bool :=
  match a with Some _ => false | None => true end.

(** The boolean members of [ParsedArgs] and the spellings that set them. *)
Inductive Flag :=
| Help | Watch | Serve | Verbose | Debug | Prod | Coverage | NoCoverage | Ui.

Definition flagValue (flag : Flag) (p : ParsedArgs) : bool :=
  match flag with
  | Help => help p
  | Watch => watch p
  | Serve => serve p
  | Verbose => verbose p
  | Debug => debug p
  | Prod => prod p
  | Coverage => coverage p
  | NoCoverage => noCoverage p
  | Ui => ui p
  end.

Definition isSwitch (flag : Flag) (arg : string) : bool :=
  match flag with
  | Help => String.eqb arg "--help" || String.eqb arg "-h"
  | Watch => String.eqb arg "--watch"
  | Serve => String.eqb arg "--serve"
  | Verbose => String.eqb arg "--verbose" || String.eqb arg "-v"
  | Debug => String.eqb arg "--debug"
  | Prod => String.eqb arg "--prod"
  | Coverage => String.eqb arg "--coverage"
  | NoCoverage => String.eqb arg "--no-coverage"
  | Ui => String.eqb arg "--ui"
  end.

(** [vitestConfigPath] (lines 597-601): what follows the first ['--config']
    of [vitestArgs], [None] for [undefined]. *)
Fixpoint afterConfig (l : list (option string)) : option string :=
  match l with
  | [] => None
  | a :: r =>
    match a with
    | Some s => if String.eqb s "--config" then
                  match r with
                  | next :: _ => next
                  | [] => None
                  end
                else afterConfig r
    | None => afterConfig r
    end
  end.

Definition vitestConfigPath (args : ParsedArgs) : option string :=
  afterConfig (vitestArgs args).

(** Truthiness of a value that may be [undefined] or [null]. *)
Definition given (v : option string) : bool :=
  match v with Some s => Str.truthy s | None => false end.

Definition valueOf (v : option string) : string :=
  match v with Some s => s | None => EmptyString end.

(** [stencilArgs] of the main function (lines 609-653), the arguments of
    the Stencil process.  [tempStencilConfigPath] is the module variable of
    that name, [None] for [null]. *)
Definition stencilCommand (args : ParsedArgs) (tempStencilConfigPath : option string)
  : list string :=
  (["stencil"; "build"]
   ++ (if prod args then ["--prod"] else ["--dev"])
   ++ (if watch args then
         ["--watch"]
         ++ (if given tempStencilConfigPath
             then ["--config"; valueOf tempStencilConfigPath]
             else if given (stencilConfig args)
                  then ["--config"; valueOf (stencilConfig args)]
                  else [])
         ++ (if serve args then
               ["--serve"]
               ++ (if given (port args) then ["--port"; valueOf (port args)] else [])
             else [])
       else
         if given (stencilConfig args) then ["--config"; valueOf (stencilConfig args)]
         else [])
   ++ (if debug args then ["--debug"] else [])
   ++ stencilArgs args)%list.

(** Where an argument of the Stencil process may come from: it is one of
    the fixed words, the temporary configuration, or an argument of the
    command line. *)
Definition fromCommandLine (argv : list string) (tempStencilConfigPath : option string)
  (a : string) : Prop :=
  In a ["stencil"; "build"; "--dev"; "--config"]
  \/ tempStencilConfigPath = Some a
  \/ In a argv.

End Cli.

(** [l] is [m] with some elements left out. *)
Inductive Subsequence {A : Type} : list A -> list A -> Prop :=
| sub_nil : Subsequence [] []
| sub_skip (x : A) (l m : list A) : Subsequence l m -> Subsequence l (x :: m)
| sub_take (x : A) (l m : list A) : Subsequence l m -> Subsequence (x :: l) (x :: m).

(* ================================================================== *)
(** * Utilities of the test project (src/utils) *)
(* ================================================================== *)

Module Utils.

(** The class [\w]: [A-Za-z0-9_]. *)
Definition isWordChar (c : ascii) : bool :=
  let n := Str.code c in
  ((48 <=? n) && (n <=? 57) || (65 <=? n) && (n <=? 90)
   || (97 <=? n) && (n <=? 122) || (n =? 95))%N.

(** The class [[^\w\s-]]. *)
Definition isOther (c : ascii) : bool :=
  negb (isWordChar c || Str.isWhitespace c || Ascii.eqb c "-").

(** The class [[\s_-]]. *)
Definition isSeparator (c : ascii) : bool :=
  Str.isWhitespace c || Ascii.eqb c "_" || Ascii.eqb c "-".

Definition isHyphen (c : ascii) : bool := Ascii.eqb c "-".

(** Length of the longest prefix made of characters of a class, and the
    string after it. *)
Fixpoint runLength (class : ascii -> bool) (s : string) : nat :=
  match s with
  | String c r => if class c then S (runLength class r) else 0
  | EmptyString => 0
  end.

Fixpoint dropRun (class : ascii -> bool) (s : string) : string :=
  match s with
  | String c r => if class c then dropRun class r else s
  | EmptyString => EmptyString
  end.

(** [/[^\w\s-]/]: one character of the class. *)
Definition re_other : Pattern :=
  fun s => match s with
           | String c _ => if isOther c then Some 1 else None
           | EmptyString => None
           end.

(** [/[\s_-]+/]: a non-empty, maximal run of the class. *)
Definition re_separators : Pattern :=
  fun s => match runLength isSeparator s with O => None | n => Some n end.

(** [s.replace(/^-+|-+$/g, '')]: the scan of [replaceFrom] for a pattern
    that looks at the position.  At the start of the string a run of
    hyphens matches; elsewhere a run of hyphens matches when it reaches the
    end of the string. *)
Fixpoint stripFrom (atStart : bool) (skip : nat) (s : string) : string :=
  match s with
  | EmptyString => EmptyString
  | String c r =>
    match skip with
    | S k => stripFrom false k r
    | O =>
      let n := runLength isHyphen s in
      if Nat.ltb 0 n && (atStart || Nat.eqb n (String.length s))
      then stripFrom false (Nat.pred n) r
      else String c (stripFrom false 0 r)
    end
  end.

(** [slugify] (lines 53-60 of utils.ts). *)
Definition slugify (str : string) : string :=
  stripFrom true 0
    (replaceAll re_separators "-"
       (replaceAll re_other EmptyString
          (trim (Str.toLowerCase str)))).

(** ** Slugs *)

(** [a-z0-9] *)
Definition isLowerAlnum (c : ascii) : bool :=
  let n := Str.code c in
  ((48 <=? n) && (n <=? 57) || (97 <=? n) && (n <=? 122))%N.

(** Lower-case letters and digits, with single hyphens between them;
    [afterHyphen] says that the character before was a hyphen, or that the
    string starts here. *)
Fixpoint slugFrom (afterHyphen : bool) (s : string) : bool :=
  match s with
  | EmptyString => negb afterHyphen
  | String c r =>
    if isHyphen c then negb afterHyphen && slugFrom true r
    else isLowerAlnum c && slugFrom false r
  end.

Definition isSlug (s : string) : bool :=
  match s with EmptyString => true | _ => slugFrom true s end.

(** The same without the conditions at the two ends. *)
Fixpoint looseFrom (afterHyphen : bool) (s : string) : bool :=
  match s with
  | EmptyString => true
  | String c r =>
    if isHyphen c then negb afterHyphen && looseFrom true r
    else isLowerAlnum c && looseFrom false r
  end.

(** Every character of the string is in the class. *)
Fixpoint allIn (class : ascii -> bool) (s : string) : bool :=
  match s with
  | EmptyString => true
  | String c r => class c && allIn class r
  end.

Definition isUpper (c : ascii) : bool :=
  let n := Str.code c in ((65 <=? n) && (n <=? 90))%N.

(** What the stages of [slugify] compute. *)
Fixpoint withoutOthers (s : string) : string :=
  match s with
  | EmptyString => EmptyString
  | String c r => if isOther c then withoutOthers r else String c (withoutOthers r)
  end.

Fixpoint withoutTrailingHyphens (s : string) : string :=
  match s with
  | EmptyString => EmptyString
  | String c r =>
    if Nat.ltb 0 (runLength isHyphen s) && Nat.eqb (runLength isHyphen s) (String.length s)
    then EmptyString
    else String c (withoutTrailingHyphens r)
  end.

Definition joinSeparators (s : string) : string := replaceAll re_separators "-" s.

End Utils.

(** Case analysis on the [switch] of [parseArgs]. *)
Ltac switch_cases arg :=
  unfold Cli.switchArg;
  repeat match goal with
         | |- context [String.eqb arg ?s] =>
           let E := fresh "E" in destruct (String.eqb_spec arg s) as [E | E]; [try subst arg |]
         end;
  cbn [orb].

(* ================================================================== *)
(** * Properties *)
(* ================================================================== *)

(** ** Concrete runs *)

Example normalizeHtml_ex1 :
  normalizeHtml "  <div  class='a'>
     <span> Hello   world </span>   </div> " = "<div class='a'><span> Hello world </span></div>".
Proof. reflexivity. Qed.

Example replace_examples :
  collapseSpaces "a  b
   c" = "a b c"
  /\ closeGaps "<a> <b>x <c> </d>" = "<a><b>x <c></d>"
  /\ trim "  a b  " = "a b".
Proof. repeat split. Qed.

Example serialize_end_to_end :
  serializeElementWithShadow
    (RootElement
       (mkElement (Some "elem") "ELEM"
          (Some [mkAttr "class" None None "a b"])
          (Some (mkShadowRoot false
             [ElementNode (mkElement (Some "button") "BUTTON" (Some []) None
                [ElementNode (mkElement (Some "slot") "SLOT" (Some []) None [] None)] None)]))
          [TextNode "Click me"] None)) true true
  = "<elem class=" ++ Str.dquote ++ "a b" ++ Str.dquote ++
    "><mock:shadow-root><button><slot></slot></button></mock:shadow-root>Click me</elem>".
Proof. reflexivity. Qed.

(** ** Strings *)

Module StrFacts.

Lemma append_nil_r (s : string) : s ++ EmptyString = s.
Proof. induction s as [|c s IH]; simpl; [reflexivity | now rewrite IH]. Qed.

Lemma append_assoc (a b c : string) : (a ++ b) ++ c = a ++ b ++ c.
Proof. induction a as [|x a IH]; simpl; [reflexivity | now rewrite IH]. Qed.

Lemma concat_nil_cons (x : string) (l : list string) :
  String.concat EmptyString (x :: l) = x ++ String.concat EmptyString l.
Proof. destruct l; simpl; [now rewrite append_nil_r | reflexivity]. Qed.

Lemma concat_nil_app (l1 l2 : list string) :
  String.concat EmptyString (l1 ++ l2)%list
  = String.concat EmptyString l1 ++ String.concat EmptyString l2.
Proof.
  induction l1 as [|x l1 IH]; [reflexivity |].
  rewrite <- app_comm_cons, !concat_nil_cons, IH. now rewrite append_assoc.
Qed.

Lemma concat_flat_map {A} (f : A -> list string) (l : list A) :
  String.concat EmptyString (flat_map f l)
  = String.concat EmptyString (map (fun x => String.concat EmptyString (f x)) l).
Proof.
  induction l as [|x l IH]; [reflexivity |].
  cbn [flat_map map]. now rewrite concat_nil_app, concat_nil_cons, IH.
Qed.

End StrFacts.

(** ** Structure of the serializer *)

(** Induction over a tree: the property may be assumed for the elements of
    the public child list, of the polyfill child list and of the shadow
    tree. *)
Lemma Element_tree_ind (P : Element -> Prop)
  (step : forall e,
      Forall (onElements P) (childNodes e) ->
      Forall (onElements P) (polyfillNodes e) ->
      Forall (onElements P) (shadowNodes e) ->
      P e) :
  forall e, P e.
Proof.
  fix IH 1.
  intros [ln tn attrs sh cn pcn].
  apply step; unfold polyfillNodes, shadowNodes; simpl.
  - revert cn. fix IHl 1. intros [|n l]; constructor; [destruct n; simpl; auto | apply IHl].
  - destruct pcn as [l0|]; [|constructor].
    revert l0. fix IHl 1. intros [|n l]; constructor; [destruct n; simpl; auto | apply IHl].
  - destruct sh as [[df l0]|]; [|constructor]. simpl.
    revert l0. fix IHl 1. intros [|n l]; constructor; [destruct n; simpl; auto | apply IHl].
Qed.

Lemma serialize_loop_eq (xs ss : bool) (l : list Node) :
  (fix loop (children : list Node) : string :=
     match children with
     | [] => EmptyString
     | child :: rest =>
       match child with
       | ElementNode childElem => serializeElement childElem xs ss
       | TextNode text => text
       | CommentNode text =>
         if Str.truthy text then "<!--" ++ text ++ "-->" else EmptyString
       | OtherNode _ => EmptyString
       end ++ loop rest
     end) l
  = String.concat EmptyString (map (serializeChild xs ss) l).
Proof.
  induction l as [|n l IH]; [reflexivity |].
  cbn [map]. rewrite StrFacts.concat_nil_cons, <- IH. now destruct n.
Qed.

Lemma serialize_shadow_loop_eq (xs ss : bool) (l : list Node) :
  (fix loop (shadowChildren : list Node) : string :=
     match shadowChildren with
     | [] => EmptyString
     | child :: rest =>
       match child with
       | ElementNode childElem =>
         if xs && String.eqb (Str.toLowerCase (tagName childElem)) "style"
         then EmptyString
         else serializeElement childElem xs ss
       | TextNode text => text
       | CommentNode text =>
         if Str.truthy text then "<!--" ++ text ++ "-->" else EmptyString
       | OtherNode _ => EmptyString
       end ++ loop rest
     end) l
  = String.concat EmptyString (map (serializeShadowChild xs ss) l).
Proof.
  induction l as [|n l IH]; [reflexivity |].
  cbn [map]. rewrite StrFacts.concat_nil_cons, <- IH. now destruct n.
Qed.

(** The output of [serializeElement], piece by piece. *)
Lemma serializeElement_eq (e : Element) (xs ss : bool) :
  serializeElement e xs ss
  = "<" ++ elementTagName e ++ attrsHtml e ++ ">"
    ++ shadowHtml e xs ss ++ lightHtml e xs ss ++ closingTag e.
Proof.
  destruct e as [ln tn attrs sh cn pcn].
  unfold attrsHtml, shadowHtml, lightHtml, closingTag, lightNodes, shadowRootTag.
  cbn [serializeElement localName tagName attributes shadowRoot childNodes __childNodes].
  rewrite serialize_loop_eq.
  set (tag := elementTagName _).
  set (light := String.concat _ (map (serializeChild xs ss) _)).
  destruct (VOID_ELEMENTS_has tag); cbn [negb];
    destruct attrs as [l|]; destruct sh as [s|]; try destruct ss;
    try rewrite serialize_shadow_loop_eq;
    try destruct (delegatesFocus s);
    repeat rewrite StrFacts.append_assoc;
    repeat rewrite StrFacts.append_nil_r; reflexivity.
Qed.

Lemma emit_loop_eq (xs ss : bool) (l : list Node) :
  (fix loop (children : list Node) : list Token :=
     match children with
     | [] => []
     | child :: rest =>
       (match child with
        | ElementNode childElem => emitElement childElem xs ss
        | TextNode text => emitText text
        | CommentNode text => emitComment text
        | OtherNode _ => []
        end ++ loop rest)%list
     end) l
  = flat_map (emitChild xs ss) l.
Proof.
  induction l as [|n l IH]; [reflexivity |].
  cbn [flat_map]. rewrite <- IH. now destruct n.
Qed.

Lemma emit_shadow_loop_eq (xs ss : bool) (l : list Node) :
  (fix loop (shadowChildren : list Node) : list Token :=
     match shadowChildren with
     | [] => []
     | child :: rest =>
       (match child with
        | ElementNode childElem =>
          if xs && String.eqb (Str.toLowerCase (tagName childElem)) "style"
          then []
          else emitElement childElem xs ss
        | TextNode text => emitText text
        | CommentNode text => emitComment text
        | OtherNode _ => []
        end ++ loop rest)%list
     end) l
  = flat_map (emitShadowChild xs ss) l.
Proof.
  induction l as [|n l IH]; [reflexivity |].
  cbn [flat_map]. rewrite <- IH. now destruct n.
Qed.

(** The trace of [emitElement], piece by piece. *)
Lemma emitElement_eq (e : Element) (xs ss : bool) :
  emitElement e xs ss
  = (TOpen (elementTagName e) :: attrTokens e ++ [TOpenEnd]
     ++ shadowTokens e xs ss
     ++ flat_map (emitChild xs ss) (lightNodes e ss)
     ++ closingTokens e)%list.
Proof.
  destruct e as [ln tn attrs sh cn pcn].
  unfold attrTokens, shadowTokens, closingTokens, lightNodes.
  cbn [emitElement localName tagName attributes shadowRoot childNodes __childNodes].
  rewrite emit_loop_eq.
  set (tag := elementTagName _).
  set (light := flat_map (emitChild xs ss) _).
  destruct (VOID_ELEMENTS_has tag); cbn [negb];
    destruct attrs as [l|]; destruct sh as [s|]; try destruct ss;
    try rewrite emit_shadow_loop_eq;
    cbn [app]; repeat rewrite <- app_assoc; cbn [app];
    repeat rewrite app_nil_r; reflexivity.
Qed.

Lemma renderTokens_app (l1 l2 : list Token) :
  renderTokens (l1 ++ l2) = renderTokens l1 ++ renderTokens l2.
Proof. unfold renderTokens. now rewrite map_app, StrFacts.concat_nil_app. Qed.

Lemma renderTokens_cons (t : Token) (l : list Token) :
  renderTokens (t :: l) = renderToken t ++ renderTokens l.
Proof. unfold renderTokens. cbn [map]. apply StrFacts.concat_nil_cons. Qed.

Lemma renderTokens_attrs (l : list Attr) :
  renderTokens (map TAttr l) = String.concat EmptyString (map serializeAttr l).
Proof. unfold renderTokens. now rewrite map_map. Qed.

Lemma renderTokens_text (t : string) : renderTokens (emitText t) = t.
Proof. destruct t; reflexivity. Qed.

Lemma renderTokens_comment (t : string) :
  renderTokens (emitComment t)
  = if Str.truthy t then "<!--" ++ t ++ "-->" else EmptyString.
Proof. destruct t; reflexivity. Qed.

Lemma renderTokens_flat_map {A} (f : A -> list Token) (g : A -> string) (l : list A) :
  Forall (fun x => renderTokens (f x) = g x) l ->
  renderTokens (flat_map f l) = String.concat EmptyString (map g l).
Proof.
  induction 1 as [|x l Hx _ IH]; [reflexivity |].
  cbn [flat_map map]. now rewrite renderTokens_app, StrFacts.concat_nil_cons, Hx, IH.
Qed.

(** The trace renders to the serializer's output. *)
Lemma serializeElement_trace (xs ss : bool) (e : Element) :
  renderTokens (emitElement e xs ss) = serializeElement e xs ss.
Proof.
  induction e as [e Hc Hp Hs] using Element_tree_ind.
  assert (child : forall l, Forall (onElements (fun e =>
              renderTokens (emitElement e xs ss) = serializeElement e xs ss)) l ->
            Forall (fun n => renderTokens (emitChild xs ss n) = serializeChild xs ss n) l).
  { intros l. apply Forall_impl. intros [c| t | t |k] H; simpl in *;
      auto using renderTokens_text, renderTokens_comment. }
  assert (Hattr : renderTokens (attrTokens e) = attrsHtml e).
  { unfold attrTokens, attrsHtml.
    destruct (attributes e); [apply renderTokens_attrs | reflexivity]. }
  assert (Hshadow : renderTokens (shadowTokens e xs ss) = shadowHtml e xs ss).
  { unfold shadowTokens, shadowHtml, shadowNodes in *.
    destruct (shadowRoot e) as [s|]; [|reflexivity]. destruct ss; [|reflexivity].
    rewrite renderTokens_cons, renderTokens_app.
    replace (renderToken (TShadowOpen (delegatesFocus s))) with (shadowRootTag s)
      by (unfold shadowRootTag; now destruct (delegatesFocus s)).
    f_equal. f_equal. apply renderTokens_flat_map.
    apply child in Hs. revert Hs. apply Forall_impl.
    intros [c| t | t |k] H; simpl in *; auto.
    now destruct (xs && _). }
  assert (Hlight : renderTokens (flat_map (emitChild xs ss) (lightNodes e ss))
                   = lightHtml e xs ss).
  { unfold lightHtml. apply renderTokens_flat_map. apply child.
    unfold lightNodes, polyfillNodes in *.
    destruct (__childNodes e); [destruct ss|]; assumption. }
  assert (Hclose : renderTokens (closingTokens e) = closingTag e).
  { unfold closingTokens, closingTag. now destruct (VOID_ELEMENTS_has _). }
  rewrite emitElement_eq, serializeElement_eq.
  rewrite renderTokens_cons, !renderTokens_app, Hattr, Hshadow, Hlight, Hclose.
  cbn [renderToken]. now rewrite StrFacts.append_assoc.
Qed.

Lemma In_flat_map_onElements {P : Element -> Prop} (f : Node -> list Token)
      (t : Token) (l : list Node) :
  Forall (onElements P) l ->
  (forall n, onElements P n -> ~ In t (f n)) ->
  ~ In t (flat_map f l).
Proof.
  intros Hl Hf Hin. apply in_flat_map in Hin as (n & Hn & Ht).
  rewrite Forall_forall in Hl. exact (Hf n (Hl n Hn) Ht).
Qed.

(* ================================================================== *)
(** * C1 - slot-polyfill override *)
(* ================================================================== *)

(** With [serializeShadowRoot: false] the public child list is what gets
    serialized, and the override list is left out. *)
Lemma C1_public_list_serialized_without_shadow :
  let e := mkElement (Some "my-list") "MY-LIST" (Some []) None
             [TextNode "public"] (Some [TextNode "hidden"]) in
  exists out,
    serializeHtml (fun s => Return s) (InputNode (RootElement e))
      (mkSerializeOptions (Some false) (Some false) None) = Return out
    /\ out = "<my-list>public</my-list>"
    /\ Str.includes "public" out = true
    /\ Str.includes "hidden" out = false.
Proof. eexists. repeat split. Qed.

(** C1 (amended).  An element with a public child list [cn] and an override
    list [hidden] is serialized, under every option set and whatever
    [prettifyHtml] does, exactly like the element without override whose
    child list is [hidden] when [serializeShadowRoot] is true or unset, and
    [cn] when it is false. *)
Theorem C1_override_precedence :
  forall (prettifyHtml : string -> Completion string) ln tn attrs sh cn hidden
         (options : SerializeOptions),
    serializeHtml prettifyHtml
      (InputNode (RootElement (mkElement ln tn attrs sh cn (Some hidden)))) options
    = serializeHtml prettifyHtml
        (InputNode (RootElement
           (mkElement ln tn attrs sh
              (if orTrue (opt_serializeShadowRoot options) then hidden else cn) None)))
        options.
Proof.
  intros pf ln tn attrs sh cn hidden [sso pretty xs].
  unfold serializeHtml, serializeElementWithShadow.
  cbn [opt_serializeShadowRoot opt_pretty opt_excludeStyles].
  rewrite !serializeElement_eq.
  unfold lightHtml, lightNodes, closingTag, shadowHtml, attrsHtml, elementTagName.
  cbn [localName tagName attributes shadowRoot childNodes __childNodes].
  now destruct (orTrue sso).
Qed.

(* ================================================================== *)
(** * C4 - no shadow-root sentinel without [serializeShadowRoot] *)
(* ================================================================== *)

(** ** Occurrences of a pattern that starts with [<] *)

Module Occ.

Lemma hasChar_app (c : ascii) (a b : string) :
  Str.hasChar c (a ++ b) = Str.hasChar c a || Str.hasChar c b.
Proof.
  induction a as [|x a IH]; [reflexivity |].
  cbn [append Str.hasChar]. rewrite IH. now rewrite orb_assoc.
Qed.

Lemma hasChar_concat (c : ascii) (l : list string) :
  forallb (fun s => negb (Str.hasChar c s)) l = true ->
  Str.hasChar c (String.concat EmptyString l) = false.
Proof.
  induction l as [|x l IH]; [reflexivity |].
  cbn [forallb]. rewrite andb_true_iff, negb_true_iff. intros [Hx Hl].
  rewrite StrFacts.concat_nil_cons, hasChar_app, Hx. now apply IH.
Qed.

(** A string without [<] holds no occurrence of the pattern. *)
Lemma includes_noLt (q s : string) :
  Str.hasChar "<" s = false -> Str.includes (String "<" q) s = false.
Proof.
  induction s as [|c s IH]; [reflexivity |].
  cbn [Str.hasChar Str.includes Str.startsWith].
  rewrite orb_false_iff. intros [Hc Hs].
  rewrite (IH Hs), orb_false_r.
  rewrite Ascii.eqb_sym, Hc. reflexivity.
Qed.

Lemma dangling_noLt (s : string) :
  Str.hasChar "<" s = false -> dangling s = false.
Proof.
  induction s as [|c s IH]; [reflexivity |].
  cbn [Str.hasChar dangling].
  rewrite orb_false_iff. intros [Hc Hs]. now rewrite Hc, (IH Hs).
Qed.

Lemma dangling_app (a b : string) :
  dangling a = false -> dangling b = false -> dangling (a ++ b) = false.
Proof.
  intros Ha Hb. induction a as [|c a IH]; [assumption |].
  cbn [append dangling] in *.
  apply orb_false_iff in Ha as [Hc Ha]. rewrite (IH Ha), orb_false_r.
  destruct (Ascii.eqb c "<"); [|reflexivity]. cbn [andb] in *.
  apply negb_false_iff in Hc. now rewrite hasChar_app, Hc.
Qed.

(** If the pattern matches at the head of [a ++ b], either it matches at
    the head of [a] or [a] is a prefix of the pattern. *)
Lemma startsWith_app_inv (p a b : string) :
  Str.startsWith p (a ++ b) = true ->
  Str.startsWith p a = true \/ Str.startsWith a p = true.
Proof.
  revert a. induction p as [|x p IH]; intros a H; [now left |].
  destruct a as [|y a]; [now right |].
  cbn [append Str.startsWith] in *. apply andb_true_iff in H as [Hxy H].
  rewrite Hxy, Ascii.eqb_sym, Hxy. cbn [andb]. now apply IH.
Qed.

Lemma prefix_hasChar (c : ascii) (a p : string) :
  Str.startsWith a p = true -> Str.hasChar c p = false -> Str.hasChar c a = false.
Proof.
  revert p. induction a as [|x a IH]; intros p H Hc; [reflexivity |].
  destruct p as [|y p]; [discriminate |].
  cbn [Str.startsWith Str.hasChar] in *. apply andb_true_iff in H as [Hxy H].
  apply Ascii.eqb_eq in Hxy as ->.
  apply orb_false_iff in Hc as [Hy Hc]. rewrite Hy. cbn [orb]. now apply (IH p).
Qed.

(** If [q] matches at the head of [t ++ rest] but not of [t], the first
    character of [rest] is one of [q]. *)
Lemma startsWith_past (q t rest : string) :
  Str.startsWith q (t ++ rest) = true ->
  Str.startsWith q t = true
  \/ exists c r, rest = String c r /\ Str.hasChar c q = true.
Proof.
  revert t. induction q as [|x q IH]; intros t H; [now left |].
  destruct t as [|y t].
  - right. cbn [append] in H. destruct rest as [|c r]; [discriminate |].
    cbn [Str.startsWith] in H. apply andb_true_iff in H as [Hxc _].
    exists c, r. split; [reflexivity |]. cbn [Str.hasChar]. now rewrite Hxc.
  - cbn [append Str.startsWith] in *.
    apply andb_true_iff in H as [Hxy H]. rewrite Hxy. cbn [andb].
    destruct (IH _ H) as [Hl | (c & r & -> & Hc)]; [now left | right].
    exists c, r. split; [reflexivity |].
    cbn [Str.hasChar]. now rewrite Hc, orb_true_r.
Qed.

Lemma includes_startsWith (p s : string) :
  Str.startsWith p s = true -> Str.includes p s = true.
Proof. destruct s; cbn [Str.includes]; intros ->; reflexivity. Qed.

(** [p] occurs in [s] once it occurs with something more in front. *)
Lemma includes_tail (c : ascii) (p s : string) :
  Str.includes (String c p) s = true -> Str.includes p s = true.
Proof.
  induction s as [|x s IH]; [discriminate |].
  cbn [Str.includes Str.startsWith].
  intros H. apply orb_true_iff in H as [H | H].
  - apply andb_true_iff in H as [_ H].
    apply includes_startsWith in H. rewrite H. now rewrite orb_true_r.
  - rewrite (IH H). now rewrite orb_true_r.
Qed.

Section Pattern.
(** A pattern [<q] in which [>] does not occur. *)
Variable q : string.
Hypothesis q_no_gt : Str.hasChar ">" q = false.

Lemma safe_nil : safe (String "<" q) EmptyString.
Proof. split; reflexivity. Qed.

Lemma safe_noLt (s : string) : noLt s = true -> safe (String "<" q) s.
Proof.
  unfold noLt. rewrite negb_true_iff. intros H.
  split; [now apply includes_noLt | now apply dangling_noLt].
Qed.

Lemma safe_app (a b : string) :
  safe (String "<" q) a -> safe (String "<" q) b -> safe (String "<" q) (a ++ b).
Proof.
  intros [Ia Da] [Ib Db]. split; [|now apply dangling_app].
  induction a as [|c a IH]; [exact Ib |].
  cbn [append]. cbn [Str.includes] in Ia. cbn [dangling] in Da.
  apply orb_false_iff in Ia as [Sa Ia].
  apply orb_false_iff in Da as [Dc Da].
  cbn [Str.includes]. rewrite (IH Ia Da), orb_false_r.
  destruct (Str.startsWith (String "<" q) (String c (a ++ b))) eqn:E; [|reflexivity].
  change (String c (a ++ b)) with (String c a ++ b) in E.
  apply startsWith_app_inv in E as [E | E]; [congruence |].
  exfalso. cbn [Str.startsWith] in E.
  apply andb_true_iff in E as [Ec E]. rewrite Ec in Dc. cbn [andb] in Dc.
  apply negb_false_iff in Dc.
  rewrite (prefix_hasChar ">" a q E q_no_gt) in Dc. discriminate.
Qed.

Lemma safe_concat (l : list string) :
  Forall (safe (String "<" q)) l -> safe (String "<" q) (String.concat EmptyString l).
Proof.
  induction 1 as [|x l Hx _ IH]; [apply safe_nil |].
  rewrite StrFacts.concat_nil_cons. now apply safe_app.
Qed.

(** A whole tag: [<], then a body without [<] that has a [>]. *)
Lemma safe_tag (body : string) :
  noLt body = true ->
  Str.hasChar ">" body = true ->
  Str.startsWith q body = false ->
  safe (String "<" q) (String "<" body).
Proof.
  unfold noLt. rewrite negb_true_iff. intros Hlt Hgt Hq. split.
  - cbn [Str.includes]. rewrite (includes_noLt q body Hlt), orb_false_r.
    cbn [Str.startsWith]. now rewrite Hq, andb_false_r.
  - cbn [dangling]. rewrite (dangling_noLt body Hlt), Hgt. reflexivity.
Qed.

End Pattern.

End Occ.

(** ** The serializer with [serializeShadowRoot = false] *)

Lemma noLt_app (a b : string) : noLt (a ++ b) = noLt a && noLt b.
Proof. unfold noLt. now rewrite Occ.hasChar_app, negb_orb. Qed.

Lemma lightMarkupFree_eq (e : Element) :
  lightMarkupFree e
  = tagOk (elementTagName e) && attrsOk (attributes e)
    && forallb lightMarkupFreeNode (childNodes e).
Proof.
  destruct e as [ln tn attrs sh cn pcn].
  cbn [lightMarkupFree attributes childNodes]. reflexivity.
Qed.

Lemma shadowHtml_off (e : Element) (xs : bool) : shadowHtml e xs false = EmptyString.
Proof. unfold shadowHtml. now destruct (shadowRoot e). Qed.

Lemma lightNodes_off (e : Element) : lightNodes e false = childNodes e.
Proof. unfold lightNodes. now destruct (__childNodes e). Qed.

Lemma serializeAttr_noLt (a : Attr) : attrOk a = true -> noLt (serializeAttr a) = true.
Proof.
  unfold attrOk, serializeAttr. rewrite andb_true_iff. intros [Hn Hv].
  destruct (String.eqb (attr_value a) EmptyString);
    rewrite ?noLt_app, ?Hn, ?Hv; reflexivity.
Qed.

Lemma attrsHtml_noLt (e : Element) :
  attrsOk (attributes e) = true -> noLt (attrsHtml e) = true.
Proof.
  unfold attrsOk, attrsHtml. destruct (attributes e) as [l|]; [|reflexivity].
  intros H. unfold noLt. rewrite negb_true_iff. apply Occ.hasChar_concat.
  rewrite forallb_forall in *. intros s Hs.
  apply in_map_iff in Hs as (a & <- & Ha). apply serializeAttr_noLt, H, Ha.
Qed.

(** What follows the tag name in an opening tag starts with a space or
    with [>]. *)
Lemma after_tag_name (e : Element) :
  exists c r, attrsHtml e ++ ">" = String c r /\ (c = " "%char \/ c = ">"%char).
Proof.
  unfold attrsHtml. destruct (attributes e) as [[|a l]|].
  - exists ">"%char, EmptyString. auto.
  - cbn [map]. rewrite StrFacts.concat_nil_cons.
    unfold serializeAttr.
    destruct (String.eqb (attr_value a) EmptyString); cbn [append]; eauto.
  - exists ">"%char, EmptyString. auto.
Qed.

Section Sentinel.
(** [<q] is a sentinel prefix: [q] is [mock:shadow-root] or
    [/mock:shadow-root]. *)
Variable q : string.
Hypothesis q_no_gt : Str.hasChar ">" q = false.
Hypothesis q_no_space : Str.hasChar " " q = false.
Hypothesis q_not_comment : forall r, Str.startsWith q (String "!" r) = false.
Hypothesis q_not_tag :
  forall tag, Str.includes "mock:shadow-root" tag = false -> Str.startsWith q tag = false.
Hypothesis q_not_closing :
  forall tag rest, Str.includes "mock:shadow-root" tag = false ->
                   Str.startsWith q (String "/" (tag ++ ">" ++ rest)) = false.

Lemma safe_opening_tag (e : Element) :
  tagOk (elementTagName e) = true ->
  attrsOk (attributes e) = true ->
  safe (String "<" q) ("<" ++ elementTagName e ++ attrsHtml e ++ ">").
Proof.
  unfold tagOk. rewrite andb_true_iff, negb_true_iff. intros [Hlt Hname] Hattrs.
  cbn [append]. apply Occ.safe_tag.
  - rewrite !noLt_app, Hlt, (attrsHtml_noLt e Hattrs). reflexivity.
  - rewrite !Occ.hasChar_app. cbn. now rewrite !orb_true_r.
  - destruct (Str.startsWith q _) eqn:E; [|reflexivity].
    apply Occ.startsWith_past in E as [E | (c & r & Hr & Hc)].
    + now rewrite (q_not_tag _ Hname) in E.
    + destruct (after_tag_name e) as (c' & r' & Hr' & Hc').
      rewrite Hr' in Hr. injection Hr as <- _.
      destruct Hc' as [-> | ->]; congruence.
Qed.

Lemma safe_closing_tag (e : Element) :
  tagOk (elementTagName e) = true ->
  safe (String "<" q) (closingTag e).
Proof.
  unfold tagOk, closingTag. rewrite andb_true_iff, negb_true_iff. intros [Hlt Hname].
  destruct (VOID_ELEMENTS_has _); [now apply Occ.safe_nil |].
  cbn [append]. apply Occ.safe_tag.
  - change (String "/" (elementTagName e ++ ">")) with ("/" ++ elementTagName e ++ ">").
    rewrite !noLt_app, Hlt. reflexivity.
  - cbn [Str.hasChar]. rewrite Occ.hasChar_app. cbn. now rewrite !orb_true_r.
  - rewrite <- (StrFacts.append_nil_r ">"). now apply q_not_closing.
Qed.

Lemma safe_comment (t : string) :
  noLt t = true -> safe (String "<" q) ("<!--" ++ t ++ "-->").
Proof.
  intros Ht. cbn [append]. apply Occ.safe_tag.
  - change (String "!" (String "-" (String "-" (t ++ "-->")))) with ("!--" ++ t ++ "-->").
    rewrite !noLt_app, Ht. reflexivity.
  - cbn [Str.hasChar]. rewrite Occ.hasChar_app. cbn. now rewrite !orb_true_r.
  - apply q_not_comment.
Qed.

(** A markup-free light tree serializes to a string that holds no
    occurrence of [<q]. *)
Lemma safe_serializeElement (xs : bool) (e : Element) :
  lightMarkupFree e = true -> safe (String "<" q) (serializeElement e xs false).
Proof.
  induction e as [e Hc _ _] using Element_tree_ind.
  rewrite lightMarkupFree_eq, !andb_true_iff. intros [[Htag Hattrs] Hchildren].
  rewrite serializeElement_eq, shadowHtml_off.
  replace ("<" ++ elementTagName e ++ attrsHtml e ++ ">" ++ EmptyString
           ++ lightHtml e xs false ++ closingTag e)
    with (("<" ++ elementTagName e ++ attrsHtml e ++ ">")
          ++ lightHtml e xs false ++ closingTag e)
    by now rewrite !StrFacts.append_assoc.
  apply Occ.safe_app; [assumption | now apply safe_opening_tag |].
  apply Occ.safe_app; [assumption | | now apply safe_closing_tag].
  unfold lightHtml. rewrite lightNodes_off.
  apply Occ.safe_concat; [assumption |].
  rewrite Forall_map. rewrite forallb_forall in Hchildren.
  rewrite Forall_forall in *. intros n Hn.
  specialize (Hc n Hn). specialize (Hchildren n Hn).
  destruct n as [c|t|t|k]; cbn in *.
  - now apply Hc.
  - now apply Occ.safe_noLt.
  - destruct (Str.truthy t); [now apply safe_comment | now apply Occ.safe_nil].
  - now apply Occ.safe_nil.
Qed.

Lemma safe_serializeElementWithShadow (xs : bool) (r : Root) :
  lightMarkupFreeRoot r = true ->
  safe (String "<" q) (serializeElementWithShadow r xs false).
Proof.
  destruct r as [e|l]; cbn [lightMarkupFreeRoot serializeElementWithShadow].
  - apply safe_serializeElement.
  - intros H. apply Occ.safe_concat; [assumption |].
    rewrite Forall_map, Forall_forall. rewrite forallb_forall in H.
    intros n Hn. specialize (H n Hn).
    destruct n as [c|t|t|k]; cbn in *.
    + now apply safe_serializeElement.
    + now apply Occ.safe_noLt.
    + destruct (Str.truthy t); [now apply safe_comment | now apply Occ.safe_nil].
    + now apply Occ.safe_nil.
Qed.

End Sentinel.

Lemma startsWith_prefix (p x s : string) :
  Str.startsWith (p ++ x) s = true -> Str.startsWith p s = true.
Proof.
  revert s. induction p as [|c p IH]; intros s H; [reflexivity |].
  destruct s as [|d s]; [discriminate |].
  cbn [append Str.startsWith] in *. apply andb_true_iff in H as [-> H].
  now apply IH.
Qed.

Lemma includes_prefix (p x s : string) :
  Str.includes p s = false -> Str.includes (p ++ x) s = false.
Proof.
  induction s as [|c s IH]; cbn [Str.includes]; intros H.
  - rewrite orb_false_r in *.
    destruct (Str.startsWith (p ++ x) _) eqn:E; [|reflexivity].
    apply startsWith_prefix in E. congruence.
  - apply orb_false_iff in H as [H1 H2]. rewrite (IH H2), orb_false_r.
    destruct (Str.startsWith (p ++ x) _) eqn:E; [|reflexivity].
    apply startsWith_prefix in E. congruence.
Qed.

Lemma no_opening_sentinel (xs : bool) (r : Root) :
  lightMarkupFreeRoot r = true ->
  Str.includes "<mock:shadow-root" (serializeElementWithShadow r xs false) = false.
Proof.
  intros H.
  refine (proj1 (safe_serializeElementWithShadow "mock:shadow-root" _ _ _ _ _ xs r H));
    try reflexivity.
  - intros tag Ht. destruct (Str.startsWith _ tag) eqn:E; [|reflexivity].
    apply Occ.includes_startsWith in E. congruence.
Qed.

Lemma no_closing_sentinel (xs : bool) (r : Root) :
  lightMarkupFreeRoot r = true ->
  Str.includes "</mock:shadow-root" (serializeElementWithShadow r xs false) = false.
Proof.
  intros H.
  refine (proj1 (safe_serializeElementWithShadow "/mock:shadow-root" _ _ _ _ _ xs r H));
    try reflexivity.
  - intros tag Ht. destruct (Str.startsWith _ tag) eqn:E; [|reflexivity].
    apply Occ.includes_startsWith, Occ.includes_tail in E. congruence.
  - intros tag rest Ht.
    change (Str.startsWith "mock:shadow-root" (tag ++ ">" ++ rest) = false).
    destruct (Str.startsWith _ (tag ++ ">" ++ rest)) eqn:E; [|reflexivity].
    apply Occ.startsWith_past in E as [E | (c & r' & Hr & Hc)].
    + apply Occ.includes_startsWith in E. congruence.
    + injection Hr as <- _. discriminate.
Qed.

(** A text node may spell the sentinel: it is copied to the output as it
    is, also with [serializeShadowRoot: false]. *)
Lemma C4_text_spelling_the_sentinel :
  let host := mkElement (Some "code-sample") "CODE-SAMPLE" (Some [])
                (Some (mkShadowRoot false
                   [ElementNode (mkElement (Some "pre") "PRE" (Some []) None
                      [ElementNode (mkElement (Some "slot") "SLOT" (Some []) None [] None)]
                      None)]))
                [TextNode "<mock:shadow-root>"] None in
  exists out,
    serializeHtml (fun s => Return s) (InputNode (RootElement host))
      (mkSerializeOptions (Some false) (Some false) None) = Return out
    /\ out = "<code-sample><mock:shadow-root></code-sample>"
    /\ Str.includes "<mock:shadow-root>" out = true.
Proof. eexists. repeat split. Qed.

(** Whatever the tree, the serializer itself writes no sentinel when
    [serializeShadowRoot] is false. *)
Lemma shadow_sentinel_never_written (xs : bool) (e : Element) (t : Token) :
  (exists b, t = TShadowOpen b) \/ t = TShadowClose ->
  ~ In t (emitElement e xs false).
Proof.
  intros Ht.
  induction e as [e Hc _ _] using Element_tree_ind.
  rewrite emitElement_eq. intros [<- | Hin]; [not_a_sentinel Ht |].
  repeat (apply in_app_or in Hin as [Hin | Hin]).
  - unfold attrTokens in Hin. destruct (attributes e); [|contradiction].
    apply in_map_iff in Hin as (a & <- & _). not_a_sentinel Ht.
  - destruct Hin as [<- | []]. not_a_sentinel Ht.
  - unfold shadowTokens in Hin. now destruct (shadowRoot e).
  - rewrite lightNodes_off in Hin. revert Hin.
    apply (In_flat_map_onElements _ _ _ Hc).
    intros [c|s|s|k] H; cbn; auto.
    + unfold emitText. destruct (Str.truthy s); [|tauto].
      intros [<- | []]. not_a_sentinel Ht.
    + unfold emitComment. destruct (Str.truthy s); [|tauto].
      intros [<- | []]. not_a_sentinel Ht.
  - revert Hin. unfold closingTokens.
    destruct (VOID_ELEMENTS_has _); [tauto |].
    intros [<- | []]. not_a_sentinel Ht.
Qed.

(* ================================================================== *)
(** * C5 - void elements *)
(* ================================================================== *)

(** Nowhere in a tree does the serializer write the closing tag of a void
    tag name. *)
Lemma void_never_closed (xs ss : bool) (t : string) :
  VOID_ELEMENTS_has t = true ->
  forall e, ~ In (TClose t) (emitElement e xs ss).
Proof.
  intros Hvoid e.
  induction e as [e Hc Hp Hs] using Element_tree_ind.
  assert (child : forall n,
             onElements (fun e => ~ In (TClose t) (emitElement e xs ss)) n ->
             ~ In (TClose t) (emitChild xs ss n)).
  { intros [c|s|s|k] H; simpl in *; auto.
    - unfold emitText. destruct (Str.truthy s); simpl; intuition discriminate.
    - unfold emitComment. destruct (Str.truthy s); simpl; intuition discriminate. }
  rewrite emitElement_eq. intros [Hin | Hin]; [discriminate |].
  repeat (apply in_app_or in Hin as [Hin | Hin]).
  - unfold attrTokens in Hin. destruct (attributes e); [|contradiction].
    apply in_map_iff in Hin as (a & Ha & _). discriminate.
  - destruct Hin as [Hin | []]. discriminate.
  - unfold shadowTokens, shadowNodes in *.
    destruct (shadowRoot e) as [s|]; [|contradiction].
    destruct ss; [|contradiction].
    destruct Hin as [Hin | Hin]; [discriminate |].
    apply in_app_or in Hin as [Hin | [Hin | []]]; [|discriminate].
    revert Hin. apply (In_flat_map_onElements _ _ _ Hs).
    intros [c|s'|s'|k] H; try apply (child _ H).
    simpl. destruct (xs && _); [intros [] | exact H].
  - revert Hin. unfold lightNodes, polyfillNodes in *.
    destruct (__childNodes e); [destruct ss|];
      eapply In_flat_map_onElements; eauto.
  - revert Hin. unfold closingTokens.
    destruct (VOID_ELEMENTS_has (elementTagName e)) eqn:Hv; [intros Hin; exact Hin |].
    intros [Hin | []]. injection Hin as Heq. rewrite Heq in Hv. congruence.
Qed.

(** C5.  The output of an element is its opening tag, its shadow part and
    its child content, followed by [</tag>] exactly when the tag name
    (local name, else lower-cased tag name) is not a void element name.  In
    terms of what is written: for a void tag name no closing tag of that
    name is written anywhere below the element, whatever children it
    reports; for any other tag name the closing tag is the last thing
    written. *)
Theorem C5_void_elements :
  forall (e : Element) (xs ss : bool),
    let tag := elementTagName e in
    serializeElement e xs ss = renderTokens (emitElement e xs ss)
    /\ serializeElement e xs ss
       = "<" ++ tag ++ attrsHtml e ++ ">" ++ shadowHtml e xs ss ++ lightHtml e xs ss
         ++ (if VOID_ELEMENTS_has tag then EmptyString else "</" ++ tag ++ ">")
    /\ (if VOID_ELEMENTS_has tag
        then ~ In (TClose tag) (emitElement e xs ss)
        else exists before, emitElement e xs ss = (before ++ [TClose tag])%list).
Proof.
  intros e xs ss tag. split; [symmetry; apply serializeElement_trace |].
  split; [apply serializeElement_eq |].
  destruct (VOID_ELEMENTS_has tag) eqn:Hv.
  - now apply void_never_closed.
  - rewrite emitElement_eq. unfold closingTokens. fold tag. rewrite Hv.
    eexists (TOpen tag :: attrTokens e ++ [TOpenEnd] ++ shadowTokens e xs ss
             ++ flat_map (emitChild xs ss) (lightNodes e ss))%list.
    cbn [app]. f_equal. rewrite <- app_assoc. cbn [app]. do 2 f_equal.
    now rewrite <- !app_assoc.
Qed.

(* ================================================================== *)
(** * C6 - [normalizeHtml] is idempotent *)
(* ================================================================== *)

Module Norm.

(** ** Leading whitespace *)

Lemma spaces_trimStart (s : string) : spaces (trimStart s) = 0.
Proof.
  induction s as [|c s IH]; [reflexivity |].
  cbn [trimStart]. destruct (Str.isWhitespace c) eqn:E; [exact IH |].
  cbn [spaces]. now rewrite E.
Qed.

Lemma trimStart_id (s : string) : spaces s = 0 -> trimStart s = s.
Proof.
  destruct s as [|c s]; [reflexivity |].
  cbn [spaces trimStart]. now destruct (Str.isWhitespace c).
Qed.

Lemma length_trimStart (s : string) : String.length (trimStart s) <= String.length s.
Proof.
  induction s as [|c s IH]; [reflexivity |].
  cbn [trimStart]. destruct (Str.isWhitespace c); cbn [String.length]; lia.
Qed.

(** Skipping the leading whitespace and [k] more characters. *)
Lemma skip_spaces (re : Pattern) (rep : string) (r : string) (k : nat) :
  replaceFrom re rep (spaces r + k) r = replaceFrom re rep k (trimStart r).
Proof.
  induction r as [|c r IH].
  - now destruct k.
  - cbn [spaces trimStart]. destruct (Str.isWhitespace c); [|reflexivity].
    cbn [Nat.add replaceFrom]. exact IH.
Qed.

(** ** The equations of [/\s+/g -> ' '] *)

Lemma collapse_nil : collapseSpaces EmptyString = EmptyString.
Proof. reflexivity. Qed.

Lemma collapse_space (c : ascii) (r : string) :
  Str.isWhitespace c = true ->
  collapseSpaces (String c r) = String " " (collapseSpaces (trimStart r)).
Proof.
  intros H. unfold collapseSpaces, replaceAll. cbn [replaceFrom].
  unfold re_spaces. cbn [spaces]. rewrite H. cbn [Nat.pred append]. f_equal.
  rewrite <- (Nat.add_0_r (spaces r)) at 1. apply skip_spaces.
Qed.

Lemma collapse_char (c : ascii) (r : string) :
  Str.isWhitespace c = false ->
  collapseSpaces (String c r) = String c (collapseSpaces r).
Proof.
  intros H. unfold collapseSpaces, replaceAll. cbn [replaceFrom].
  unfold re_spaces. cbn [spaces]. now rewrite H.
Qed.

Lemma collapse_ind (P : string -> string -> Prop) :
  P EmptyString EmptyString ->
  (forall c r, Str.isWhitespace c = true ->
               P (trimStart r) (collapseSpaces (trimStart r)) ->
               P (String c r) (String " " (collapseSpaces (trimStart r)))) ->
  (forall c r, Str.isWhitespace c = false ->
               P r (collapseSpaces r) ->
               P (String c r) (String c (collapseSpaces r))) ->
  forall s, P s (collapseSpaces s).
Proof.
  intros Hnil Hspace Hchar s.
  remember (String.length s) as n eqn:Hn.
  assert (Hle : String.length s <= n) by lia. clear Hn.
  revert s Hle. induction n as [|n IH]; intros [|c r] Hle;
    try exact Hnil; cbn [String.length] in Hle; [lia |].
  destruct (Str.isWhitespace c) eqn:E.
  - rewrite (collapse_space c r E). apply Hspace; [exact E |].
    apply IH. pose proof (length_trimStart r). lia.
  - rewrite (collapse_char c r E). apply Hchar; [exact E |].
    apply IH. lia.
Qed.

(** ** The equations of [/>\s+</g -> '><'] *)

Lemma gap_cases (c : ascii) (r : string) :
  (exists n u, c = ">"%char /\ spaces r = S n /\ trimStart r = String "<" u)
  \/ re_gt_spaces_lt (String c r) = None.
Proof.
  unfold re_gt_spaces_lt.
  destruct (Ascii.eqb_spec c ">") as [-> | Hc]; [|now right].
  destruct (spaces r) as [|n] eqn:Hs; [now right |].
  destruct (trimStart r) as [|d u] eqn:Ht; [now right |].
  destruct (Ascii.eqb_spec d "<") as [-> | Hd]; [|now right].
  left. now exists n, u.
Qed.

Lemma gap_None_iff (c : ascii) (r : string) :
  re_gt_spaces_lt (String c r) = None
  <-> ~ (c = ">"%char /\ spaces r <> 0 /\ firstNonSpace r = Some "<"%char).
Proof.
  unfold re_gt_spaces_lt, firstNonSpace.
  destruct (Ascii.eqb_spec c ">") as [-> | Hc]; [|tauto].
  destruct (spaces r) as [|n] eqn:Hs; [tauto |].
  destruct (trimStart r) as [|d u] eqn:Ht.
  - split; [|reflexivity]. intros _ (_ & _ & H). discriminate.
  - destruct (Ascii.eqb_spec d "<") as [-> | Hd].
    + split; [discriminate |]. intros H. exfalso. apply H. repeat split. discriminate.
    + split; [|reflexivity]. intros _ (_ & _ & H). congruence.
Qed.

Lemma gaps_nil : closeGaps EmptyString = EmptyString.
Proof. reflexivity. Qed.

Lemma gaps_match (r : string) (n : nat) (u : string) :
  spaces r = S n -> trimStart r = String "<" u ->
  closeGaps (String ">" r) = String ">" (String "<" (closeGaps u)).
Proof.
  intros Hs Ht. unfold closeGaps, replaceAll. cbn [replaceFrom].
  unfold re_gt_spaces_lt. rewrite Hs, Ht.
  cbn [Ascii.eqb Bool.eqb Nat.pred append]. do 2 f_equal.
  replace (S (S n)) with (spaces r + 1) by lia.
  rewrite skip_spaces, Ht. reflexivity.
Qed.

Lemma gaps_nomatch (c : ascii) (r : string) :
  re_gt_spaces_lt (String c r) = None ->
  closeGaps (String c r) = String c (closeGaps r).
Proof.
  intros H. unfold closeGaps, replaceAll. cbn [replaceFrom]. now rewrite H.
Qed.

Lemma gaps_ind (P : string -> string -> Prop) :
  P EmptyString EmptyString ->
  (forall r n u, spaces r = S n -> trimStart r = String "<" u ->
                 P u (closeGaps u) ->
                 P (String ">" r) (String ">" (String "<" (closeGaps u)))) ->
  (forall c r, re_gt_spaces_lt (String c r) = None ->
               P r (closeGaps r) ->
               P (String c r) (String c (closeGaps r))) ->
  forall s, P s (closeGaps s).
Proof.
  intros Hnil Hmatch Hcopy s.
  remember (String.length s) as n eqn:Hn.
  assert (Hle : String.length s <= n) by lia. clear Hn.
  revert s Hle. induction n as [|n IH]; intros [|c r] Hle;
    try exact Hnil; cbn [String.length] in Hle; [lia |].
  destruct (gap_cases c r) as [(k & u & -> & Hs & Ht) | Hnone].
  - rewrite (gaps_match r k u Hs Ht). apply (Hmatch r k u Hs Ht).
    apply IH. pose proof (length_trimStart r) as Hl. rewrite Ht in Hl.
    cbn [String.length] in Hl. lia.
  - rewrite (gaps_nomatch c r Hnone). apply Hcopy; [exact Hnone |].
    apply IH. lia.
Qed.

(** ** The output of each stage *)

Lemma spaces_collapse (s : string) : spaces s = 0 -> spaces (collapseSpaces s) = 0.
Proof.
  destruct s as [|c r]; [reflexivity |]. cbn [spaces].
  destruct (Str.isWhitespace c) eqn:E; [discriminate |]. intros _.
  rewrite (collapse_char c r E). cbn [spaces]. now rewrite E.
Qed.

Lemma singleSpaced_collapse (s : string) : singleSpaced (collapseSpaces s) = true.
Proof.
  apply (collapse_ind (fun _ t => singleSpaced t = true)); [reflexivity | |].
  - intros c r _ IH. cbn [singleSpaced]. rewrite IH.
    rewrite (spaces_collapse _ (spaces_trimStart r)). reflexivity.
  - intros c r E IH. cbn [singleSpaced]. now rewrite E, IH.
Qed.

Lemma collapse_fixed (t : string) : singleSpaced t = true -> collapseSpaces t = t.
Proof.
  induction t as [|c r IH]; [reflexivity |].
  cbn [singleSpaced]. rewrite andb_true_iff. intros [Hc Hr].
  destruct (Str.isWhitespace c) eqn:E.
  - apply andb_true_iff in Hc as [Hsp H0].
    apply Ascii.eqb_eq in Hsp as ->. apply Nat.eqb_eq in H0.
    rewrite (collapse_space _ r E), (trimStart_id r H0), (IH Hr). reflexivity.
  - now rewrite (collapse_char c r E), (IH Hr).
Qed.

(** Closing the gaps leaves the front of a string as it is. *)
Lemma front_gaps (r : string) :
  spaces (closeGaps r) = spaces r /\ firstNonSpace (closeGaps r) = firstNonSpace r.
Proof.
  induction r as [|c r [IHs IHf]]; [now split |].
  destruct (gap_cases c r) as [(k & u & -> & Hs & Ht) | Hnone].
  - rewrite (gaps_match r k u Hs Ht). now split.
  - rewrite (gaps_nomatch c r Hnone). unfold firstNonSpace in *.
    cbn [spaces trimStart]. destruct (Str.isWhitespace c); [|now split].
    now rewrite IHs, IHf.
Qed.

Lemma singleSpaced_trimStart (t : string) :
  singleSpaced t = true -> singleSpaced (trimStart t) = true.
Proof.
  induction t as [|c r IH]; [reflexivity |]. intros H.
  cbn [trimStart]. destruct (Str.isWhitespace c); [|exact H].
  cbn [singleSpaced] in H. apply andb_true_iff in H as [_ H]. now apply IH.
Qed.

Lemma singleSpaced_gaps (s : string) :
  singleSpaced s = true -> singleSpaced (closeGaps s) = true.
Proof.
  apply (gaps_ind (fun s t => singleSpaced s = true -> singleSpaced t = true));
    [reflexivity | |].
  - intros r n u Hs Ht IH H.
    cbn [singleSpaced] in H. apply andb_true_iff in H as [_ H].
    apply singleSpaced_trimStart in H. rewrite Ht in H.
    cbn [singleSpaced] in H. apply andb_true_iff in H as [_ H].
    cbn [singleSpaced]. now rewrite (IH H).
  - intros c r _ IH H.
    cbn [singleSpaced] in *. apply andb_true_iff in H as [Hc Hr].
    rewrite (IH Hr), andb_true_r. now rewrite (proj1 (front_gaps r)).
Qed.

Lemma noGap_gaps (s : string) : noGap (closeGaps s) = true.
Proof.
  apply (gaps_ind (fun _ t => noGap t = true)); [reflexivity | |].
  - intros r n u _ _ IH. set (g := closeGaps u) in *.
    cbn [noGap]. now rewrite IH.
  - intros c r Hnone IH. cbn [noGap]. rewrite IH, andb_true_r.
    destruct (re_gt_spaces_lt (String c (closeGaps r))) eqn:E; [|reflexivity].
    exfalso. rewrite gap_None_iff in Hnone. apply Hnone.
    destruct (front_gaps r) as [<- <-].
    destruct (gap_cases c (closeGaps r)) as [(k & u & -> & Hs & Ht) | H]; [|congruence].
    unfold firstNonSpace. rewrite Hs, Ht. repeat split. discriminate.
Qed.

Lemma gaps_fixed (t : string) : noGap t = true -> closeGaps t = t.
Proof.
  induction t as [|c r IH]; [reflexivity |].
  cbn [noGap]. rewrite andb_true_iff. intros [Hc Hr].
  destruct (re_gt_spaces_lt (String c r)) eqn:E; [discriminate |].
  now rewrite (gaps_nomatch c r E), (IH Hr).
Qed.

Lemma noGap_trimStart (t : string) : noGap t = true -> noGap (trimStart t) = true.
Proof.
  induction t as [|c r IH]; [reflexivity |]. intros H.
  cbn [trimStart]. destruct (Str.isWhitespace c); [|exact H].
  cbn [noGap] in H. apply andb_true_iff in H as [_ H]. now apply IH.
Qed.

(** ** Trailing whitespace *)

Lemma trimEnd_cons (c : ascii) (r : string) :
  trimEnd (String c r)
  = match trimEnd r with
    | EmptyString => if Str.isWhitespace c then EmptyString else String c EmptyString
    | r' => String c r'
    end.
Proof. reflexivity. Qed.

Lemma trimEnd_last (c : ascii) (r : string) :
  trimEnd r = EmptyString ->
  trimEnd (String c r)
  = if Str.isWhitespace c then EmptyString else String c EmptyString.
Proof. intros H. now rewrite trimEnd_cons, H. Qed.

Lemma trimEnd_more (c : ascii) (r : string) :
  trimEnd r <> EmptyString -> trimEnd (String c r) = String c (trimEnd r).
Proof. intros H. rewrite trimEnd_cons. now destruct (trimEnd r). Qed.

Lemma trimEnd_nil (r : string) : trimEnd r = EmptyString -> trimStart r = EmptyString.
Proof.
  induction r as [|c r IH]; [reflexivity |].
  rewrite trimEnd_cons. cbn [trimStart].
  destruct (trimEnd r); [|discriminate].
  destruct (Str.isWhitespace c); [intros _; now apply IH | discriminate].
Qed.

(** Trimming the end leaves the front of a string as it is. *)
Lemma front_trimEnd (r : string) :
  firstNonSpace (trimEnd r) = firstNonSpace r
  /\ (firstNonSpace r <> None -> spaces (trimEnd r) = spaces r).
Proof.
  induction r as [|c r [IHf IHs]]; [now split |].
  unfold firstNonSpace in *.
  destruct (string_dec (trimEnd r) EmptyString) as [E | E].
  - rewrite (trimEnd_last c r E). apply trimEnd_nil in E. cbn [trimStart spaces].
    destruct (Str.isWhitespace c) eqn:Ec.
    + rewrite E. split; [reflexivity | congruence].
    + cbn [trimStart spaces]. rewrite Ec. now split.
  - rewrite (trimEnd_more c r E). cbn [trimStart spaces].
    destruct (Str.isWhitespace c); [|now split].
    split; [exact IHf |]. intros H. now rewrite (IHs H).
Qed.

Lemma spaces_trimEnd (r : string) : spaces r = 0 -> spaces (trimEnd r) = 0.
Proof.
  destruct r as [|c r]; [reflexivity |]. rewrite trimEnd_cons. cbn [spaces].
  destruct (Str.isWhitespace c) eqn:E; [discriminate |]. intros _.
  destruct (trimEnd r); cbn [spaces]; now rewrite E.
Qed.

Lemma singleSpaced_trimEnd (t : string) :
  singleSpaced t = true -> singleSpaced (trimEnd t) = true.
Proof.
  induction t as [|c r IH]; [reflexivity |].
  cbn [singleSpaced]. rewrite andb_true_iff. intros [Hc Hr].
  specialize (IH Hr).
  destruct (string_dec (trimEnd r) EmptyString) as [E | E].
  - rewrite (trimEnd_last c r E).
    destruct (Str.isWhitespace c) eqn:Ec; [reflexivity |].
    cbn [singleSpaced]. now rewrite Ec.
  - rewrite (trimEnd_more c r E). cbn [singleSpaced]. rewrite IH, andb_true_r.
    destruct (Str.isWhitespace c); [|reflexivity].
    apply andb_true_iff in Hc as [Hsp H0]. rewrite Hsp.
    apply Nat.eqb_eq in H0. now rewrite (spaces_trimEnd r H0).
Qed.

Lemma noGap_trimEnd (t : string) : noGap t = true -> noGap (trimEnd t) = true.
Proof.
  induction t as [|c r IH]; [reflexivity |].
  cbn [noGap]. rewrite andb_true_iff. intros [Hc Hr].
  specialize (IH Hr).
  destruct (string_dec (trimEnd r) EmptyString) as [E | E].
  - rewrite (trimEnd_last c r E).
    destruct (Str.isWhitespace c); [reflexivity |].
    cbn [noGap]. rewrite andb_true_r.
    destruct (gap_cases c EmptyString) as [(k & u & _ & Hs & _) | ->];
      [discriminate | reflexivity].
  - rewrite (trimEnd_more c r E). cbn [noGap]. rewrite IH, andb_true_r.
    destruct (re_gt_spaces_lt (String c r)) eqn:Er; [discriminate |].
    destruct (re_gt_spaces_lt (String c (trimEnd r))) eqn:Et; [|reflexivity].
    exfalso. rewrite gap_None_iff in Er. apply Er.
    destruct (gap_cases c (trimEnd r)) as [(k & u & -> & Hs & Ht) | H]; [|congruence].
    destruct (front_trimEnd r) as [Hf Hsp].
    assert (Hfirst : firstNonSpace r = Some "<"%char).
    { rewrite <- Hf. unfold firstNonSpace. now rewrite Ht. }
    repeat split; [|exact Hfirst].
    rewrite <- Hsp; [lia | congruence].
Qed.

Lemma trimEnd_idem (s : string) : trimEnd (trimEnd s) = trimEnd s.
Proof.
  induction s as [|c r IH]; [reflexivity |].
  destruct (string_dec (trimEnd r) EmptyString) as [E | E].
  - rewrite (trimEnd_last c r E).
    destruct (Str.isWhitespace c) eqn:Ec; [reflexivity |].
    rewrite trimEnd_cons. cbn [trimEnd]. now rewrite Ec.
  - rewrite (trimEnd_more c r E), trimEnd_more; rewrite IH; [reflexivity | exact E].
Qed.

Lemma trim_fixed (t : string) : spaces t = 0 -> trimEnd t = t -> trim t = t.
Proof. intros H0 He. unfold trim. now rewrite (trimStart_id t H0). Qed.

Lemma trim_trimmed (s : string) :
  spaces (trim s) = 0 /\ trimEnd (trim s) = trim s.
Proof.
  unfold trim. split; [apply spaces_trimEnd, spaces_trimStart | apply trimEnd_idem].
Qed.

(** ** Normal forms *)

Lemma normalizeHtml_eq (s : string) :
  normalizeHtml s = trim (closeGaps (collapseSpaces s)).
Proof. reflexivity. Qed.

Lemma normalizeHtml_normal (s : string) :
  let t := normalizeHtml s in
  singleSpaced t = true /\ noGap t = true /\ spaces t = 0 /\ trimEnd t = t.
Proof.
  cbn zeta. rewrite normalizeHtml_eq. unfold trim at 1 2.
  split; [|split].
  - apply singleSpaced_trimEnd, singleSpaced_trimStart, singleSpaced_gaps,
      singleSpaced_collapse.
  - apply noGap_trimEnd, noGap_trimStart, noGap_gaps.
  - apply trim_trimmed.
Qed.

Lemma normalizeHtml_fixed (t : string) :
  singleSpaced t = true -> noGap t = true -> spaces t = 0 -> trimEnd t = t ->
  normalizeHtml t = t.
Proof.
  intros H1 H2 H3 H4.
  now rewrite normalizeHtml_eq, (collapse_fixed t H1), (gaps_fixed t H2), trim_fixed.
Qed.

End Norm.

(** C6.  [normalizeHtml] is idempotent. *)
Theorem C6_normalizeHtml_idempotent :
  forall s : string, normalizeHtml (normalizeHtml s) = normalizeHtml s.
Proof.
  intros s. destruct (Norm.normalizeHtml_normal s) as (H1 & H2 & H3 & H4).
  now apply Norm.normalizeHtml_fixed.
Qed.

(* ================================================================== *)
(** * C2 - [spyOnEvent] *)
(* ================================================================== *)

(** C2.  After [spyOnEvent('buttonClick')], the call
    [spyOnEvent('valueChange')] on the same render target finds the
    target in [eventSpies], looks for a spy of that name among its spies,
    finds none and returns [undefined]; no spy is created and no listener
    is added. *)
Theorem C2_second_event_name_gets_no_spy :
  let '(first, st1) := spyOnEvent 0 "buttonClick" initialState in
  let '(second, st2) := spyOnEvent 0 "valueChange" st1 in
  first = Some 0
  /\ second = None
  /\ spies st2 = [mkEventSpy "buttonClick" [] None None 0]
  /\ listeners st2 = [(0, "buttonClick", 0)].
Proof. repeat split. Qed.

Lemma spyOnEvent_first (c : nat) (name : string) (st : RenderState) :
  eventSpies st c = None ->
  spyOnEvent c name st
  = (Some (List.length (spies st)),
     mkRenderState (spies st ++ [mkEventSpy name [] None None 0])
       (setEventSpies c [List.length (spies st)] (eventSpies st))
       (listeners st ++ [(c, name, List.length (spies st))])).
Proof. intros H. unfold spyOnEvent. cbn. now rewrite H. Qed.

(** A second call with the same target and the same name returns the same
    spy and changes nothing: no second listener. *)
Lemma spyOnEvent_again (c : nat) (name : string) (st : RenderState) :
  eventSpies st c = None ->
  let '(first, st1) := spyOnEvent c name st in
  spyOnEvent c name st1 = (first, st1).
Proof.
  intros H. rewrite (spyOnEvent_first c name st H).
  unfold spyOnEvent. cbn [eventSpies]. unfold setEventSpies at 1.
  rewrite Nat.eqb_refl. cbn [find]. unfold spyHasName. cbn [spies].
  rewrite nth_error_app2, Nat.sub_diag by lia. cbn [nth_error eventName].
  now rewrite String.eqb_refl.
Qed.

(* ================================================================== *)
(** * C7 - what a spy records *)
(* ================================================================== *)

Module Spy.

Lemma listener_eq (spy : EventSpy) (e : CustomEvent) :
  let n := Z.of_nat (List.length (events spy ++ [e])) in
  listener spy e
  = (mkEventSpy (eventName spy) (events spy ++ [e])
       (if (n =? 1)%Z then Some e else firstEvent spy) (Some e) n,
     ([PushEvent e; SetLength n; SetLastEvent e]
      ++ if (n =? 1)%Z then [SetFirstEvent e] else [])%list).
Proof.
  cbn zeta. unfold listener. cbn [write events spyLength eventName firstEvent lastEvent].
  now destruct (_ =? 1)%Z.
Qed.

(** The first event on a fresh spy. *)
Lemma listener_fresh (name : string) (e : CustomEvent) :
  listener (mkEventSpy name [] None None 0) e
  = (mkEventSpy name [e] (Some e) (Some e) 1,
     [PushEvent e; SetLength 1; SetLastEvent e; SetFirstEvent e]).
Proof. reflexivity. Qed.

(** Any later event. *)
Lemma listener_later (name : string) (first : CustomEvent) (done : list CustomEvent)
      (fe le : option CustomEvent) (len : Z) (e : CustomEvent) :
  listener (mkEventSpy name (first :: done) fe le len) e
  = (mkEventSpy name (first :: done ++ [e]) fe (Some e)
       (Z.of_nat (S (List.length (done ++ [e])))),
     [PushEvent e; SetLength (Z.of_nat (S (List.length (done ++ [e])))); SetLastEvent e]).
Proof.
  rewrite listener_eq. cbn [events eventName firstEvent].
  rewrite <- app_comm_cons. cbn [List.length].
  destruct (Z.eqb_spec (Z.of_nat (S (List.length (done ++ [e])))) 1) as [E | _].
  - rewrite length_app in E. cbn [List.length] in E. lia.
  - reflexivity.
Qed.

Lemma last_cons_default {A} (x : A) (l : list A) (d : A) : last (x :: l) d = last l x.
Proof.
  revert x d. induction l as [|y l IH]; intros x d; [reflexivity |].
  change (last (x :: y :: l) d) with (last (y :: l) d).
  now rewrite (IH y d), (IH y x).
Qed.

Lemma run_later (name : string) (first : CustomEvent) :
  forall (rest done : list CustomEvent) (le : CustomEvent) (len : Z),
    runSpy (mkEventSpy name (first :: done) (Some first) (Some le) len) rest
    = mkEventSpy name (first :: done ++ rest) (Some first) (Some (last rest le))
        (match rest with
         | [] => len
         | _ => Z.of_nat (S (List.length (done ++ rest)))
         end)
    /\ filter isFirstEventWrite
         (runWrites (mkEventSpy name (first :: done) (Some first) (Some le) len) rest) = []
    /\ filter isLastEventWrite
         (runWrites (mkEventSpy name (first :: done) (Some first) (Some le) len) rest)
       = map SetLastEvent rest.
Proof.
  induction rest as [|e rest IH]; intros done le len.
  - cbn [runSpy runWrites last filter map]. now rewrite app_nil_r.
  - cbn [runSpy runWrites]. rewrite listener_later. cbn [fst snd].
    destruct (IH (done ++ [e])%list e (Z.of_nat (S (List.length (done ++ [e])))))
      as (Hspy & Hfirst & Hlast).
    rewrite Hspy, !filter_app, Hfirst, Hlast. rewrite <- !app_assoc. cbn [app].
    split; [|split; reflexivity].
    f_equal.
    + f_equal. symmetry. apply last_cons_default.
    + destruct rest; reflexivity.
Qed.

(** What the spy holds after [e1 :: rest], starting fresh. *)
Lemma run_fresh (name : string) (e1 : CustomEvent) (rest : list CustomEvent) :
  runSpy (mkEventSpy name [] None None 0) (e1 :: rest)
  = mkEventSpy name (e1 :: rest) (Some e1) (Some (last rest e1))
      (Z.of_nat (List.length (e1 :: rest)))
  /\ filter isFirstEventWrite (runWrites (mkEventSpy name [] None None 0) (e1 :: rest))
     = [SetFirstEvent e1]
  /\ filter isLastEventWrite (runWrites (mkEventSpy name [] None None 0) (e1 :: rest))
     = map SetLastEvent (e1 :: rest).
Proof.
  cbn [runSpy runWrites]. rewrite listener_fresh. cbn [fst snd].
  destruct (run_later name e1 rest [] e1 1) as (Hspy & Hfirst & Hlast).
  rewrite Hspy, !filter_app, Hfirst, Hlast. cbn [app].
  split; [|split; reflexivity].
  f_equal. destruct rest; reflexivity.
Qed.

(** ** The store of spies *)

Lemma setSpy_length (a : nat) (x : EventSpy) (l : list EventSpy) :
  List.length (setSpy a x l) = List.length l.
Proof.
  revert a. induction l as [|y l IH]; intros [|a]; cbn [setSpy List.length]; auto.
Qed.

Lemma setSpy_same (a : nat) (x : EventSpy) (l : list EventSpy) :
  a < List.length l -> nth_error (setSpy a x l) a = Some x.
Proof.
  revert a. induction l as [|y l IH]; intros [|a] H; cbn [List.length] in H;
    cbn [setSpy nth_error]; try lia; [reflexivity | apply IH; lia].
Qed.

Lemma setSpy_other (a b : nat) (x : EventSpy) (l : list EventSpy) :
  a <> b -> nth_error (setSpy a x l) b = nth_error l b.
Proof.
  revert a b. induction l as [|y l IH]; intros [|a] [|b] H;
    cbn [setSpy nth_error]; try reflexivity; [lia | apply IH; lia].
Qed.

Lemma writesTo_app (a : nat) (kind : Write -> bool) (l1 l2 : list (nat * Write)) :
  writesTo a kind (l1 ++ l2) = (writesTo a kind l1 ++ writesTo a kind l2)%list.
Proof. apply filter_app. Qed.

Lemma writesTo_other (a b : nat) (kind : Write -> bool) (ws : list Write) :
  b <> a -> writesTo a kind (map (pair b) ws) = [].
Proof.
  intros H. induction ws as [|w ws IH]; [reflexivity |].
  cbn [map]. unfold writesTo in *. cbn [filter fst snd].
  apply Nat.eqb_neq in H. now rewrite H.
Qed.

Lemma writesTo_same (a : nat) (kind : Write -> bool) (ws : list Write) :
  writesTo a kind (map (pair a) ws) = map (pair a) (filter kind ws).
Proof.
  induction ws as [|w ws IH]; [reflexivity |].
  cbn [map]. unfold writesTo in *. cbn [filter fst snd].
  rewrite Nat.eqb_refl. cbn [andb]. destruct (kind w); cbn [map]; now rewrite IH.
Qed.

(** A listener of another spy leaves the spy at [a] and its log alone. *)
Lemma runListener_other (a b : nat) (kind : Write -> bool) (e : CustomEvent)
      (acc : list EventSpy * list (nat * Write)) :
  b <> a ->
  nth_error (fst (runListener b e acc)) a = nth_error (fst acc) a
  /\ writesTo a kind (snd (runListener b e acc)) = writesTo a kind (snd acc).
Proof.
  intros H. unfold runListener.
  destruct (nth_error (fst acc) b) as [spy|]; [|now split].
  destruct (listener spy e) as [spy' writes]. cbn [fst snd]. split.
  - now apply setSpy_other.
  - now rewrite writesTo_app, writesTo_other, app_nil_r.
Qed.

Lemma runListeners_other (a : nat) (kind : Write -> bool) (e : CustomEvent) :
  forall (called : list (nat * string * nat)) (acc : list EventSpy * list (nat * Write)),
    Forall (fun l => snd l <> a) called ->
    let acc' := fold_left (fun acc l => runListener (snd l) e acc) called acc in
    nth_error (fst acc') a = nth_error (fst acc) a
    /\ writesTo a kind (snd acc') = writesTo a kind (snd acc).
Proof.
  induction called as [|l called IH]; intros acc Hall; [now split |].
  inversion Hall as [|? ? Hl Hrest]; subst. cbn [fold_left].
  destruct (IH (runListener (snd l) e acc) Hrest) as [H1 H2].
  destruct (runListener_other a (snd l) kind e acc Hl) as [H3 H4].
  cbn zeta in *. split; congruence.
Qed.

(** One dispatch, seen from the spy at [a] whose listener was registered
    last. *)
Lemma dispatchEvent_spy (c : nat) (name : string) (a : nat) (kind : Write -> bool)
      (e : CustomEvent) (s : RenderState) (old : list (nat * string * nat)) (x : EventSpy) :
  listeners s = (old ++ [(c, name, a)])%list ->
  Forall (fun l => snd l < a) old ->
  nth_error (spies s) a = Some x ->
  eventType e = name ->
  listeners (fst (dispatchEvent c e s)) = listeners s
  /\ nth_error (spies (fst (dispatchEvent c e s))) a = Some (fst (listener x e))
  /\ writesTo a kind (snd (dispatchEvent c e s))
     = map (pair a) (filter kind (snd (listener x e))).
Proof.
  intros Hl Hold Hx He. unfold dispatchEvent. rewrite Hl, filter_app.
  cbn [filter fst snd]. rewrite Nat.eqb_refl, He, String.eqb_refl. cbn [andb].
  rewrite fold_left_app. cbn [fold_left snd].
  set (called := filter _ old).
  assert (Hcalled : Forall (fun l => snd l <> a) called).
  { apply Forall_forall. intros l Hin. apply filter_In in Hin as [Hin _].
    rewrite Forall_forall in Hold. specialize (Hold l Hin). lia. }
  destruct (runListeners_other a kind e called (spies s, []) Hcalled) as [H1 H2].
  cbn zeta in H1, H2. cbn [fst snd] in H1, H2.
  set (acc := fold_left _ called _) in *.
  unfold runListener. rewrite H1, Hx.
  destruct (listener x e) as [x' writes]. cbn [fst snd listeners spies].
  split; [reflexivity |]. split.
  - apply setSpy_same. apply nth_error_Some. congruence.
  - now rewrite writesTo_app, H2, writesTo_same.
Qed.

Lemma dispatchAll_spy (c : nat) (name : string) (a : nat) (kind : Write -> bool)
      (old : list (nat * string * nat)) :
  Forall (fun l => snd l < a) old ->
  forall (evs : list CustomEvent) (s : RenderState) (x : EventSpy),
    listeners s = (old ++ [(c, name, a)])%list ->
    nth_error (spies s) a = Some x ->
    Forall (fun e => eventType e = name) evs ->
    nth_error (spies (fst (dispatchAll c evs s))) a = Some (runSpy x evs)
    /\ writesTo a kind (snd (dispatchAll c evs s))
       = map (pair a) (filter kind (runWrites x evs)).
Proof.
  intros Hold. induction evs as [|e evs IH]; intros s x Hl Hx Hall.
  - now split.
  - inversion Hall as [|? ? He Hrest]; subst.
    destruct (dispatchEvent_spy c (eventType e) a kind e s old x Hl Hold Hx eq_refl)
      as (Hl1 & Hx1 & Hw1).
    cbn [dispatchAll runSpy runWrites].
    destruct (dispatchEvent c e s) as [s1 log1]. cbn [fst snd] in *.
    rewrite <- Hl1 in Hl.
    destruct (IH s1 (fst (listener x e)) Hl Hx1 Hrest) as (Hx2 & Hw2).
    destruct (dispatchAll c evs s1) as [s2 log2]. cbn [fst snd] in *.
    split; [exact Hx2 |].
    now rewrite writesTo_app, Hw1, Hw2, filter_app, map_app.
Qed.

End Spy.

(** ** The states [render] can be in *)

Lemma wellFormed_initial : wellFormed initialState.
Proof. constructor. Qed.

Lemma wellFormed_spyOnEvent (c : nat) (name : string) (st : RenderState) :
  wellFormed st -> wellFormed (snd (spyOnEvent c name st)).
Proof.
  intros H. unfold spyOnEvent.
  destruct (eventSpies st c) eqn:E; [exact H |].
  cbn [snd spies eventSpies listeners]. unfold wellFormed in *. cbn [spies listeners].
  rewrite length_app. cbn [List.length]. apply Forall_app. split.
  - revert H. apply Forall_impl. intros l Hl. lia.
  - constructor; [cbn [snd]; lia | constructor].
Qed.

Lemma runListener_length (a : nat) (e : CustomEvent)
      (acc : list EventSpy * list (nat * Write)) :
  List.length (fst (runListener a e acc)) = List.length (fst acc).
Proof.
  unfold runListener. destruct (nth_error (fst acc) a) as [spy|]; [|reflexivity].
  destruct (listener spy e). cbn [fst]. apply Spy.setSpy_length.
Qed.

Lemma wellFormed_dispatchEvent (c : nat) (e : CustomEvent) (st : RenderState) :
  wellFormed st -> wellFormed (fst (dispatchEvent c e st)).
Proof.
  intros H. unfold dispatchEvent.
  set (called := filter _ (listeners st)).
  assert (Hlen : forall (l : list (nat * string * nat)) acc,
             List.length (fst (fold_left (fun acc l => runListener (snd l) e acc) l acc))
             = List.length (fst acc)).
  { induction l as [|x l IH]; intros acc; [reflexivity |].
    cbn [fold_left]. now rewrite IH, runListener_length. }
  specialize (Hlen called (spies st, [])).
  destruct (fold_left _ called _) as [spies' log]. cbn [fst] in *.
  unfold wellFormed in *. cbn [spies listeners]. now rewrite Hlen.
Qed.

(** Whatever the spy was, after its listener has run its [length] is the
    number of its events; a fresh spy has none of either. *)
Lemma consistent_listener (spy : EventSpy) (e : CustomEvent) :
  consistent (fst (listener spy e)).
Proof. rewrite Spy.listener_eq. reflexivity. Qed.

Lemma consistent_fresh (name : string) : consistent (mkEventSpy name [] None None 0).
Proof. reflexivity. Qed.

(** C7.  On a render target that has no spy yet, [spyOnEvent(name)] gives
    a spy; after the events [e1 :: rest] of that name have been dispatched
    on the target, whatever other listeners are registered, the spy holds
    these events in order, their number as [length], [e1] as [firstEvent]
    and the last of them as [lastEvent].  Over the whole run [firstEvent]
    was assigned once, during the dispatch of [e1]; [lastEvent] was
    assigned at every event.  Hence [toHaveReceivedEventTimes(k)] passes
    exactly for [k = n], and [toHaveNthReceivedEventDetail(i, d)] compares
    [d] with the detail of the event at position [i], counted from 0. *)
Theorem C7_event_spy_bookkeeping :
  forall (toStringValue : Store -> Value -> string) (st : RenderState) (c : nat)
         (name : string) (e1 : CustomEvent) (rest : list CustomEvent),
    wellFormed st ->
    eventSpies st c = None ->
    Forall (fun e => eventType e = name) (e1 :: rest) ->
    let created := spyOnEvent c name st in
    let dispatched := dispatchAll c (e1 :: rest) (snd created) in
    let n := Z.of_nat (List.length (e1 :: rest)) in
    exists a spy,
      fst created = Some a
      /\ nth_error (spies (fst dispatched)) a = Some spy
      /\ spy = mkEventSpy name (e1 :: rest) (Some e1) (Some (last rest e1)) n
      /\ writesTo a isFirstEventWrite (snd dispatched) = [(a, SetFirstEvent e1)]
      /\ writesTo a isFirstEventWrite (snd (dispatchEvent c e1 (snd created)))
         = [(a, SetFirstEvent e1)]
      /\ writesTo a isLastEventWrite (snd dispatched)
         = map (fun e => (a, SetLastEvent e)) (e1 :: rest)
      /\ (forall k, pass (toHaveReceivedEventTimes spy k) = true <-> k = n)
      /\ (forall h i d, (0 <= i < n)%Z ->
            exists ev,
              nth_error (e1 :: rest) (Z.to_nat i) = Some ev
              /\ forall p, safeEquals h (detail ev) d = Return p ->
                   exists m, toHaveNthReceivedEventDetail toStringValue h spy (Integer i) d
                             = Return (mkMatcherResult p m)).
Proof.
  intros toStr st c name e1 rest Hwf Hnone Hall created dispatched n.
  subst created dispatched. rewrite (spyOnEvent_first c name st Hnone). cbn [fst snd].
  set (a := List.length (spies st)).
  set (spy0 := mkEventSpy name [] None None 0).
  set (st1 := mkRenderState _ _ _).
  assert (Hl : listeners st1 = (listeners st ++ [(c, name, a)])%list) by reflexivity.
  assert (Hx : nth_error (spies st1) a = Some spy0).
  { cbn [st1 spies]. unfold a. now rewrite nth_error_app2, Nat.sub_diag by lia. }
  destruct (Spy.run_fresh name e1 rest) as (Hrun & Hfirst & Hlast). fold spy0 in Hrun, Hfirst, Hlast.
  exists a, (runSpy spy0 (e1 :: rest)).
  split; [reflexivity |].
  split; [apply (Spy.dispatchAll_spy c name a isFirstEventWrite (listeners st) Hwf
                   (e1 :: rest) st1 spy0 Hl Hx Hall) |].
  split; [exact Hrun |].
  split.
  { rewrite (proj2 (Spy.dispatchAll_spy c name a isFirstEventWrite (listeners st) Hwf
                      (e1 :: rest) st1 spy0 Hl Hx Hall)).
    now rewrite Hfirst. }
  split.
  { inversion Hall as [|? ? He _]; subst.
    destruct (Spy.dispatchEvent_spy c (eventType e1) a isFirstEventWrite e1 st1
                (listeners st) spy0 Hl Hwf Hx eq_refl) as (_ & _ & ->).
    reflexivity. }
  split.
  { rewrite (proj2 (Spy.dispatchAll_spy c name a isLastEventWrite (listeners st) Hwf
                      (e1 :: rest) st1 spy0 Hl Hx Hall)).
    now rewrite Hlast, map_map. }
  rewrite Hrun. split.
  - intros k. cbn [toHaveReceivedEventTimes pass spyLength]. rewrite Z.eqb_eq.
    split; intros H; now symmetry.
  - intros h i d Hi.
    destruct (nth_error (e1 :: rest) (Z.to_nat i)) as [ev|] eqn:E.
    + exists ev. split; [reflexivity |]. intros p Hp.
      unfold toHaveNthReceivedEventDetail.
      cbn [spyLength events numberLtb numberGeb elementAt].
      unfold n in *.
      destruct (Z.eqb_spec (Z.of_nat (List.length (e1 :: rest))) 0) as [H0 | _];
        [cbn [List.length] in H0; lia |].
      destruct (Z.ltb_spec i 0) as [Hneg | _]; [lia |].
      destruct (Z.geb_spec i (Z.of_nat (List.length (e1 :: rest)))) as [Hge | _]; [lia |].
      cbn [orb]. rewrite E, Hp. cbn [bind]. eexists. reflexivity.
    + apply nth_error_None in E. unfold n in *. lia.
Qed.

Lemma C7_event_spy_bookkeeping_witness :
  wellFormed initialState
  /\ eventSpies initialState 0 = None
  /\ Forall (fun e => eventType e = "buttonClick") [click1; click2; click3]
  /\ exists a spy,
       fst (spyOnEvent 0 "buttonClick" initialState) = Some a
       /\ nth_error
            (spies (fst (dispatchAll 0 [click1; click2; click3]
                           (snd (spyOnEvent 0 "buttonClick" initialState))))) a
          = Some spy
       /\ firstEvent spy = Some click1
       /\ lastEvent spy = Some click3
       /\ pass (toHaveReceivedEventTimes spy 3) = true
       /\ pass (toHaveReceivedEventTimes spy 2) = false.
Proof.
  assert (Hwf : wellFormed initialState) by constructor.
  assert (Hnone : eventSpies initialState 0 = None) by reflexivity.
  assert (Hall : Forall (fun e => eventType e = "buttonClick") [click1; click2; click3])
    by (repeat constructor).
  repeat (split; [assumption |]).
  destruct (C7_event_spy_bookkeeping plainString initialState 0 "buttonClick"
              click1 [click2; click3] Hwf Hnone Hall)
    as (a & spy & Ha & Hspy & Heq & _ & _ & _ & Htimes & _).
  exists a, spy. rewrite Heq in *.
  repeat split; try assumption.
Defined.

(** The scenario of the specification, run: three events with details
    [{n: 1}], [{n: 2}], [{n: 3}]. *)
Example event_spy_scenario :
  let st := fst (dispatchAll 0 [click1; click2; click3]
                   (snd (spyOnEvent 0 "buttonClick" initialState))) in
  exists spy,
    nth_error (spies st) 0 = Some spy
    /\ option_map detail (firstEvent spy) = Some (VObject 0)
    /\ option_map detail (lastEvent spy) = Some (VObject 2)
    /\ (exists m, toHaveNthReceivedEventDetail plainString sampleStore spy (Integer 1) (VObject 5)
                  = Return (mkMatcherResult true m))
    /\ pass (toHaveReceivedEventTimes spy 3) = true
    /\ pass (toHaveReceivedEventTimes spy 2) = false.
Proof. eexists. repeat split. eexists. reflexivity. Qed.

(* ================================================================== *)
(** * C3 - what the HTML matchers refuse *)
(* ================================================================== *)

(** For [null] the matchers throw an [Error], not a [TypeError]. *)
Lemma C3_null_throws_a_plain_error :
  toEqualHtml (fun s => Return s) noParser RNull "<div></div>"
  = Throw (mkJsError Error
      ("expect.toEqualHtml() received value is " ++ Str.dquote ++ "null" ++ Str.dquote))
  /\ toEqualLightHtml (fun s => Return s) noParser RUndefined "<div></div>"
     = Throw (mkJsError Error
         ("expect.toEqualLightHtml() received value is " ++ Str.dquote ++ "undefined"
          ++ Str.dquote))
  /\ Error <> TypeError.
Proof. repeat split. discriminate. Qed.

(** C3 (amended).  [toEqualHtml] and [toEqualLightHtml] throw, with a
    message, instead of returning a result: an [Error] when the received
    value is [null] or [undefined]; a [TypeError] when it is promise-like;
    a [TypeError] when it is neither a string, nor an element, nor a shadow
    root or fragment.  On a string they throw exactly what parsing the
    string throws, and return a result when it is parsed.  On an element or
    a fragment that is not promise-like they throw exactly what
    [prettifyHtml] throws on the serialization (with the style elements of
    shadow roots left out, and with the shadow roots for [toEqualHtml],
    without them for [toEqualLightHtml]), and return a result when it
    returns. *)
Theorem C3_usage_errors :
  forall (prettifyHtml : string -> Completion string)
         (parseHtmlFragment : string -> Completion (option string * option string))
         (received : Received) (expected : string),
    let html := toEqualHtml prettifyHtml parseHtmlFragment received expected in
    let light := toEqualLightHtml prettifyHtml parseHtmlFragment received expected in
    match received with
    | RNull | RUndefined =>
      exists m1 m2, html = Throw (mkJsError Error m1) /\ m1 <> EmptyString
                    /\ light = Throw (mkJsError Error m2) /\ m2 <> EmptyString
    | RNode true _ | ROther true =>
      html = Throw notResolved /\ light = Throw notResolved
      /\ errorKind notResolved = TypeError /\ errorMessage notResolved <> EmptyString
    | ROther false =>
      exists m1 m2, html = Throw (mkJsError TypeError m1) /\ m1 <> EmptyString
                    /\ light = Throw (mkJsError TypeError m2) /\ m2 <> EmptyString
    | RString s =>
      match parseHtmlFragment s with
      | Return _ => exists r1 r2, html = Return r1 /\ light = Return r2
      | Throw e => html = Throw e /\ light = Throw e
      end
    | RNode false n =>
      match prettifyHtml (serializeElementWithShadow n true true) with
      | Return _ => exists r1, html = Return r1
      | Throw e => html = Throw e
      end
      /\ match prettifyHtml (serializeElementWithShadow n true false) with
         | Return _ => exists r2, light = Return r2
         | Throw e => light = Throw e
         end
    end.
Proof.
  intros pf parse [| | s | [|] n | [|]] expected; cbn;
    try (repeat (eexists || split); discriminate).
  - unfold fragmentHtml. destruct (parse s) as [[innerHTML textContent] | e]; cbn.
    + eexists _, _. split; reflexivity.
    + split; reflexivity.
  - split.
    + destruct (pf (serializeElementWithShadow n true true)); cbn;
        [eexists |]; reflexivity.
    + destruct (pf (serializeElementWithShadow n true false)); cbn;
        [eexists |]; reflexivity.
Qed.

(** The text [</(>] in a [<div>]: the prettifier takes it for the closing
    tag of the line [<div>] and builds a pattern from its name; what the
    engine throws on that pattern is what both matchers throw. *)
Lemma pattern_error_reaches_the_matchers :
  forall (regExpTest : string -> string -> Completion bool)
         (parseHtmlFragment : string -> Completion (option string * option string))
         (e : JsError) (expected : string),
    regExpTest "^\s*<([^>]*>$" "<div>" = Throw e ->
    let div := RootElement (mkElement (Some "div") "DIV" (Some []) None
                              [TextNode "</(>"] None) in
    toEqualHtml (prettifyHtml regExpTest) parseHtmlFragment (RNode false div) expected
    = Throw e
    /\ toEqualLightHtml (prettifyHtml regExpTest) parseHtmlFragment (RNode false div) expected
       = Throw e.
Proof.
  intros regExpTest parse e expected H. cbn.
  unfold prettifyHtml. cbn. rewrite H. split; reflexivity.
Qed.

(* ================================================================== *)
(** * [JSON.stringify] and [safeEquals] *)
(* ================================================================== *)

Example JSON_stringify_object :
  JSON_stringify sampleStore (VObject 0)
  = Return (Some ("{" ++ Str.dquote ++ "n" ++ Str.dquote ++ ":1}")).
Proof. reflexivity. Qed.

Example JSON_stringify_array :
  JSON_stringify sampleStore (VObject 3)
  = Return (Some ("[1,null," ++ Str.dquote ++ "a" ++ Str.dquote ++ ",{"
                  ++ Str.dquote ++ "n" ++ Str.dquote ++ ":1}]")).
Proof. reflexivity. Qed.

Example JSON_stringify_cycle :
  JSON_stringify sampleStore (VObject 4) = Throw circularStructure.
Proof. reflexivity. Qed.

Example JSON_stringify_undefined :
  JSON_stringify sampleStore VUndefined = Return None.
Proof. reflexivity. Qed.

Lemma stack_bound (h : Store) (stack : list nat) :
  NoDup stack -> (forall a, In a stack -> a < List.length h) ->
  List.length stack <= List.length h.
Proof.
  intros Hnd Hin. rewrite <- (length_seq (List.length h) 0).
  apply NoDup_incl_length; [exact Hnd |].
  intros a Ha. apply in_seq. specialize (Hin a Ha). lia.
Qed.

(** With a bound above the number of objects not yet on the stack, the
    serialization runs to its end. *)
Lemma serializeJSONProperty_enough_fuel (h : Store) :
  forall fuel stack v,
    NoDup stack -> (forall a, In a stack -> a < List.length h) ->
    List.length h - List.length stack < fuel ->
    serializeJSONProperty h fuel stack v <> None.
Proof.
  induction fuel as [|fuel IH]; intros stack v Hnd Hin Hfuel; [lia |].
  destruct v as [| | b | z | s | z | a]; try discriminate.
  cbn [serializeJSONProperty].
  destruct (existsb (Nat.eqb a) stack) eqn:Hmem; [discriminate |].
  destruct (Nat.lt_ge_cases a (List.length h)) as [Hvalid | Hout].
  - assert (Hnd' : NoDup (a :: stack)).
    { constructor; [|exact Hnd]. intros Ha.
      assert (existsb (Nat.eqb a) stack = true); [|congruence].
      apply existsb_exists. exists a. split; [exact Ha | apply Nat.eqb_refl]. }
    assert (Hin' : forall x, In x (a :: stack) -> x < List.length h).
    { intros x [<- | Hx]; auto. }
    pose proof (stack_bound h (a :: stack) Hnd' Hin') as Hb. cbn [List.length] in Hb.
    assert (rec : forall v, serializeJSONProperty h fuel (a :: stack) v <> None).
    { intros v. apply IH; auto. cbn [List.length]. lia. }
    destruct (storeGet h a) as [props | elems].
    + match goal with |- context [?m props] => is_fix m; set (members := m) end.
      assert (Hm : members props <> None).
      { induction props as [|[k v] props IHp]; [discriminate |].
        cbn [members]. specialize (rec v).
        destruct (serializeJSONProperty h fuel (a :: stack) v) as [[[str|]|e]|];
          try congruence; try discriminate.
        fold members. destruct (members props) as [[l|e]|]; congruence. }
      destruct (members props) as [[l|e]|]; congruence.
    + match goal with |- context [?m elems] => is_fix m; set (items := m) end.
      assert (Hm : items elems <> None).
      { induction elems as [|v elems IHp]; [discriminate |].
        cbn [items]. specialize (rec v).
        destruct (serializeJSONProperty h fuel (a :: stack) v) as [[item|e]|];
          try congruence; try discriminate.
        fold items. destruct (items elems) as [[l|e]|]; congruence. }
      destruct (items elems) as [[l|e]|]; congruence.
  - unfold storeGet. rewrite (nth_overflow h (OPlain []) Hout). discriminate.
Qed.

(** [JSON.stringify] is the bounded serialization: the bound is not met. *)
Lemma JSON_stringify_spec (h : Store) (v : Value) :
  serializeJSONProperty h (S (List.length h)) [] v = Some (JSON_stringify h v).
Proof.
  unfold JSON_stringify.
  destruct (serializeJSONProperty h (S (List.length h)) [] v) eqn:E; [reflexivity |].
  exfalso. revert E. apply serializeJSONProperty_enough_fuel.
  - constructor.
  - intros a [].
  - cbn [List.length]. lia.
Qed.

(** [safeEquals] returns: nothing thrown by [JSON.stringify] escapes. *)
Lemma safeEquals_returns (h : Store) (a b : Value) :
  exists r, safeEquals h a b = Return r.
Proof.
  unfold safeEquals, tryCatch, bind.
  destruct (JSON_stringify h a) as [sa|e]; [destruct (JSON_stringify h b) as [sb|e] |];
    try (eexists; reflexivity);
    destruct a, b; try (eexists; reflexivity);
    destruct (negb _); eexists; reflexivity.
Qed.

(** When both payloads serialize the result is the equality of the JSON
    texts. *)
Lemma safeEquals_serializable (h : Store) (a b : Value) (x y : string) :
  JSON_stringify h a = Return (Some x) ->
  JSON_stringify h b = Return (Some y) ->
  safeEquals h a b = Return (String.eqb x y).
Proof. intros Ha Hb. unfold safeEquals, tryCatch, bind. now rewrite Ha, Hb. Qed.

(* ================================================================== *)
(** * C8 - comparison of event payloads *)
(* ================================================================== *)

(** C8.  On [a = {x: undefined, self: a}] and [b = {y: undefined, self: a}]
    [JSON.stringify] throws, and the fallback of [safeEquals] answers
    [true]: it compares the number of keys and the values under the keys of
    [a], and never looks at the names of the keys of [b].  The key sets
    differ, so the comparison by equal key sets and equal values per key
    answers [false]. *)
Theorem C8_fallback_ignores_key_names :
  JSON_stringify cyclicStore (VObject 0) = Throw circularStructure
  /\ ownKeys (storeGet cyclicStore 0) = ["x"; "self"]
  /\ ownKeys (storeGet cyclicStore 1) = ["y"; "self"]
  /\ safeEquals cyclicStore (VObject 0) (VObject 1) = Return true
  /\ shallowEquals cyclicStore 0 1 = false.
Proof. repeat split. Qed.

(** Where the key sets are the same list, the fallback is the shallow
    comparison. *)
Lemma safeEquals_fallback_same_keys (h : Store) (x y : nat) :
  (exists e, JSON_stringify h (VObject x) = Throw e) ->
  ownKeys (storeGet h x) = ownKeys (storeGet h y) ->
  safeEquals h (VObject x) (VObject y) = Return (shallowEquals h x y).
Proof.
  intros [e He] Hk. unfold safeEquals, tryCatch, bind, shallowEquals.
  rewrite He, <- Hk, Nat.eqb_refl. cbn [negb].
  assert (Hall : forallb (fun key => existsb (String.eqb key) (ownKeys (storeGet h x)))
                   (ownKeys (storeGet h x)) = true).
  { apply forallb_forall. intros k Hin. apply existsb_exists.
    exists k. split; [exact Hin | apply String.eqb_refl]. }
  now rewrite Hall.
Qed.

(* ================================================================== *)
(** * C9 - [toMatchClasses] *)
(* ================================================================== *)

Module Sorting.

Lemma leb_refl (s : string) : String.leb s s = true.
Proof. now destruct (String.leb_total s s). Qed.

Lemma leb_trans (s1 s2 s3 : string) :
  String.leb s1 s2 = true -> String.leb s2 s3 = true -> String.leb s1 s3 = true.
Proof.
  unfold String.leb. revert s2 s3.
  induction s1 as [|c1 r1 IH]; intros [|c2 r2] [|c3 r3]; cbn [String.compare];
    try reflexivity; try discriminate.
  unfold Ascii.compare.
  destruct (N.compare_spec (N_of_ascii c1) (N_of_ascii c2)) as [E12 | L12 | G12];
    destruct (N.compare_spec (N_of_ascii c2) (N_of_ascii c3)) as [E23 | L23 | G23];
    try discriminate; intros H12 H23.
  - rewrite <- E23, E12, N.compare_refl. now apply (IH r2 r3).
  - rewrite E12. now apply N.compare_lt_iff in L23 as ->.
  - rewrite <- E23. now apply N.compare_lt_iff in L12 as ->.
  - assert (L13 : (N_of_ascii c1 < N_of_ascii c3)%N) by lia.
    now apply N.compare_lt_iff in L13 as ->.
Qed.

Lemma insertSorted_perm (x : string) (l : list string) :
  Permutation (insertSorted x l) (x :: l).
Proof.
  induction l as [|y r IH]; cbn [insertSorted]; [reflexivity |].
  destruct (String.leb x y); [reflexivity |].
  rewrite IH. apply perm_swap.
Qed.

Lemma sort_perm (l : list string) : Permutation (sort l) l.
Proof.
  induction l as [|x r IH]; cbn [sort]; [reflexivity |].
  now rewrite insertSorted_perm, IH.
Qed.

Lemma insertSorted_sorted (x : string) (l : list string) :
  StronglySorted leStr l -> StronglySorted leStr (insertSorted x l).
Proof.
  induction 1 as [|y r Hr IH Hy]; cbn [insertSorted].
  - repeat constructor.
  - destruct (String.leb x y) eqn:E.
    + constructor; [now constructor |].
      constructor; [exact E |].
      revert Hy. apply Forall_impl. intros z. now apply leb_trans.
    + constructor; [exact IH |].
      assert (Hyx : leStr y x) by (destruct (String.leb_total x y); [congruence | assumption]).
      rewrite Forall_forall in *. intros z Hz.
      apply (Permutation_in _ (insertSorted_perm x r)) in Hz as [<- | Hz]; auto.
Qed.

Lemma sort_sorted (l : list string) : StronglySorted leStr (sort l).
Proof.
  induction l as [|x r IH]; cbn [sort]; [constructor | now apply insertSorted_sorted].
Qed.

(** A list has one sorted arrangement. *)
Lemma sorted_unique (l1 l2 : list string) :
  StronglySorted leStr l1 -> StronglySorted leStr l2 -> Permutation l1 l2 -> l1 = l2.
Proof.
  intros H1. revert l2. induction H1 as [|x r1 Hr1 IH Hx]; intros l2 H2 Hp.
  - now apply Permutation_nil in Hp.
  - destruct H2 as [|y r2 Hr2 Hy]; [now apply Permutation_sym, Permutation_nil in Hp |].
    assert (x = y) as <-.
    { rewrite Forall_forall in Hx, Hy.
      apply String.leb_antisym.
      - assert (In y (x :: r1)) as [-> | Hin]
            by (apply (Permutation_in _ (Permutation_sym Hp)); now left);
          [apply leb_refl | now apply Hx].
      - assert (In x (y :: r2)) as [-> | Hin]
            by (apply (Permutation_in _ Hp); now left);
          [apply leb_refl | now apply Hy]. }
    f_equal. apply IH; [exact Hr2 |]. now apply Permutation_cons_inv in Hp.
Qed.

Lemma sort_eq_iff (l1 l2 : list string) : sort l1 = sort l2 <-> Permutation l1 l2.
Proof.
  split; intros H.
  - rewrite <- (sort_perm l1), H. apply sort_perm.
  - apply sorted_unique; try apply sort_sorted.
    now rewrite !sort_perm.
Qed.

(** The test [a.length === b.length && a.every((x, i) => x === b[i])]. *)
Lemma every_eq_iff (pre a b : list string) :
  Nat.eqb (List.length a) (List.length b)
  && everyFrom (fun cls idx =>
                  match nth_error (pre ++ b) idx with
                  | Some expected => String.eqb cls expected
                  | None => false
                  end) (List.length pre) a = true
  <-> a = b.
Proof.
  revert pre b. induction a as [|x a IH]; intros pre [|y b]; cbn [List.length everyFrom Nat.eqb andb].
  - tauto.
  - split; discriminate.
  - split; discriminate.
  - rewrite nth_error_app2, Nat.sub_diag by lia. cbn [nth_error].
    specialize (IH (pre ++ [y])%list b).
    rewrite <- app_assoc, length_app in IH. cbn [app List.length] in IH.
    rewrite Nat.add_1_r in IH.
    destruct (String.eqb_spec x y) as [-> | Hne]; cbn [andb].
    + rewrite IH. split; [now intros -> | now intros [= ->]].
    + rewrite andb_false_r. split; [discriminate | now intros [= -> ->]].
Qed.

End Sorting.

Example splitSpaces_example :
  splitSpaces " a  b " = [EmptyString; "a"; "b"; EmptyString]
  /\ splitSpaces EmptyString = [EmptyString]
  /\ filterBoolean (splitSpaces " a  b ") = ["a"; "b"].
Proof. repeat split. Qed.

Example sort_example :
  sort ["button"; "button--primary"; "button--medium"]
  = ["button"; "button--medium"; "button--primary"].
Proof. reflexivity. Qed.

Example toMatchClasses_spec_example :
  let button := mkElement (Some "button") "BUTTON"
                  (Some [mkAttr "type" None None "button";
                         mkAttr "class" None None "button  button--primary button--medium "])
                  None [] None in
  pass (toMatchClasses button ["button--medium"; "button--primary"; "button"]) = true
  /\ pass (toMatchClasses button ["button"]) = false.
Proof. split; reflexivity. Qed.

(** C9.  [toMatchClasses] passes exactly when the sorted list of the
    classes of the element (its [class] attribute split on whitespace,
    empty pieces dropped) is the sorted list of the expected classes (empty
    entries dropped), that is when the two are the same classes in some
    order, each as many times. *)
Theorem C9_toMatchClasses_exact :
  forall (received : Element) (classNames : list string),
    (pass (toMatchClasses received classNames) = true
     <-> sort (classTokens received) = sort (filterBoolean classNames))
    /\ (pass (toMatchClasses received classNames) = true
        <-> Permutation (classTokens received) (filterBoolean classNames)).
Proof.
  intros received classNames.
  assert (H : pass (toMatchClasses received classNames) = true
              <-> sort (classTokens received) = sort (filterBoolean classNames)).
  { unfold toMatchClasses, actualClassesOf. cbn [pass].
    apply (Sorting.every_eq_iff []). }
  split; [exact H |]. now rewrite H, Sorting.sort_eq_iff.
Qed.

(* ================================================================== *)
(** * C10 - [toHaveNthReceivedEventDetail] and its index *)
(* ================================================================== *)

(** The index is a number.  For every spy, index and expected payload:
    - with no event received, an index below 0 or an index at or beyond
      [length], the matcher returns a failed result with a message, without
      reading [events];
    - otherwise it reads [events[index]]: this is so when
      [0 <= index < length], and also for [NaN], which is neither below 0
      nor at or beyond [length];
    - for an integer index, on a spy whose [length] is the number of its
      events (every spy that [spyOnEvent] hands out), it always returns a
      result. *)
Lemma nth_detail_index :
  forall (toStringValue : Store -> Value -> string) (h : Store)
         (received : EventSpy) (index : JsNumber) (expected : Value),
    let result := toHaveNthReceivedEventDetail toStringValue h received index expected in
    ((spyLength received = 0%Z \/ numberLtb index 0 = true
      \/ numberGeb index (spyLength received) = true) ->
       (result = Return (noEventsReceived received)
        \/ result = Return (indexOutOfRange received index))
       /\ exists m, result = Return (mkMatcherResult false m) /\ m <> EmptyString)
    /\ (spyLength received <> 0%Z -> numberLtb index 0 = false ->
        numberGeb index (spyLength received) = false ->
          result
          = match elementAt (events received) index with
            | None => Throw readDetailOfUndefined
            | Some event =>
              pass <- safeEquals h (detail event) expected ;;
              Return (mkMatcherResult pass
                (if pass
                 then "Expected event at index " ++ numberToString index
                      ++ " detail not to equal " ++ safeStringify toStringValue h expected
                 else "Expected event at index " ++ numberToString index
                      ++ " detail to equal " ++ safeStringify toStringValue h expected
                      ++ ", but got " ++ safeStringify toStringValue h (detail event)))
            end)
    /\ (forall z, index = Integer z ->
          spyLength received = Z.of_nat (List.length (events received)) ->
          exists r, result = Return r).
Proof.
  intros toStr h received index expected result. subst result.
  unfold toHaveNthReceivedEventDetail.
  destruct (Z.eqb_spec (spyLength received) 0) as [H0 | H0].
  - split; [|split].
    + intros _. split; [now left |]. eexists. split; [reflexivity | discriminate].
    + congruence.
    + eauto.
  - destruct (numberLtb index 0) eqn:Hneg; cbn [orb].
    + split; [|split].
      * intros _. split; [now right |]. eexists. split; [reflexivity | discriminate].
      * discriminate.
      * eauto.
    + destruct (numberGeb index (spyLength received)) eqn:Hge.
      * split; [|split].
        -- intros _. split; [now right |]. eexists. split; [reflexivity | discriminate].
        -- discriminate.
        -- eauto.
      * split; [|split].
        -- intros [H | [H | H]]; congruence.
        -- reflexivity.
        -- intros z -> Hlen. cbn [numberLtb numberGeb elementAt] in *. rewrite Hneg.
           apply Z.ltb_ge in Hneg. rewrite Z.geb_leb in Hge. apply Z.leb_gt in Hge.
           destruct (nth_error (events received) (Z.to_nat z)) as [event|] eqn:E.
           ++ destruct (safeEquals_returns h (detail event) expected) as [p ->].
              cbn [bind]. eauto.
           ++ apply nth_error_None in E. lia.
Qed.

(** On a spy with two events: the index 2 and the index -1 are refused
    with a message, the index 1 is compared. *)
Example nth_detail_integer_indices :
  let spy := mkEventSpy "buttonClick"
               [mkCustomEvent "buttonClick" (VObject 0);
                mkCustomEvent "buttonClick" (VObject 1)]
               (Some (mkCustomEvent "buttonClick" (VObject 0)))
               (Some (mkCustomEvent "buttonClick" (VObject 1))) 2 in
  (exists m, toHaveNthReceivedEventDetail plainString sampleStore spy (Integer 2) (VObject 1)
             = Return (mkMatcherResult false m) /\ m <> EmptyString)
  /\ (exists m, toHaveNthReceivedEventDetail plainString sampleStore spy (Integer (-1))
                  (VObject 1)
                = Return (mkMatcherResult false m) /\ m <> EmptyString)
  /\ (exists r, toHaveNthReceivedEventDetail plainString sampleStore spy (Integer 1)
                  (VObject 1)
                = Return r).
Proof.
  intros spy.
  pose proof (nth_detail_index plainString sampleStore spy (Integer 2) (VObject 1))
    as (A & _ & _).
  pose proof (nth_detail_index plainString sampleStore spy (Integer (-1)) (VObject 1))
    as (B & _ & _).
  pose proof (nth_detail_index plainString sampleStore spy (Integer 1) (VObject 1))
    as (_ & _ & C).
  split; [|split].
  - apply A. right. right. reflexivity.
  - apply B. right. left. reflexivity.
  - apply (C 1%Z); reflexivity.
Qed.

(** C10.  The matcher is not total over its index: on a spy that holds
    two events, the index [NaN] passes both range tests of line 539, being
    neither below 0 nor at or beyond [length]; [events[NaN]] is
    [undefined], and reading its [detail] throws a [TypeError].  The same
    happens for 0.5, which lies within the range and is no position of the
    list.  So the list is indexed outside [0 <= index < length], and the
    matcher throws where a failed result with a message was to be
    returned. *)
Theorem C10_index_that_is_no_position :
  let spy := mkEventSpy "buttonClick"
               [mkCustomEvent "buttonClick" (VObject 0);
                mkCustomEvent "buttonClick" (VObject 1)]
               (Some (mkCustomEvent "buttonClick" (VObject 0)))
               (Some (mkCustomEvent "buttonClick" (VObject 1))) 2 in
  numberLtb NaN 0 = false
  /\ numberGeb NaN (spyLength spy) = false
  /\ toHaveNthReceivedEventDetail plainString sampleStore spy NaN (VObject 1)
     = Throw readDetailOfUndefined
  /\ toHaveNthReceivedEventDetail plainString sampleStore spy (Fraction 0 "0.5") (VObject 1)
     = Throw readDetailOfUndefined
  /\ errorKind readDetailOfUndefined = TypeError.
Proof. repeat split. Qed.

(* ================================================================== *)
(** * Further properties of the serializer *)
(* ================================================================== *)

Module Tree.

Lemma lightTree_eq (e : Element) :
  lightTree e
  = mkElement (localName e) (tagName e) (attributes e) None
      (map lightNode (childNodes e)) None.
Proof.
  destruct e as [ln tn attrs sh cn pcn]. reflexivity.
Qed.

Lemma shadowFree_eq (e : Element) :
  shadowFree e
  = match shadowRoot e, __childNodes e with
    | None, None => forallb shadowFreeNode (childNodes e)
    | _, _ => false
    end.
Proof.
  destruct e as [ln tn attrs [s|] cn [pcn|]]; reflexivity.
Qed.

Lemma concat_map_ext {A} (f g : A -> string) (l : list A) :
  Forall (fun x => f x = g x) l ->
  String.concat EmptyString (map f l) = String.concat EmptyString (map g l).
Proof.
  intros H. f_equal. induction H; cbn [map]; congruence.
Qed.

(** Without shadow roots the output is that of the public light tree,
    whatever the other options are. *)
Lemma light_element (e : Element) :
  forall xs xs' ss, serializeElement e xs false = serializeElement (lightTree e) xs' ss.
Proof.
  induction e as [e Hc _ _] using Element_tree_ind. intros xs xs' ss.
  rewrite !serializeElement_eq, lightTree_eq.
  unfold shadowHtml, lightHtml, lightNodes, closingTag, attrsHtml, elementTagName.
  cbn [localName tagName attributes shadowRoot childNodes __childNodes].
  assert (Hlight : String.concat EmptyString (map (serializeChild xs false) (childNodes e))
                   = String.concat EmptyString
                       (map (serializeChild xs' ss) (map lightNode (childNodes e)))).
  { rewrite map_map. apply concat_map_ext. revert Hc. apply Forall_impl.
    intros [c|t|t|k] H; cbn in *; auto. }
  destruct (shadowRoot e), (__childNodes e); now rewrite Hlight.
Qed.

Lemma light_child (xs xs' ss : bool) (n : Node) :
  serializeChild xs false n = serializeChild xs' ss (lightNode n).
Proof. destruct n; cbn; auto using light_element. Qed.

Lemma shadowFree_element (e : Element) :
  shadowFree e = true ->
  forall xs, serializeElement e xs true = serializeElement e xs false.
Proof.
  induction e as [e Hc _ _] using Element_tree_ind. intros Hfree xs.
  rewrite shadowFree_eq in Hfree.
  rewrite !serializeElement_eq.
  unfold shadowHtml, lightHtml, lightNodes.
  destruct (shadowRoot e); [discriminate|].
  destruct (__childNodes e); [discriminate|].
  do 5 f_equal. f_equal. apply concat_map_ext.
  rewrite forallb_forall in Hfree. rewrite Forall_forall in *.
  intros [c|t|t|k] Hin; cbn; auto.
  apply (Hc _ Hin). apply (Hfree _ Hin).
Qed.

Lemma light_root (element : Root) (xs xs' ss : bool) :
  serializeElementWithShadow element xs false
  = serializeElementWithShadow (lightRoot element) xs' ss.
Proof.
  destruct element as [e|l]; cbn [serializeElementWithShadow lightRoot].
  - apply light_element.
  - rewrite map_map. apply concat_map_ext.
    apply Forall_forall. intros n _. apply light_child.
Qed.

Lemma shadowFree_root (element : Root) (xs : bool) :
  shadowFreeRoot element = true ->
  serializeElementWithShadow element xs true = serializeElementWithShadow element xs false.
Proof.
  destruct element as [e|l]; cbn [serializeElementWithShadow shadowFreeRoot].
  - intros H. now apply shadowFree_element.
  - intros H. apply concat_map_ext.
    rewrite forallb_forall in H. apply Forall_forall.
    intros [c|t|t|k] Hin; cbn; auto.
    apply shadowFree_element. apply (H _ Hin).
Qed.

End Tree.

(** X1.  With [serializeShadowRoot: false] the serialization is a function of
    the public light tree alone: it is the serialization, under any options,
    of the tree from which every shadow root and every polyfill list has
    been taken away.  In particular [excludeStyles] has no effect on it. *)
Theorem light_serialization_reads_the_light_tree
  (prettifyHtml : string -> Completion string) (n : Root) (pretty xs xs' ss : option bool) :
  serializeHtml prettifyHtml (InputNode n) (mkSerializeOptions (Some false) pretty xs)
  = serializeHtml prettifyHtml (InputNode (lightRoot n)) (mkSerializeOptions ss pretty xs').
Proof.
  unfold serializeHtml.
  cbn [opt_serializeShadowRoot opt_pretty opt_excludeStyles orTrue].
  now rewrite (Tree.light_root n (orTrue xs) (orTrue xs') (orTrue ss)).
Qed.

(** X2.  [toEqualLightHtml] cannot see shadow roots or polyfill lists: on a
    node it returns, message included, what it returns on the public light
    tree of that node. *)
Theorem toEqualLightHtml_reads_the_light_tree
  (prettifyHtml : string -> Completion string)
  (parseHtmlFragment : string -> Completion (option string * option string))
  (thenable : bool) (n : Root) (expected : string) :
  toEqualLightHtml prettifyHtml parseHtmlFragment (RNode thenable n) expected
  = toEqualLightHtml prettifyHtml parseHtmlFragment (RNode thenable (lightRoot n)) expected.
Proof.
  unfold toEqualLightHtml, serializeHtml. cbn [isThenable opt_serializeShadowRoot
    opt_pretty opt_excludeStyles orTrue].
  now rewrite <- (Tree.light_root n true true false).
Qed.

(** X3.  On a node in which no element has a shadow root or a polyfill
    list, [toEqualHtml] and [toEqualLightHtml] give the same verdict for
    every expected string: both pass, both fail, or both throw the same
    error. *)
Theorem html_matchers_agree_without_shadow
  (prettifyHtml : string -> Completion string)
  (parseHtmlFragment : string -> Completion (option string * option string))
  (thenable : bool) (n : Root) (expected : string) :
  shadowFreeRoot n = true ->
  verdict (toEqualHtml prettifyHtml parseHtmlFragment (RNode thenable n) expected)
  = verdict (toEqualLightHtml prettifyHtml parseHtmlFragment (RNode thenable n) expected).
Proof.
  intros Hfree.
  unfold toEqualHtml, toEqualLightHtml, serializeHtml. cbn [isThenable opt_serializeShadowRoot
    opt_pretty opt_excludeStyles orTrue].
  rewrite (Tree.shadowFree_root n true Hfree).
  destruct thenable; [reflexivity |].
  now destruct (prettifyHtml (serializeElementWithShadow n true false)).
Qed.

Lemma html_matchers_agree_without_shadow_witness :
  shadowFreeRoot (RootElement sampleList) = true /\
  verdict (toEqualHtml (fun s => Return s) noParser (RNode false (RootElement sampleList))
             "<ul><li>one</li> <li>two<br></li></ul>")
  = verdict (toEqualLightHtml (fun s => Return s) noParser (RNode false (RootElement sampleList))
               "<ul><li>one</li> <li>two<br></li></ul>").
Proof.
  split; [reflexivity |].
  apply (html_matchers_agree_without_shadow (fun s => Return s) noParser false
           (RootElement sampleList)).
  reflexivity.
Defined.

Module Styles.

Lemma withoutShadowStyles_eq (e : Element) :
  withoutShadowStyles e
  = mkElement (localName e) (tagName e) (attributes e)
      (option_map (fun s => mkShadowRoot (delegatesFocus s) (withoutStyles (shadowChildNodes s)))
                  (shadowRoot e))
      (map withoutShadowStylesNode (childNodes e))
      (option_map (map withoutShadowStylesNode) (__childNodes e)).
Proof.
  destruct e as [ln tn attrs sh cn pcn].
  cbn [withoutShadowStyles localName tagName attributes shadowRoot childNodes __childNodes].
  f_equal.
  destruct sh as [[df l]|]; [|reflexivity].
  cbn [option_map delegatesFocus shadowChildNodes]. do 2 f_equal.
  induction l as [|n l IH]; [reflexivity|].
  unfold withoutStyles in *. cbn [flat_map]. rewrite <- IH.
  destruct n as [c|t|t|k]; cbn [isStyleElement withoutShadowStylesNode]; try reflexivity.
  now destruct (String.eqb _ _).
Qed.

Lemma tagName_kept (e : Element) : tagName (withoutShadowStyles e) = tagName e.
Proof. now rewrite withoutShadowStyles_eq. Qed.

Lemma shadow_children (ss : bool) (l : list Node) :
  Forall (onElements (fun e => serializeElement e true ss
                               = serializeElement (withoutShadowStyles e) false ss)) l ->
  String.concat EmptyString (map (serializeShadowChild true ss) l)
  = String.concat EmptyString (map (serializeShadowChild false ss) (withoutStyles l)).
Proof.
  induction 1 as [|n l Hn _ IH]; [reflexivity|].
  unfold withoutStyles in *. cbn [map flat_map].
  rewrite map_app, StrFacts.concat_nil_cons, StrFacts.concat_nil_app, IH. f_equal.
  destruct n as [c|t|t|k]; cbn [serializeShadowChild serializeChild isStyleElement
    withoutShadowStylesNode andb onElements] in *.
  all: try (cbn [map]; rewrite StrFacts.concat_nil_cons; now rewrite StrFacts.append_nil_r).
  destruct (String.eqb (Str.toLowerCase (tagName c)) "style") eqn:E; [reflexivity|].
  cbn [map serializeShadowChild andb]. rewrite StrFacts.concat_nil_cons.
  now rewrite StrFacts.append_nil_r.
Qed.

Lemma light_children (ss : bool) (l : list Node) :
  Forall (onElements (fun e => serializeElement e true ss
                               = serializeElement (withoutShadowStyles e) false ss)) l ->
  String.concat EmptyString (map (serializeChild true ss) l)
  = String.concat EmptyString (map (serializeChild false ss) (map withoutShadowStylesNode l)).
Proof.
  intros H. rewrite map_map. apply Tree.concat_map_ext. revert H. apply Forall_impl.
  intros [c|t|t|k] H; cbn in *; auto.
Qed.

Lemma styles_element (ss : bool) (e : Element) :
  serializeElement e true ss = serializeElement (withoutShadowStyles e) false ss.
Proof.
  induction e as [e Hc Hp Hs] using Element_tree_ind.
  rewrite !serializeElement_eq, withoutShadowStyles_eq.
  unfold shadowHtml, lightHtml, lightNodes, closingTag, attrsHtml, elementTagName,
    polyfillNodes, shadowNodes, shadowRootTag in *.
  cbn [localName tagName attributes shadowRoot childNodes __childNodes].
  apply light_children in Hc.
  destruct (shadowRoot e) as [s|], (__childNodes e) as [hidden|];
    cbn [option_map delegatesFocus shadowChildNodes];
    try apply light_children in Hp; try apply (shadow_children ss) in Hs;
    destruct ss; now rewrite ?Hc, ?Hp, ?Hs.
Qed.

End Styles.

(** X4.  [excludeStyles] removes exactly the [<style>] elements that are
    children of the shadow root of an element of the tree, the input
    element or one below it: serializing with it is serializing without it
    the tree from which those elements have been taken away.  A [<style>]
    stays when it is in the light DOM, when it lies deeper inside a shadow
    child, and when it is a child of the input itself, the input being a
    fragment or a shadow root: every element child of such an input is
    serialized, whatever its tag name. *)
Theorem excludeStyles_drops_shadow_style_children (element : Root) (ss : bool) :
  serializeElementWithShadow element true ss
  = serializeElementWithShadow (withoutShadowStylesRoot element) false ss
  /\ (forall (child : Element) (rest : list Node),
         serializeElementWithShadow (RootFragment (ElementNode child :: rest)) true ss
         = serializeElement child true ss
           ++ serializeElementWithShadow (RootFragment rest) true ss).
Proof.
  split.
  - destruct element as [e|l]; cbn [serializeElementWithShadow withoutShadowStylesRoot].
    + apply Styles.styles_element.
    + apply Styles.light_children. apply Forall_forall.
      intros [c|t|t|k] _; cbn; auto using Styles.styles_element.
  - intros child rest. cbn [serializeElementWithShadow map serializeChild].
    apply StrFacts.concat_nil_cons.
Qed.

(** A shadow root given to the serializer keeps its style sheet; the
    shadow root of an element that is given to it does not. *)
Example style_child_of_the_input :
  let style := ElementNode (mkElement (Some "style") "STYLE" (Some []) None
                              [TextNode ":host { display: block }"] None) in
  let button := ElementNode (mkElement (Some "button") "BUTTON" (Some []) None [] None) in
  serializeElementWithShadow (RootFragment [style; button]) true true
  = "<style>:host { display: block }</style><button></button>"
  /\ serializeElementWithShadow
       (RootElement (mkElement (Some "my-button") "MY-BUTTON" (Some [])
                       (Some (mkShadowRoot false [style; button])) [] None)) true true
     = "<my-button><mock:shadow-root><button></button></mock:shadow-root></my-button>".
Proof. split; reflexivity. Qed.

Module Nesting.

Lemma attrs (stack : list Frame) (l : list Attr) (rest : list Token) :
  nesting stack true (map TAttr l ++ rest)%list = nesting stack true rest.
Proof. induction l as [|a l IH]; [reflexivity | exact IH]. Qed.

Lemma text (stack : list Frame) (t : string) (rest : list Token) :
  nesting stack false (emitText t ++ rest)%list = nesting stack false rest.
Proof. unfold emitText. now destruct (Str.truthy t). Qed.

Lemma comment (stack : list Frame) (t : string) (rest : list Token) :
  nesting stack false (emitComment t ++ rest)%list = nesting stack false rest.
Proof. unfold emitComment. now destruct (Str.truthy t). Qed.

Lemma flat_map_neutral {A} (f : A -> list Token) (l : list A) :
  Forall (fun x => neutral (f x)) l -> neutral (flat_map f l).
Proof.
  induction 1 as [|x l Hx _ IH]; intros stack rest; [reflexivity|].
  cbn [flat_map]. now rewrite <- app_assoc, Hx, IH.
Qed.

Lemma children (xs ss : bool) (l : list Node) :
  Forall (onElements (fun e => neutral (emitElement e xs ss))) l ->
  Forall (fun n => neutral (emitChild xs ss n)) l.
Proof.
  apply Forall_impl. intros [c|t|t|k] H; cbn in *; auto.
  - intros stack rest. apply text.
  - intros stack rest. apply comment.
  - intros stack rest. reflexivity.
Qed.

Lemma shadowChildren (xs ss : bool) (l : list Node) :
  Forall (onElements (fun e => neutral (emitElement e xs ss))) l ->
  Forall (fun n => neutral (emitShadowChild xs ss n)) l.
Proof.
  intros H. apply children in H. revert H. apply Forall_impl.
  intros [c|t|t|k] H; cbn in *; auto.
  destruct (xs && _); [|assumption]. intros stack rest. reflexivity.
Qed.

Lemma element_neutral (xs ss : bool) (e : Element) : neutral (emitElement e xs ss).
Proof.
  induction e as [e Hc Hp Hs] using Element_tree_ind.
  assert (Hlight : neutral (flat_map (emitChild xs ss) (lightNodes e ss))).
  { apply flat_map_neutral, children. unfold lightNodes, polyfillNodes in *.
    destruct (__childNodes e); [|assumption]. now destruct ss. }
  assert (Hshadow : neutral (shadowTokens e xs ss)).
  { unfold shadowTokens, shadowNodes in *.
    destruct (shadowRoot e) as [s|]; [|intros stack rest; reflexivity].
    destruct ss; [|intros stack rest; reflexivity].
    intros stack rest. cbn [app nesting].
    rewrite <- app_assoc. rewrite (flat_map_neutral _ _ (shadowChildren _ _ _ Hs)).
    reflexivity. }
  intros stack rest. rewrite emitElement_eq.
  cbn [app nesting]. unfold attrTokens.
  rewrite <- !app_assoc.
  assert (Hattrs : forall st r,
            nesting st true (match attributes e with Some l => map TAttr l | None => [] end
                             ++ TOpenEnd :: r)%list = nesting st false r).
  { intros st r. destruct (attributes e); [now rewrite attrs | reflexivity]. }
  cbn [app]. rewrite Hattrs, <- !app_assoc, Hshadow, Hlight.
  unfold closingTokens.
  destruct (VOID_ELEMENTS_has (elementTagName e)); [reflexivity|].
  cbn [app nesting]. now rewrite String.eqb_refl.
Qed.

End Nesting.

(** X5.  The markup of an element is well nested: read as a sequence of
    tags, texts and comments, every closing tag and every closing shadow
    sentinel closes what was opened last, attributes stand between a tag
    name and its [>], void names are never closed, and at the end nothing
    is left open. *)
Theorem serialization_is_well_nested (e : Element) (xs ss : bool) :
  renderTokens (emitElement e xs ss) = serializeElement e xs ss /\
  nesting [] false (emitElement e xs ss) = Some [].
Proof.
  split; [apply serializeElement_trace |].
  rewrite <- (app_nil_r (emitElement e xs ss)). apply Nesting.element_neutral.
Qed.

(* ================================================================== *)
(** * Further properties of [normalizeHtml] *)
(* ================================================================== *)

Module Blank.

Lemma isBlank_iff (s : string) : isBlank s = true <-> trimStart s = EmptyString.
Proof. unfold isBlank. destruct (trimStart s); split; congruence. Qed.

Lemma cons_inv (c : ascii) (s : string) :
  isBlank (String c s) = true -> Str.isWhitespace c = true /\ isBlank s = true.
Proof.
  unfold isBlank. cbn [trimStart]. destruct (Str.isWhitespace c); [auto | discriminate].
Qed.

Lemma trimStart_app_blank (ws b : string) :
  isBlank ws = true -> trimStart (ws ++ b) = trimStart b.
Proof.
  induction ws as [|c ws IH]; [reflexivity |]. intros H.
  apply cons_inv in H as [Hc Hws]. cbn [append trimStart]. rewrite Hc. auto.
Qed.

Lemma trimStart_app (a x : string) :
  isBlank a = false -> trimStart (a ++ x) = trimStart a ++ x.
Proof.
  unfold isBlank. induction a as [|c a IH]; [discriminate |].
  cbn [append trimStart]. destruct (Str.isWhitespace c); [exact IH | reflexivity].
Qed.

Lemma spaces_app (a x : string) :
  isBlank a = false -> spaces (a ++ x) = spaces a.
Proof.
  unfold isBlank. induction a as [|c a IH]; [discriminate |].
  cbn [append trimStart spaces]. destruct (Str.isWhitespace c); [|reflexivity].
  intros H. now rewrite IH.
Qed.

Lemma length_trimStart_lt (c : ascii) (a : string) :
  String.length (trimStart a) < String.length (String c a).
Proof. pose proof (Norm.length_trimStart a). cbn [String.length]. lia. Qed.

(** A way to reason along the scan of [collapseSpaces] and [closeGaps]:
    from a string to any of its proper suffixes. *)
Lemma suffix_ind (P : string -> Prop) :
  (forall a, (forall a', String.length a' < String.length a -> P a') -> P a) ->
  forall a, P a.
Proof.
  intros step a.
  assert (H : forall n a, String.length a < n -> P a).
  { induction n as [|n IH]; intros a0 Hlen; [lia |].
    apply step. intros a' Ha'. apply IH. lia. }
  apply (H (S (String.length a))). lia.
Qed.

(** *** Whitespace runs *)

Lemma collapse_run (c : ascii) (ws b : string) :
  Str.isWhitespace c = true -> isBlank ws = true ->
  forall a, collapseSpaces (a ++ String c ws ++ b) = collapseSpaces (a ++ String " " b).
Proof.
  intros Hc Hws a. induction a as [a IH] using suffix_ind.
  destruct a as [|d a]; cbn [append].
  - rewrite (Norm.collapse_space c _ Hc), (Norm.collapse_space " " b eq_refl).
    now rewrite trimStart_app_blank.
  - destruct (Str.isWhitespace d) eqn:Hd.
    + rewrite !(Norm.collapse_space d _ Hd). f_equal.
      destruct (isBlank a) eqn:Ha.
      * rewrite !(trimStart_app_blank a) by assumption.
        cbn [trimStart]. rewrite Hc. cbn [Str.isWhitespace]. 
        now rewrite trimStart_app_blank.
      * rewrite !trimStart_app by assumption. apply IH, length_trimStart_lt.
    + rewrite !(Norm.collapse_char d _ Hd). f_equal. apply IH. cbn [String.length]. lia.
Qed.

Lemma collapse_app_char (c : ascii) (y : string) :
  Str.isWhitespace c = false ->
  forall a, collapseSpaces (a ++ String c y)
            = collapseSpaces a ++ String c (collapseSpaces y).
Proof.
  intros Hc a. induction a as [a IH] using suffix_ind.
  destruct a as [|d a]; cbn [append].
  - now rewrite (Norm.collapse_char c _ Hc).
  - destruct (Str.isWhitespace d) eqn:Hd.
    + rewrite !(Norm.collapse_space d _ Hd). cbn [append]. f_equal.
      destruct (isBlank a) eqn:Ha.
      * rewrite (trimStart_app_blank a) by assumption.
        apply isBlank_iff in Ha. rewrite Ha.
        cbn [trimStart]. rewrite Hc.
        now rewrite (Norm.collapse_char c _ Hc).
      * rewrite trimStart_app by assumption. apply IH, length_trimStart_lt.
    + rewrite !(Norm.collapse_char d _ Hd). cbn [append]. f_equal.
      apply IH. cbn [String.length]. lia.
Qed.

Lemma collapse_snoc (a : string) :
  collapseSpaces (a ++ " ") = collapseSpaces a
  \/ collapseSpaces (a ++ " ") = collapseSpaces a ++ " ".
Proof.
  induction a as [a IH] using suffix_ind.
  destruct a as [|d a]; cbn [append]; [now right |].
  destruct (Str.isWhitespace d) eqn:Hd.
  - rewrite !(Norm.collapse_space d _ Hd). cbn [append].
    destruct (isBlank a) eqn:Ha.
    + left. rewrite (trimStart_app_blank a) by assumption.
      apply isBlank_iff in Ha. now rewrite Ha.
    + rewrite trimStart_app by assumption.
      destruct (IH (trimStart a) (length_trimStart_lt d a)) as [E | E]; rewrite E; auto.
  - rewrite !(Norm.collapse_char d _ Hd). cbn [append].
    destruct (IH a) as [E | E]; [cbn [String.length]; lia | |]; rewrite E; auto.
Qed.

(** *** Gaps between tags *)

Lemma gap_app (c : ascii) (u x : string) :
  isBlank u = false ->
  re_gt_spaces_lt (String c (u ++ x)) = re_gt_spaces_lt (String c u).
Proof.
  intros Hu. unfold re_gt_spaces_lt.
  rewrite (spaces_app u x Hu), (trimStart_app u x Hu).
  unfold isBlank in Hu. destruct (trimStart u); [discriminate | reflexivity].
Qed.

Lemma gap_blank (c : ascii) (u x : string) :
  isBlank u = true ->
  match trimStart x with String d _ => Ascii.eqb d "<" | EmptyString => false end = false ->
  re_gt_spaces_lt (String c (u ++ x)) = None.
Proof.
  intros Hu Hx. unfold re_gt_spaces_lt.
  rewrite (trimStart_app_blank u x Hu).
  destruct (Ascii.eqb c ">"); [|reflexivity].
  destruct (spaces (u ++ x)); [reflexivity |].
  destruct (trimStart x); [reflexivity |]. now rewrite Hx.
Qed.

Lemma gap_blank_end (c : ascii) (u : string) :
  isBlank u = true -> re_gt_spaces_lt (String c u) = None.
Proof.
  intros Hu. unfold re_gt_spaces_lt. apply isBlank_iff in Hu. rewrite Hu.
  destruct (Ascii.eqb c ">"); [|reflexivity]. now destruct (spaces u).
Qed.

Lemma length_after_lt (c : ascii) (u w : string) :
  trimStart u = String "<" w -> String.length w < String.length (String c u).
Proof.
  intros H. pose proof (Norm.length_trimStart u) as Hlen.
  rewrite H in Hlen. cbn [String.length] in *. lia.
Qed.

Lemma gap_here (u x w : string) (n : nat) :
  isBlank u = false -> spaces u = S n -> trimStart u = String "<" w ->
  closeGaps (String ">" (u ++ x)) = String ">" (String "<" (closeGaps (w ++ x))).
Proof.
  intros Hu Hs Ht. apply (Norm.gaps_match (u ++ x) n (w ++ x)).
  - now rewrite spaces_app.
  - rewrite trimStart_app by assumption. now rewrite Ht.
Qed.

Lemma gaps_bridge (v : string) (u : string) :
  closeGaps (u ++ String ">" (String " " (String "<" v)))
  = closeGaps (u ++ String ">" (String "<" v)).
Proof.
  induction u as [u IH] using suffix_ind.
  destruct u as [|c u]; cbn [append].
  - rewrite (Norm.gaps_match (String " " (String "<" v)) 0 v) by reflexivity.
    rewrite (Norm.gaps_nomatch ">" (String "<" v)) by reflexivity.
    now rewrite (Norm.gaps_nomatch "<" v) by reflexivity.
  - destruct (isBlank u) eqn:Hu.
    + rewrite !Norm.gaps_nomatch by (apply gap_blank; [assumption | reflexivity]).
      f_equal. apply IH. cbn [String.length]. lia.
    + destruct (Norm.gap_cases c u) as [(n & w & -> & Hs & Ht) | Hnone].
      * rewrite !(gap_here u _ w n Hu Hs Ht).
        do 2 f_equal. apply IH. now apply (length_after_lt ">" u w).
      * rewrite !Norm.gaps_nomatch by (now rewrite gap_app).
        f_equal. apply IH. cbn [String.length]. lia.
Qed.

Lemma gaps_snoc (u : string) : closeGaps (u ++ " ") = closeGaps u ++ " ".
Proof.
  induction u as [u IH] using suffix_ind.
  destruct u as [|c u]; cbn [append]; [reflexivity |].
  destruct (isBlank u) eqn:Hu.
  - rewrite (Norm.gaps_nomatch c (u ++ " ")) by (apply gap_blank; [assumption | reflexivity]).
    rewrite (Norm.gaps_nomatch c u) by now apply gap_blank_end.
    cbn [append]. f_equal. apply IH. cbn [String.length]. lia.
  - destruct (Norm.gap_cases c u) as [(n & w & -> & Hs & Ht) | Hnone].
    + rewrite (gap_here u _ w n Hu Hs Ht).
      rewrite (Norm.gaps_match u n w) by assumption.
      cbn [append]. do 2 f_equal. apply IH. now apply (length_after_lt ">" u w).
    + rewrite (Norm.gaps_nomatch c (u ++ " ")) by (now rewrite gap_app).
      rewrite (Norm.gaps_nomatch c u) by assumption.
      cbn [append]. f_equal. apply IH. cbn [String.length]. lia.
Qed.

End Blank.

Module Ends.

Lemma trimEnd_snoc (z : string) : trimEnd (z ++ " ") = trimEnd z.
Proof.
  induction z as [|c z IH]; [reflexivity |].
  cbn [append]. now rewrite !Norm.trimEnd_cons, IH.
Qed.

Lemma trim_snoc (y : string) : trim (y ++ " ") = trim y.
Proof.
  unfold trim. destruct (isBlank y) eqn:Hy.
  - rewrite (Blank.trimStart_app_blank y) by assumption.
    apply Blank.isBlank_iff in Hy. now rewrite Hy.
  - rewrite Blank.trimStart_app by assumption. apply trimEnd_snoc.
Qed.

Lemma normalize_snoc (s : string) : normalizeHtml (s ++ " ") = normalizeHtml s.
Proof.
  rewrite !Norm.normalizeHtml_eq.
  destruct (Blank.collapse_snoc s) as [E | E]; rewrite E; [reflexivity |].
  now rewrite Blank.gaps_snoc, trim_snoc.
Qed.

Lemma normalize_cons (c : ascii) (s : string) :
  Str.isWhitespace c = true -> normalizeHtml (String c s) = normalizeHtml (trimStart s).
Proof.
  intros Hc. rewrite !Norm.normalizeHtml_eq, (Norm.collapse_space c s Hc).
  now rewrite (Norm.gaps_nomatch " " _) by reflexivity.
Qed.

Lemma normalize_trimStart (s : string) : normalizeHtml (trimStart s) = normalizeHtml s.
Proof.
  induction s as [|c s IH]; [reflexivity |].
  cbn [trimStart]. destruct (Str.isWhitespace c) eqn:Hc; [|reflexivity].
  now rewrite (normalize_cons c s Hc).
Qed.

Lemma normalize_run (c : ascii) (ws a b : string) :
  Str.isWhitespace c = true -> isBlank ws = true ->
  normalizeHtml (a ++ String c ws ++ b) = normalizeHtml (a ++ String " " b).
Proof.
  intros Hc Hws. rewrite !Norm.normalizeHtml_eq.
  now rewrite (Blank.collapse_run c ws b Hc Hws a).
Qed.

Lemma normalize_leading (ws s : string) :
  isBlank ws = true -> normalizeHtml (ws ++ s) = normalizeHtml s.
Proof.
  intros H. rewrite <- (normalize_trimStart (ws ++ s)).
  rewrite (Blank.trimStart_app_blank ws s H). apply normalize_trimStart.
Qed.

Lemma normalize_trailing (ws s : string) :
  isBlank ws = true -> normalizeHtml (s ++ ws) = normalizeHtml s.
Proof.
  destruct ws as [|c ws]; [now rewrite StrFacts.append_nil_r |].
  intros H. apply Blank.cons_inv in H as [Hc Hws].
  rewrite <- (StrFacts.append_nil_r ws).
  change (String c (ws ++ EmptyString)) with (String c ws ++ EmptyString).
  rewrite (normalize_run c ws s EmptyString Hc Hws). apply normalize_snoc.
Qed.

(** A string is its trimmed part between two blank strings. *)
Lemma trimStart_split (s : string) :
  exists ws, isBlank ws = true /\ s = ws ++ trimStart s.
Proof.
  induction s as [|c s (ws & Hws & E)]; [now exists EmptyString |].
  cbn [trimStart]. destruct (Str.isWhitespace c) eqn:Hc.
  - exists (String c ws). split.
    + unfold isBlank in *. cbn [trimStart]. now rewrite Hc.
    + cbn [append]. now rewrite <- E.
  - now exists EmptyString.
Qed.

Lemma trimEnd_split (s : string) :
  exists ws, isBlank ws = true /\ s = trimEnd s ++ ws.
Proof.
  induction s as [|c s (ws & Hws & E)]; [now exists EmptyString |].
  destruct (string_dec (trimEnd s) EmptyString) as [Hnil | Hmore].
  - rewrite (Norm.trimEnd_last c s Hnil).
    pose proof (Norm.trimEnd_nil s Hnil) as Hs.
    destruct (Str.isWhitespace c) eqn:Hc.
    + exists (String c s). split; [|reflexivity].
      unfold isBlank. cbn [trimStart]. now rewrite Hc, Hs.
    + exists s. split; [now apply Blank.isBlank_iff | reflexivity].
  - rewrite (Norm.trimEnd_more c s Hmore). exists ws. split; [assumption |].
    cbn [append]. now rewrite <- E.
Qed.

Lemma normalize_trimEnd (s : string) : normalizeHtml (trimEnd s) = normalizeHtml s.
Proof.
  destruct (trimEnd_split s) as (ws & Hws & E).
  rewrite E at 2. symmetry. now apply normalize_trailing.
Qed.

Lemma normalize_trim (s : string) : normalizeHtml (trim s) = normalizeHtml s.
Proof. unfold trim. now rewrite normalize_trimEnd, normalize_trimStart. Qed.

Lemma normalize_gap (a b : string) :
  normalizeHtml (a ++ String ">" (String " " (String "<" b)))
  = normalizeHtml (a ++ String ">" (String "<" b)).
Proof.
  rewrite !Norm.normalizeHtml_eq.
  rewrite !(Blank.collapse_app_char ">") by reflexivity.
  rewrite (Norm.collapse_space " " _ eq_refl).
  change (trimStart (String "<" b)) with (String "<" b).
  rewrite !(Norm.collapse_char "<" _ eq_refl).
  now rewrite Blank.gaps_bridge.
Qed.

End Ends.

(** X6.  The fixed points of [normalizeHtml] are exactly the strings in
    normal form: whitespace only as single spaces, none of them between
    [>] and [<], and none at either end. *)
Theorem normalizeHtml_fixed_points (s : string) :
  String.eqb (normalizeHtml s) s = isNormalHtml s.
Proof.
  unfold isNormalHtml.
  destruct (String.eqb (normalizeHtml s) s) eqn:E.
  - apply String.eqb_eq in E.
    destruct (Norm.normalizeHtml_normal s) as (H1 & H2 & H3 & H4).
    rewrite E in H1, H2, H3, H4.
    now rewrite H1, H2, H3, H4, String.eqb_refl.
  - symmetry. apply not_true_is_false. intros H.
    rewrite !andb_true_iff in H. destruct H as [[[H1 H2] H3] H4].
    apply Nat.eqb_eq in H3. apply String.eqb_eq in H4.
    rewrite (Norm.normalizeHtml_fixed s H1 H2 H3 H4), String.eqb_refl in E.
    discriminate.
Qed.

(** X7.  The width and the kind of a whitespace run do not matter: any
    non-empty run of tabs, line breaks and spaces anywhere in the input
    normalizes like a single space. *)
Theorem whitespace_run_counts_as_one_space (c : ascii) (ws a b : string) :
  Str.isWhitespace c = true -> isBlank ws = true ->
  normalizeHtml (a ++ String c ws ++ b) = normalizeHtml (a ++ " " ++ b).
Proof. exact (Ends.normalize_run c ws a b). Qed.

Lemma whitespace_run_counts_as_one_space_witness :
  normalizeHtml ("<p>Hello," ++ String "010" "    " ++ "world</p>")
  = normalizeHtml ("<p>Hello," ++ " " ++ "world</p>").
Proof.
  apply (whitespace_run_counts_as_one_space "010" "    " "<p>Hello," "world</p>");
    reflexivity.
Defined.

(** X8.  Whitespace between the end of one tag and the start of the next
    does not matter: [>], any whitespace, [<] normalizes like [><]. *)
Theorem whitespace_between_tags_is_dropped (ws a b : string) :
  isBlank ws = true ->
  normalizeHtml (a ++ ">" ++ ws ++ "<" ++ b) = normalizeHtml (a ++ "><" ++ b).
Proof.
  intros Hws. destruct ws as [|c ws]; [reflexivity |].
  apply Blank.cons_inv in Hws as [Hc Hws].
  rewrite <- (StrFacts.append_assoc a ">").
  rewrite (Ends.normalize_run c ws (a ++ ">") ("<" ++ b) Hc Hws).
  rewrite StrFacts.append_assoc. apply Ends.normalize_gap.
Qed.

Lemma whitespace_between_tags_is_dropped_witness :
  normalizeHtml ("<ul" ++ ">" ++ String "010" "  " ++ "<" ++ "li>one</li></ul>")
  = normalizeHtml ("<ul" ++ "><" ++ "li>one</li></ul>").
Proof.
  apply (whitespace_between_tags_is_dropped (String "010" "  ") "<ul" "li>one</li></ul>").
  reflexivity.
Defined.

(** X9.  Whitespace before and after the markup does not matter. *)
Theorem surrounding_whitespace_is_dropped (before after s : string) :
  isBlank before = true -> isBlank after = true ->
  normalizeHtml (before ++ s ++ after) = normalizeHtml s.
Proof.
  intros H1 H2. rewrite (Ends.normalize_leading before _ H1).
  now apply Ends.normalize_trailing.
Qed.

Lemma surrounding_whitespace_is_dropped_witness :
  normalizeHtml (String "010" "  " ++ "<b>x</b>" ++ String "010" EmptyString)
  = normalizeHtml "<b>x</b>".
Proof.
  apply (surrounding_whitespace_is_dropped (String "010" "  ") (String "010" EmptyString)
           "<b>x</b>"); reflexivity.
Defined.

(** X10.  [toEqualHtml] and [toEqualLightHtml] compare normal forms.  On
    a node that is not promise-like they throw what [serializeHtml] throws
    on it, which prettifies by default; on a string they throw what
    parsing it throws.  Otherwise they return, and pass exactly when the
    serialized (or parsed) markup and the expected string normalize to the
    same string.  The [trim] applied to the expected string changes
    nothing. *)
Theorem html_matchers_compare_normal_forms
  (prettifyHtml : string -> Completion string)
  (parseHtmlFragment : string -> Completion (option string * option string))
  (expected : string) :
  (forall n,
      verdict (toEqualHtml prettifyHtml parseHtmlFragment (RNode false n) expected)
      = (html <- serializeHtml prettifyHtml (InputNode n)
                   (mkSerializeOptions (Some true) None None) ;;
         Return (String.eqb (normalizeHtml html) (normalizeHtml expected)))) /\
  (forall n,
      verdict (toEqualLightHtml prettifyHtml parseHtmlFragment (RNode false n) expected)
      = (html <- serializeHtml prettifyHtml (InputNode n)
                   (mkSerializeOptions (Some false) None None) ;;
         Return (String.eqb (normalizeHtml html) (normalizeHtml expected)))) /\
  (forall s,
      verdict (toEqualHtml prettifyHtml parseHtmlFragment (RString s) expected)
      = (html <- fragmentHtml parseHtmlFragment s ;;
         Return (String.eqb (normalizeHtml html) (normalizeHtml expected)))) /\
  (forall s,
      verdict (toEqualLightHtml prettifyHtml parseHtmlFragment (RString s) expected)
      = (html <- fragmentHtml parseHtmlFragment s ;;
         Return (String.eqb (normalizeHtml html) (normalizeHtml expected)))).
Proof.
  unfold verdict, toEqualHtml, toEqualLightHtml.
  cbn [isThenable]. rewrite (Ends.normalize_trim expected).
  repeat split; intros x.
  - now destruct (serializeHtml _ _ _).
  - now destruct (serializeHtml _ _ _).
  - now destruct (fragmentHtml _ _).
  - now destruct (fragmentHtml _ _).
Qed.

(* ================================================================== *)
(** * Further properties of the event spies *)
(* ================================================================== *)

Module Registry.

Lemma run_snoc (actions : list Action) (a : Action) :
  run (actions ++ [a]) = step (run actions) a.
Proof. unfold run. now rewrite fold_left_app. Qed.

Lemma setSpy_Forall (P : EventSpy -> Prop) (a : nat) (x : EventSpy) (l : list EventSpy) :
  Forall P l -> P x -> Forall P (setSpy a x l).
Proof.
  intros Hl Hx. revert a. induction Hl as [|y l Hy Hl IH]; intros [|a]; cbn [setSpy];
    constructor; auto.
Qed.

Lemma tracked_listener (spy : EventSpy) (e : CustomEvent) :
  tracked spy -> tracked (fst (listener spy e)).
Proof.
  intros (Hlen & Hfirst & Hlast). rewrite Spy.listener_eq. cbn [fst].
  unfold tracked. cbn [spyLength events firstEvent lastEvent].
  rewrite length_app. cbn [List.length]. repeat split.
  - destruct (events spy) as [|x l]; cbn [app List.length Nat.add].
    + reflexivity.
    + destruct (Z.eqb_spec (Z.of_nat (S (List.length l + 1))) 1); [lia |].
      now rewrite Hfirst.
  - rewrite nth_error_app2 by lia.
    now replace (_ - _) with 0 by lia.
Qed.

Lemma ownEvents_listener (spy : EventSpy) (e : CustomEvent) :
  eventType e = eventName spy -> ownEvents spy -> ownEvents (fst (listener spy e)).
Proof.
  intros He H. rewrite Spy.listener_eq. cbn [fst]. unfold ownEvents in *.
  cbn [events eventName]. apply Forall_app. split; [assumption | now constructor].
Qed.

Lemma eventName_listener (spy : EventSpy) (e : CustomEvent) :
  eventName (fst (listener spy e)) = eventName spy.
Proof. now rewrite Spy.listener_eq. Qed.

Lemma runListener_names (b : nat) (e : CustomEvent)
  (acc : list EventSpy * list (nat * Write)) (a : nat) :
  option_map eventName (nth_error (fst (runListener b e acc)) a)
  = option_map eventName (nth_error (fst acc) a).
Proof.
  unfold runListener. destruct (nth_error (fst acc) b) as [spy|] eqn:E; [|reflexivity].
  pose proof (eventName_listener spy e) as Hname.
  destruct (listener spy e) as [spy' writes]. cbn [fst snd] in *.
  destruct (Nat.eq_dec b a) as [-> | Hne].
  - rewrite Spy.setSpy_same by (apply nth_error_Some; congruence).
    rewrite E. cbn [option_map]. now rewrite Hname.
  - now rewrite Spy.setSpy_other.
Qed.

Lemma runListener_good (b : nat) (e : CustomEvent)
  (acc : list EventSpy * list (nat * Write)) :
  Forall (fun spy => tracked spy /\ ownEvents spy) (fst acc) ->
  option_map eventName (nth_error (fst acc) b) = Some (eventType e) ->
  Forall (fun spy => tracked spy /\ ownEvents spy) (fst (runListener b e acc)).
Proof.
  intros Hall Hname. unfold runListener.
  destruct (nth_error (fst acc) b) as [spy|] eqn:E; [|assumption].
  cbn [option_map] in Hname.
  pose proof (tracked_listener spy e) as Ht.
  pose proof (ownEvents_listener spy e) as Ho.
  destruct (listener spy e) as [spy' writes]. cbn [fst snd] in *.
  assert (Hspy : tracked spy /\ ownEvents spy).
  { rewrite Forall_forall in Hall. apply Hall. eapply nth_error_In; eauto. }
  apply setSpy_Forall; [assumption |]. split; [tauto |].
  apply Ho; [congruence | tauto].
Qed.

Lemma fold_names (e : CustomEvent) (a : nat) :
  forall (called : list (nat * string * nat)) (acc : list EventSpy * list (nat * Write)),
    option_map eventName
      (nth_error (fst (fold_left (fun acc l => runListener (snd l) e acc) called acc)) a)
    = option_map eventName (nth_error (fst acc) a).
Proof.
  induction called as [|l called IH]; intros acc; [reflexivity |].
  cbn [fold_left]. now rewrite IH, runListener_names.
Qed.

Lemma fold_length (e : CustomEvent) :
  forall (called : list (nat * string * nat)) (acc : list EventSpy * list (nat * Write)),
    List.length (fst (fold_left (fun acc l => runListener (snd l) e acc) called acc))
    = List.length (fst acc).
Proof.
  induction called as [|l called IH]; intros acc; [reflexivity |].
  cbn [fold_left]. now rewrite IH, runListener_length.
Qed.

Lemma fold_good (e : CustomEvent) :
  forall (called : list (nat * string * nat)) (acc : list EventSpy * list (nat * Write)),
    Forall (fun spy => tracked spy /\ ownEvents spy) (fst acc) ->
    Forall (fun l => option_map eventName (nth_error (fst acc) (snd l))
                     = Some (eventType e)) called ->
    Forall (fun spy => tracked spy /\ ownEvents spy)
      (fst (fold_left (fun acc l => runListener (snd l) e acc) called acc)).
Proof.
  induction called as [|l called IH]; intros acc Hall Hnames; [assumption |].
  inversion Hnames as [|? ? Hl Hrest]; subst. cbn [fold_left].
  apply IH; [now apply runListener_good |].
  revert Hrest. apply Forall_impl. intros l' H. now rewrite runListener_names.
Qed.

(** The three members of the state after a dispatch. *)
Lemma dispatchEvent_eq (c : nat) (e : CustomEvent) (st : RenderState) :
  let called := filter (fun l => Nat.eqb (fst (fst l)) c
                                 && String.eqb (snd (fst l)) (eventType e)) (listeners st) in
  spies (fst (dispatchEvent c e st))
  = fst (fold_left (fun acc l => runListener (snd l) e acc) called (spies st, []))
  /\ eventSpies (fst (dispatchEvent c e st)) = eventSpies st
  /\ listeners (fst (dispatchEvent c e st)) = listeners st.
Proof.
  cbn zeta. unfold dispatchEvent.
  destruct (fold_left _ _ _) as [spies' log]. now repeat split.
Qed.

Lemma invariant_initial : registryInvariant initialState.
Proof.
  repeat split; try constructor. intros c l H. discriminate.
Qed.

Lemma listeners_length (st : RenderState) :
  registryInvariant st -> List.length (listeners st) = List.length (spies st).
Proof.
  intros (H & _). apply (f_equal (@List.length nat)) in H.
  now rewrite length_map, length_seq in H.
Qed.

Lemma invariant_dispatchEvent (c : nat) (e : CustomEvent) (st : RenderState) :
  registryInvariant st -> registryInvariant (fst (dispatchEvent c e st)).
Proof.
  intros (Haddr & Hgood & Hlisteners & Hmap).
  destruct (dispatchEvent_eq c e st) as (Hs & Hm & Hl).
  unfold registryInvariant. rewrite Hs, Hm, Hl. repeat split.
  - now rewrite fold_length.
  - apply fold_good; [assumption |]. cbn [fst].
    apply Forall_forall. intros l Hin. apply filter_In in Hin as [Hin Hsel].
    apply andb_true_iff in Hsel as [_ Hname]. apply String.eqb_eq in Hname.
    rewrite Forall_forall in Hlisteners. destruct (Hlisteners l Hin) as [H _].
    now rewrite H, Hname.
  - revert Hlisteners. apply Forall_impl. intros l [H1 H2].
    split; [now rewrite fold_names | assumption].
  - assumption.
Qed.

Lemma invariant_spyOnEvent (c : nat) (name : string) (st : RenderState) :
  registryInvariant st -> registryInvariant (snd (spyOnEvent c name st)).
Proof.
  intros Hinv. pose proof (listeners_length st Hinv) as Hlen.
  destruct Hinv as (Haddr & Hgood & Hlisteners & Hmap).
  unfold spyOnEvent. destruct (eventSpies st c) as [l|] eqn:E; [now repeat split |].
  cbn [snd spies eventSpies listeners]. rewrite E. cbn [app].
  unfold registryInvariant. cbn [spies eventSpies listeners]. repeat split.
  - rewrite map_app, length_app, Haddr. cbn [map snd List.length].
    now rewrite Nat.add_1_r, seq_S.
  - apply Forall_app. split; [assumption |].
    constructor; [|constructor]. split; [now repeat split | constructor].
  - apply Forall_app. split.
    + revert Hlisteners. apply Forall_impl. intros l [H1 H2]. split.
      * destruct (nth_error (spies st) (snd l)) as [spy|] eqn:En; [|discriminate].
        rewrite nth_error_app1 by (apply nth_error_Some; congruence). now rewrite En.
      * unfold setEventSpies. destruct (Nat.eqb_spec (fst (fst l)) c) as [Heq | _];
          [rewrite Heq in H2; congruence | assumption].
    + constructor; [|constructor]. cbn [fst snd]. split.
      * rewrite nth_error_app2 by lia. now rewrite Nat.sub_diag.
      * unfold setEventSpies. now rewrite Nat.eqb_refl.
  - intros c0 l0. unfold setEventSpies.
    destruct (Nat.eqb_spec c0 c) as [-> | _].
    + intros H. injection H as <-. exists name, (List.length (spies st)).
      split; [reflexivity |]. apply in_or_app. right. now left.
    + intros H. destruct (Hmap c0 l0 H) as (n0 & a0 & -> & Hin).
      exists n0, a0. split; [reflexivity |]. apply in_or_app. now left.
Qed.

Lemma invariant_run (actions : list Action) : registryInvariant (run actions).
Proof.
  induction actions as [|a actions IH] using rev_ind; [apply invariant_initial |].
  rewrite run_snoc. destruct a as [c name | c e]; cbn [step].
  - now apply invariant_spyOnEvent.
  - now apply invariant_dispatchEvent.
Qed.

Lemma NoDup_map_filter {A B} (g : A -> B) (f : A -> bool) (l : list A) :
  NoDup (map g l) -> NoDup (map g (filter f l)).
Proof.
  induction l as [|x l IH]; cbn [map filter]; [auto |].
  intros H. inversion H as [|? ? Hnotin Hrest]; subst.
  destruct (f x); cbn [map]; [constructor |]; auto.
  intros Hin. apply Hnotin. apply in_map_iff in Hin as (y & Hy & Hin).
  apply filter_In in Hin as [Hin _]. apply in_map_iff. eauto.
Qed.

Lemma NoDup_map_inj {A B} (g : A -> B) (l : list A) (x y : A) :
  NoDup (map g l) -> In x l -> In y l -> g x = g y -> x = y.
Proof.
  induction l as [|z l IH]; [contradiction |]. cbn [map].
  intros H. inversion H as [|? ? Hnotin Hrest]; subst.
  intros [-> | Hx] [-> | Hy] E; auto.
  - exfalso. apply Hnotin. rewrite E. now apply in_map.
  - exfalso. apply Hnotin. rewrite <- E. now apply in_map.
Qed.

Lemma addresses_NoDup (st : RenderState) :
  registryInvariant st -> NoDup (map snd (listeners st)).
Proof. intros (H & _). rewrite H. apply seq_NoDup. Qed.

Lemma listenersOn_short (c : nat) (st : RenderState) :
  registryInvariant st -> List.length (listenersOn c st) <= 1.
Proof.
  intros Hinv. pose proof (addresses_NoDup st Hinv) as Hnd.
  destruct Hinv as (_ & _ & Hlisteners & _).
  apply (NoDup_map_filter snd (fun l => Nat.eqb (fst (fst l)) c)) in Hnd.
  assert (Hsame : forall l, In l (listenersOn c st) -> eventSpies st c = Some [snd l]).
  { intros l Hin. apply filter_In in Hin as [Hin Hc]. apply Nat.eqb_eq in Hc.
    rewrite Forall_forall in Hlisteners. destruct (Hlisteners l Hin) as [_ H].
    now rewrite Hc in H. }
  fold (listenersOn c st) in Hnd.
  destruct (listenersOn c st) as [|x [|y r]]; cbn [List.length]; [lia | lia |].
  exfalso. cbn [map] in Hnd. inversion Hnd as [|? ? Hnotin _]; subst.
  apply Hnotin. left.
  assert (Hx := Hsame x (or_introl eq_refl)).
  assert (Hy := Hsame y (or_intror (or_introl eq_refl))).
  congruence.
Qed.

(** The spy [spyOnEvent] returns is the spy of a listener registered on
    the target for the name asked for. *)
Lemma created_listener (c : nat) (name : string) (st : RenderState) (a : nat) :
  registryInvariant st ->
  fst (spyOnEvent c name st) = Some a ->
  In (c, name, a) (listeners (snd (spyOnEvent c name st))).
Proof.
  intros (_ & _ & Hlisteners & Hmap). unfold spyOnEvent.
  destruct (eventSpies st c) as [l|] eqn:E; cbn [fst snd listeners].
  - destruct (Hmap c l E) as (n0 & a0 & -> & Hin). cbn [find].
    unfold spyHasName. rewrite Forall_forall in Hlisteners.
    destruct (Hlisteners _ Hin) as [Hname _]. cbn [fst snd] in Hname.
    destruct (nth_error (spies st) a0) as [spy|]; [|discriminate].
    cbn [option_map] in Hname.
    destruct (String.eqb_spec (eventName spy) name) as [Heq | _]; [|discriminate].
    intros H. injection H as <-. congruence.
  - intros H. injection H as <-. apply in_or_app. right. now left.
Qed.

Lemma dispatch_elsewhere (c : nat) (name : string) (a : nat) (c' : nat) (e : CustomEvent)
  (st : RenderState) :
  registryInvariant st ->
  In (c, name, a) (listeners st) ->
  c' <> c \/ eventType e <> name ->
  nth_error (spies (fst (dispatchEvent c' e st))) a = nth_error (spies st) a.
Proof.
  intros Hinv Hin Hother. pose proof (addresses_NoDup st Hinv) as Hnd.
  destruct (dispatchEvent_eq c' e st) as (Hs & _ & _). rewrite Hs.
  apply (Spy.runListeners_other a (fun _ => true) e _ (spies st, [])).
  apply Forall_forall. intros l Hl Ha. apply filter_In in Hl as [Hl Hsel].
  assert (l = (c, name, a)) as -> by (apply (NoDup_map_inj snd (listeners st)); auto).
  cbn [fst snd] in Hsel. apply andb_true_iff in Hsel as [Hc Hn].
  apply Nat.eqb_eq in Hc. apply String.eqb_eq in Hn. destruct Hother; congruence.
Qed.

Lemma singleton {A B} (g : A -> B) (l : list A) (x : A) :
  NoDup (map g l) -> In x l -> (forall y, In y l -> y = x) -> l = [x].
Proof.
  intros Hnd Hin Hall. destruct l as [|y [|z r]]; [contradiction | |].
  - now rewrite (Hall y (or_introl eq_refl)).
  - exfalso. cbn [map] in Hnd. inversion Hnd as [|? ? Hnotin _]; subst.
    apply Hnotin. left.
    now rewrite (Hall y (or_introl eq_refl)), (Hall z (or_intror (or_introl eq_refl))).
Qed.

(** An event of the spy's name dispatched on the spy's target runs the
    listener of the spy, once. *)
Lemma dispatch_here (c : nat) (name : string) (a : nat) (e : CustomEvent)
  (st : RenderState) (spy : EventSpy) :
  registryInvariant st ->
  In (c, name, a) (listeners st) ->
  eventType e = name ->
  nth_error (spies st) a = Some spy ->
  nth_error (spies (fst (dispatchEvent c e st))) a = Some (fst (listener spy e)).
Proof.
  intros Hinv Hin Htype Hspy. pose proof (addresses_NoDup st Hinv) as Hnd.
  destruct (dispatchEvent_eq c e st) as (Hs & _ & _). rewrite Hs.
  set (sel := fun l : nat * string * nat =>
                Nat.eqb (fst (fst l)) c && String.eqb (snd (fst l)) (eventType e)).
  assert (Hcalled : filter sel (listeners st) = [(c, name, a)]).
  { apply (singleton snd).
    - now apply NoDup_map_filter.
    - apply filter_In. split; [assumption |]. unfold sel. cbn [fst snd].
      now rewrite Nat.eqb_refl, Htype, String.eqb_refl.
    - intros l Hl. apply filter_In in Hl as [Hl Hsel].
      apply andb_true_iff in Hsel as [Hc _]. apply Nat.eqb_eq in Hc.
      apply (NoDup_map_inj snd (listeners st)); auto.
      destruct Hinv as (_ & _ & Hlisteners & _). rewrite Forall_forall in Hlisteners.
      destruct (Hlisteners _ Hl) as [_ H1]. destruct (Hlisteners _ Hin) as [_ H2].
      cbn [fst snd] in *. rewrite Hc in H1. congruence. }
  fold sel. rewrite Hcalled. cbn [fold_left snd]. unfold runListener. cbn [fst].
  rewrite Hspy. destruct (listener spy e) as [spy' writes]. cbn [fst].
  apply Spy.setSpy_same. apply nth_error_Some. congruence.
Qed.

Lemma observed_snoc (c : nat) (actions : list Action) (a : Action) :
  observed c (actions ++ [a]) = observe c (observed c actions) a.
Proof. unfold observed. now rewrite fold_left_app. Qed.

(** The listener of the spy recorded for a target. *)
Lemma spy_listener (st : RenderState) (c a : nat) (spy : EventSpy) :
  registryInvariant st ->
  eventSpies st c = Some [a] ->
  nth_error (spies st) a = Some spy ->
  In (c, eventName spy, a) (listeners st).
Proof.
  intros (_ & _ & Hlisteners & Hmap) Hc Hspy.
  destruct (Hmap c _ Hc) as (name & a' & Heq & Hin). injection Heq as <-.
  rewrite Forall_forall in Hlisteners. destruct (Hlisteners _ Hin) as [Hname _].
  cbn [fst snd] in Hname. rewrite Hspy in Hname. cbn [option_map] in Hname.
  injection Hname as ->. assumption.
Qed.

Lemma agrees_spyOnEvent (st : RenderState) (c0 : nat) (name0 : string) (c : nat)
  (seen : option string * list CustomEvent) :
  registryInvariant st ->
  agrees st c seen ->
  agrees (snd (spyOnEvent c0 name0 st)) c (observe c seen (CallSpyOnEvent c0 name0)).
Proof.
  intros Hinv. unfold agrees, spyOnEvent. cbn [observe fst snd].
  destruct (eventSpies st c0) as [l0|] eqn:E0; cbn [snd eventSpies spies].
  - destruct (fst seen) as [name|]; [auto |].
    destruct (Nat.eqb_spec c0 c) as [-> | _]; [now rewrite E0 | auto].
  - rewrite E0. cbn [app]. unfold setEventSpies.
    destruct (Nat.eqb_spec c c0) as [-> | Hne].
    + rewrite E0. destruct (fst seen) as [name|]; [contradiction |].
      rewrite Nat.eqb_refl. intros Hnil.
      exists (mkEventSpy name0 [] None None 0).
      rewrite nth_error_app2, Nat.sub_diag by lia. now repeat split.
    + destruct (fst seen) as [name|].
      * destruct (eventSpies st c) as [[|a [|]]|]; try contradiction.
        intros (spy & Hspy & Hrest). exists spy. split; [|assumption].
        rewrite nth_error_app1; [assumption |]. apply nth_error_Some. congruence.
      * destruct (Nat.eqb_spec c0 c) as [-> | _]; [congruence | auto].
Qed.

Lemma agrees_dispatchEvent (st : RenderState) (c0 : nat) (e : CustomEvent) (c : nat)
  (seen : option string * list CustomEvent) :
  registryInvariant st ->
  agrees st c seen ->
  agrees (fst (dispatchEvent c0 e st)) c (observe c seen (CallDispatchEvent c0 e)).
Proof.
  intros Hinv. unfold agrees. cbn [observe fst snd].
  destruct (dispatchEvent_eq c0 e st) as (_ & Hm & _). rewrite Hm.
  destruct (fst seen) as [name|].
  - destruct (eventSpies st c) as [[|a [|]]|] eqn:Ec; try contradiction.
    intros (spy & Hspy & Hname & Hevents).
    pose proof (spy_listener st c a spy Hinv Ec Hspy) as Hin. rewrite Hname in Hin.
    destruct (Nat.eqb_spec c0 c) as [-> | Hne]; cbn [andb].
    + destruct (String.eqb_spec name (eventType e)) as [Heq | Hneq].
      * exists (fst (listener spy e)).
        rewrite (dispatch_here c name a e st spy Hinv Hin (eq_sym Heq) Hspy).
        rewrite Spy.listener_eq. cbn [fst eventName events]. now rewrite Hevents.
      * exists spy. rewrite app_nil_r.
        rewrite (dispatch_elsewhere c name a c e st Hinv Hin); [auto |].
        right. congruence.
    + exists spy. rewrite app_nil_r.
      rewrite (dispatch_elsewhere c name a c0 e st Hinv Hin); auto.
  - destruct (eventSpies st c); [contradiction |]. rewrite andb_false_r.
    now rewrite app_nil_r.
Qed.

Lemma agrees_run (actions : list Action) (c : nat) :
  agrees (run actions) c (observed c actions).
Proof.
  induction actions as [|a actions IH] using rev_ind; [reflexivity |].
  rewrite run_snoc, observed_snoc. pose proof (invariant_run actions) as Hinv.
  destruct a as [c0 name0 | c0 e]; cbn [step].
  - now apply agrees_spyOnEvent.
  - now apply agrees_dispatchEvent.
Qed.

End Registry.

(** X11.  Whatever sequence of [spyOnEvent] calls and dispatched events a
    test performs, every spy is consistent at every moment: its [length] is
    the number of its events, [firstEvent] is [events[0]], [lastEvent] is
    [events[length - 1]], and every event it holds has the spy's event
    name. *)
Theorem spies_stay_tracked (actions : list Action) :
  Forall (fun spy => tracked spy /\ ownEvents spy) (spies (run actions)).
Proof. now destruct (Registry.invariant_run actions) as (_ & H & _). Qed.

(** X12.  A render target never has more than one spy, and its element
    never more than one listener added by [spyOnEvent], whatever names are
    asked for and in whatever order.  This is the code as it stands: it
    follows from the early return of [spyOnEvent] (lines 686-688), by which
    a second event name on the same target gets no spy (C2). *)
Theorem one_spy_per_render_target (actions : list Action) (container : nat) :
  match eventSpies (run actions) container with
  | Some spiesForElement => List.length spiesForElement = 1
  | None => True
  end
  /\ List.length (listenersOn container (run actions)) <= 1.
Proof.
  pose proof (Registry.invariant_run actions) as Hinv. split.
  - destruct Hinv as (_ & _ & _ & Hmap).
    destruct (eventSpies (run actions) container) as [l|] eqn:E; [|exact I].
    now destruct (Hmap _ _ E) as (n & a & -> & _).
  - now apply Registry.listenersOn_short.
Qed.

(** X13.  A spy records nothing from elsewhere: after [spyOnEvent] has
    returned a spy for a target and a name, an event dispatched on another
    target, or an event of another type, leaves that spy as it was. *)
Theorem spy_ignores_other_targets_and_names
  (actions : list Action) (c : nat) (name : string) (a : nat) (c' : nat) (e : CustomEvent) :
  let created := spyOnEvent c name (run actions) in
  fst created = Some a ->
  c' <> c \/ eventType e <> name ->
  nth_error (spies (fst (dispatchEvent c' e (snd created)))) a
  = nth_error (spies (snd created)) a.
Proof.
  cbn zeta. intros Hspy Hother.
  pose proof (Registry.invariant_run actions) as Hinv.
  apply (Registry.dispatch_elsewhere c name a c' e).
  - now apply Registry.invariant_spyOnEvent.
  - now apply Registry.created_listener.
  - assumption.
Qed.

Lemma spy_ignores_other_targets_and_names_witness :
  nth_error
    (spies (fst (dispatchEvent 1 click2
                   (snd (spyOnEvent 0 "buttonClick"
                           (run [CallSpyOnEvent 0 "buttonClick";
                                 CallDispatchEvent 0 click1])))))) 0
  = nth_error
      (spies (snd (spyOnEvent 0 "buttonClick"
                     (run [CallSpyOnEvent 0 "buttonClick"; CallDispatchEvent 0 click1])))) 0.
Proof.
  apply (spy_ignores_other_targets_and_names
           [CallSpyOnEvent 0 "buttonClick"; CallDispatchEvent 0 click1]
           0 "buttonClick" 0 1 click2).
  - reflexivity.
  - left. lia.
Defined.

(** X27.  A spy holds exactly what an observer of the calls expects: the
    spy of a render target has the event name first asked for on that
    target, and its [events] are the events of that name dispatched on the
    target since, in order, whatever else was spied on or dispatched in
    between.  A target nobody asked a spy for has none.  That a target has
    one spy, for the name first asked for, is the code as it stands (C2). *)
Theorem spy_holds_the_events_of_its_target (actions : list Action) (container : nat) :
  agrees (run actions) container (observed container actions).
Proof. apply Registry.agrees_run. Qed.

(** X28.  The counting matchers report what happened: for the spy of a
    render target, after any sequence of calls, [toHaveReceivedEventTimes]
    passes for exactly one count, the number of events of the spy's name
    dispatched on the target since the spy was created, and
    [toHaveReceivedEvent] passes exactly when there was such an event.  The
    spy of a target is the only one it has, as the code stands (C2). *)
Theorem counting_matchers_count_the_dispatched_events
  (actions : list Action) (container a : nat) (spy : EventSpy) (count : Z) :
  eventSpies (run actions) container = Some [a] ->
  nth_error (spies (run actions)) a = Some spy ->
  let dispatched := List.length (snd (observed container actions)) in
  pass (toHaveReceivedEventTimes spy count) = (Z.of_nat dispatched =? count)%Z
  /\ pass (toHaveReceivedEvent spy) = negb (Nat.eqb dispatched 0).
Proof.
  intros Hc Hspy. cbn zeta.
  pose proof (Registry.agrees_run actions container) as Hagree.
  unfold agrees in Hagree. rewrite Hc in Hagree.
  destruct (fst (observed container actions)) as [name|]; [|contradiction].
  destruct Hagree as (spy' & Hspy' & _ & Hevents).
  rewrite Hspy in Hspy'. injection Hspy' as <-.
  pose proof (Registry.invariant_run actions) as (_ & Hgood & _).
  rewrite Forall_forall in Hgood.
  destruct (Hgood spy (nth_error_In _ _ Hspy)) as [(Hlen & _) _].
  unfold toHaveReceivedEventTimes, toHaveReceivedEvent. cbn [pass].
  rewrite Hlen, Hevents. split; [reflexivity |].
  destruct (snd (observed container actions)); reflexivity.
Qed.

Lemma counting_matchers_count_the_dispatched_events_witness :
  pass (toHaveReceivedEventTimes
          (mkEventSpy "buttonClick" [click1; click2] (Some click1) (Some click2) 2) 2)
  = (Z.of_nat (List.length
                 (snd (observed 0 [CallSpyOnEvent 0 "buttonClick"; CallDispatchEvent 1 click3;
                                   CallDispatchEvent 0 click1; CallSpyOnEvent 0 "valueChange";
                                   CallDispatchEvent 0 click2]))) =? 2)%Z.
Proof.
  apply (counting_matchers_count_the_dispatched_events
           [CallSpyOnEvent 0 "buttonClick"; CallDispatchEvent 1 click3;
            CallDispatchEvent 0 click1; CallSpyOnEvent 0 "valueChange";
            CallDispatchEvent 0 click2]
           0 0 (mkEventSpy "buttonClick" [click1; click2] (Some click1) (Some click2) 2) 2);
    reflexivity.
Defined.

(** X14.  On a consistent spy the detail matchers for the first and the
    last event are the matcher for the event at index [0] and at index
    [length - 1]: same verdict for every expected payload, and none of the
    three throws. *)
Theorem first_and_last_detail_are_nth_detail
  (toStringValue : Store -> Value -> string) (h : Store) (received : EventSpy)
  (expected : Value) :
  tracked received ->
  let first := verdict (toHaveFirstReceivedEventDetail toStringValue h received expected) in
  let last := verdict (toHaveLastReceivedEventDetail toStringValue h received expected) in
  first = verdict (toHaveNthReceivedEventDetail toStringValue h received (Integer 0) expected)
  /\ last = verdict (toHaveNthReceivedEventDetail toStringValue h received
                       (Integer (spyLength received - 1)) expected)
  /\ (exists b, first = Return b) /\ (exists b, last = Return b).
Proof.
  intros (Hlen & Hfirst & Hlast). cbn zeta.
  unfold toHaveLastReceivedEventDetail, toHaveReceivedEventDetail,
    toHaveFirstReceivedEventDetail, toHaveNthReceivedEventDetail.
  rewrite Hfirst, Hlast. cbn [numberLtb numberGeb elementAt].
  destruct (Z.eqb_spec (spyLength received) 0) as [H0 | H0];
    [repeat split; eexists; reflexivity |].
  destruct (events received) as [|e0 l] eqn:E; [cbn [List.length] in Hlen; lia |].
  cbn [List.length] in *.
  destruct (Z.ltb_spec (spyLength received - 1) 0) as [Hneg | _]; [lia |].
  destruct (Z.geb_spec (spyLength received - 1) (spyLength received)) as [Hge | _]; [lia |].
  destruct (Z.geb_spec 0 (spyLength received)) as [Hge | _]; [lia |].
  cbn [Z.ltb orb Z.to_nat nth_error Z.compare].
  replace (Z.to_nat (spyLength received - 1)) with (S (List.length l) - 1) by lia.
  assert (Hin : exists ev, nth_error (e0 :: l) (S (List.length l) - 1) = Some ev).
  { destruct (nth_error (e0 :: l) (S (List.length l) - 1)) eqn:En; [eauto |].
    apply nth_error_None in En. cbn [List.length] in En. lia. }
  destruct Hin as (ev & ->).
  destruct (safeEquals_returns h (detail e0) expected) as (b0 & ->).
  destruct (safeEquals_returns h (detail ev) expected) as (b1 & ->).
  cbn [verdict bind pass]. repeat split; eexists; reflexivity.
Qed.

Lemma first_and_last_detail_are_nth_detail_witness :
  verdict (toHaveFirstReceivedEventDetail plainString sampleStore
             (mkEventSpy "buttonClick" [click1; click2] (Some click1) (Some click2) 2)
             (VObject 0))
  = verdict (toHaveNthReceivedEventDetail plainString sampleStore
               (mkEventSpy "buttonClick" [click1; click2] (Some click1) (Some click2) 2)
               (Integer 0) (VObject 0)).
Proof.
  apply (first_and_last_detail_are_nth_detail plainString sampleStore
           (mkEventSpy "buttonClick" [click1; click2] (Some click1) (Some click2) 2)
           (VObject 0)).
  repeat split.
Defined.

(* ================================================================== *)
(** * The matchers on classes, attributes and text *)
(* ================================================================== *)

Module Loops.

Lemma missingFrom_eq (classList : list string) :
  forall classNames missingClasses,
    missingFrom classList missingClasses classNames
    = (missingClasses ++ filter (fun n => negb (contains classList n)) classNames)%list.
Proof.
  induction classNames as [|n l IH]; intros acc; cbn [missingFrom filter].
  - now rewrite app_nil_r.
  - destruct (negb (contains classList n)); rewrite IH; [|reflexivity].
    now rewrite <- app_assoc.
Qed.

Lemma filter_nil_forallb {A} (f : A -> bool) (l : list A) :
  Nat.eqb (List.length (filter (fun x => negb (f x)) l)) 0 = forallb f l.
Proof.
  induction l as [|x l IH]; [reflexivity |].
  cbn [filter forallb]. now destruct (f x).
Qed.

(** Whether an entry of the expectation is met. *)
Lemma mismatchesFrom_length (received : Element) :
  forall entries mismatches,
    List.length (mismatchesFrom received mismatches entries)
    = List.length mismatches
      + List.length (filter (fun entry => negb (isValue (getAttribute received (fst entry))
                                                        (snd entry))) entries).
Proof.
  induction entries as [|[name value] l IH]; intros acc; cbn [mismatchesFrom filter fst snd].
  - cbn [List.length]. lia.
  - unfold isValue at 1.
    destruct (getAttribute received name) as [actual|]; cbn [negb].
    + destruct (String.eqb actual value); cbn [negb]; rewrite IH;
        [reflexivity | rewrite length_app; cbn [List.length]; lia].
    + rewrite IH, length_app. cbn [List.length]. lia.
Qed.

End Loops.

(** X15.  [toHaveClasses] passes exactly when [toHaveClass] passes for each
    of the names, and the names it reports as missing are those for which
    [toHaveClass] fails, in the order given. *)
Theorem toHaveClasses_is_toHaveClass_for_each (classList classNames : list string) :
  pass (toHaveClasses classList classNames)
  = forallb (fun n => pass (toHaveClass classList n)) classNames
  /\ missingFrom classList [] classNames
     = filter (fun n => negb (pass (toHaveClass classList n))) classNames.
Proof.
  unfold toHaveClasses, toHaveClass. cbn [pass].
  rewrite Loops.missingFrom_eq. cbn [app]. split; [|reflexivity].
  apply Loops.filter_nil_forallb.
Qed.

(** X16.  [toEqualAttributes] passes exactly when [toEqualAttribute] passes
    for every entry of the expectation (on a node without [attributes] it
    throws a [TypeError]); attributes of the element that the expectation
    does not name are not looked at.  [toHaveAttribute] with a value gives
    the verdict of [toEqualAttribute]. *)
Theorem attribute_matchers_agree
  (stringifyRecord : list (string * string) -> string) (received : Element) :
  (forall expectedAttrs,
      verdict (toEqualAttributes stringifyRecord received expectedAttrs)
      = match attributes received with
        | Some _ =>
          Return (forallb (fun entry =>
                             pass (toEqualAttribute received (fst entry) (snd entry)))
                          expectedAttrs)
        | None => Throw readLengthOfUndefined
        end)
  /\ (forall attribute value,
         pass (toHaveAttribute received attribute (Some value))
         = pass (toEqualAttribute received attribute value)).
Proof.
  split.
  - intros expectedAttrs. unfold toEqualAttributes.
    destruct (attributes received); [|reflexivity].
    cbn [verdict bind pass]. rewrite Loops.mismatchesFrom_length. cbn [List.length Nat.add].
    f_equal. apply (Loops.filter_nil_forallb
                      (fun entry => isValue (getAttribute received (fst entry)) (snd entry))).
  - intros attribute value. unfold toHaveAttribute, toEqualAttribute, hasAttribute.
    now destruct (getAttribute received attribute).
Qed.

Module Text.

Lemma startsWith_self_app (p b : string) : Str.startsWith p (p ++ b) = true.
Proof.
  induction p as [|c p IH]; [reflexivity |].
  cbn [append Str.startsWith]. now rewrite Ascii.eqb_refl.
Qed.

Lemma startsWith_app_l (p a b : string) :
  Str.startsWith p a = true -> Str.startsWith p (a ++ b) = true.
Proof.
  revert a. induction p as [|c p IH]; intros a; [reflexivity |].
  destruct a as [|d a]; [discriminate |].
  cbn [append Str.startsWith]. rewrite !andb_true_iff. intros [H1 H2]. auto.
Qed.

Lemma includes_app_l (p a b : string) :
  Str.includes p a = true -> Str.includes p (a ++ b) = true.
Proof.
  induction a as [|c a IH].
  - cbn [Str.includes append]. rewrite orb_false_r. destruct p; [|discriminate].
    intros _. now destruct b.
  - cbn [append Str.includes]. rewrite !orb_true_iff.
    intros [H | H]; [left; now apply (startsWith_app_l p (String c a) b) | right; auto].
Qed.

Lemma includes_app_r (p a b : string) :
  Str.includes p b = true -> Str.includes p (a ++ b) = true.
Proof.
  intros H. induction a as [|c a IH]; [assumption |].
  cbn [append Str.includes]. rewrite IH. apply orb_true_r.
Qed.

Lemma includes_middle (p a b : string) : Str.includes p (a ++ p ++ b) = true.
Proof. apply includes_app_r, Occ.includes_startsWith, startsWith_self_app. Qed.

Lemma blank_trimEnd (s : string) : isBlank s = true -> trimEnd s = EmptyString.
Proof.
  induction s as [|c s IH]; [reflexivity |]. intros H.
  apply Blank.cons_inv in H as [Hc Hs]. now rewrite Norm.trimEnd_cons, (IH Hs), Hc.
Qed.

Lemma trimEnd_app_blank (ws y : string) :
  isBlank ws = true -> trimEnd (y ++ ws) = trimEnd y.
Proof.
  intros H. induction y as [|c y IH]; [now apply blank_trimEnd |].
  cbn [append]. now rewrite !Norm.trimEnd_cons, IH.
Qed.

Lemma trim_app_blank (before after s : string) :
  isBlank before = true -> isBlank after = true ->
  trim (before ++ s ++ after) = trim s.
Proof.
  intros H1 H2. unfold trim. rewrite (Blank.trimStart_app_blank before _ H1).
  destruct (isBlank s) eqn:Hs.
  - rewrite (Blank.trimStart_app_blank s _ Hs).
    apply Blank.isBlank_iff in Hs, H2. now rewrite Hs, H2.
  - rewrite (Blank.trimStart_app s after Hs). now apply trimEnd_app_blank.
Qed.

Lemma includes_trim (s : string) : Str.includes (trim s) s = true.
Proof.
  destruct (Ends.trimStart_split s) as (ws1 & _ & E1).
  destruct (Ends.trimEnd_split (trimStart s)) as (ws2 & _ & E2).
  assert (H : forall x, x = ws1 ++ trim s ++ ws2 -> Str.includes (trim s) x = true)
    by (intros x ->; apply includes_middle).
  apply H. unfold trim. now rewrite <- E2.
Qed.

End Text.

(** X17.  [toEqualText] is the stronger assertion: when it passes,
    [toHaveTextContent] passes for the trimmed expected text. *)
Theorem toEqualText_implies_toHaveTextContent (textContent : option string)
  (expectedText : string) :
  pass (toEqualText textContent expectedText) = true ->
  pass (toHaveTextContent textContent (trim expectedText)) = true.
Proof.
  unfold toEqualText, toHaveTextContent. cbn [pass]. intros H.
  apply String.eqb_eq in H. rewrite <- H. apply Text.includes_trim.
Qed.

Lemma toEqualText_implies_toHaveTextContent_witness :
  pass (toHaveTextContent (Some "  Hello World ") (trim " Hello World")) = true.
Proof.
  apply (toEqualText_implies_toHaveTextContent (Some "  Hello World ") " Hello World").
  reflexivity.
Defined.

(** X18.  [toEqualText] ignores whitespace around the expected text and
    around the text of the element: the result, message included, is the
    same with and without it. *)
Theorem toEqualText_ignores_surrounding_whitespace
  (text expectedText before after before' after' : string) :
  isBlank before = true -> isBlank after = true ->
  isBlank before' = true -> isBlank after' = true ->
  toEqualText (Some (before ++ text ++ after)) (before' ++ expectedText ++ after')
  = toEqualText (Some text) expectedText.
Proof.
  intros H1 H2 H3 H4. unfold toEqualText.
  rewrite (Text.trim_app_blank before' after' expectedText H3 H4).
  replace (trim (textOrEmpty (Some (before ++ text ++ after))))
    with (trim (textOrEmpty (Some text))); [reflexivity |].
  unfold textOrEmpty.
  replace (if Str.truthy (before ++ text ++ after) then before ++ text ++ after
           else EmptyString) with (before ++ text ++ after)
    by now destruct (before ++ text ++ after).
  replace (if Str.truthy text then text else EmptyString) with text by now destruct text.
  symmetry. now apply Text.trim_app_blank.
Qed.

Lemma toEqualText_ignores_surrounding_whitespace_witness :
  toEqualText (Some (String "010" "  " ++ "Hello" ++ " ")) (" " ++ "Hello" ++ String "010" " ")
  = toEqualText (Some "Hello") "Hello".
Proof.
  apply (toEqualText_ignores_surrounding_whitespace "Hello" "Hello"
           (String "010" "  ") " " " " (String "010" " ")); reflexivity.
Defined.

(** X19.  A shadow root that [toHaveShadowRoot] sees is visible to
    [toEqualHtml]: the serialization of the host with shadow roots contains
    the opening and the closing sentinel. *)
Theorem shadow_root_shows_in_the_serialization (received : Element) (excludeStyles : bool) :
  pass (toHaveShadowRoot received) = true ->
  Str.includes "<mock:shadow-root" (serializeElement received excludeStyles true) = true
  /\ Str.includes "</mock:shadow-root>" (serializeElement received excludeStyles true) = true.
Proof.
  unfold toHaveShadowRoot. cbn [pass]. rewrite serializeElement_eq.
  unfold shadowHtml. destruct (shadowRoot received) as [s|]; [intros _ | discriminate].
  split; do 4 apply Text.includes_app_r; apply Text.includes_app_l.
  - apply Text.includes_app_l, Occ.includes_startsWith.
    unfold shadowRootTag. now destruct (delegatesFocus s).
  - now do 2 apply Text.includes_app_r.
Qed.

Lemma shadow_root_shows_in_the_serialization_witness :
  Str.includes "<mock:shadow-root" (serializeElement sampleButton true true) = true
  /\ Str.includes "</mock:shadow-root>" (serializeElement sampleButton true true) = true.
Proof.
  apply (shadow_root_shows_in_the_serialization sampleButton true). reflexivity.
Defined.

(* ================================================================== *)
(** * [prettifyHtml] and the shadow-root sentinel *)
(* ================================================================== *)

Module Pretty.

Lemma substring_prefix (n : nat) (s : string) : exists rest, s = substring 0 n s ++ rest.
Proof.
  revert n. induction s as [|c s IH]; intros [|n]; cbn [substring append].
  - now exists EmptyString.
  - now exists EmptyString.
  - now exists (String c s).
  - destruct (IH n) as (rest & E). exists rest. now rewrite <- E.
Qed.

Lemma takeRun_fixed (class : ascii -> bool) (q : string) :
  takeRun class q = q -> forall c, Str.hasChar c q = true -> class c = true.
Proof.
  induction q as [|a q IH]; cbn [takeRun Str.hasChar]; [discriminate |].
  destruct (class a) eqn:E; [|discriminate].
  intros H c Hc. injection H as H. apply orb_true_iff in Hc as [Hc | Hc].
  - apply Ascii.eqb_eq in Hc as <-. exact E.
  - now apply IH.
Qed.

(** An infix of a string without the pattern is without the pattern. *)
Lemma free_app (p a b : string) :
  Str.includes p (a ++ b) = false ->
  Str.includes p a = false /\ Str.includes p b = false.
Proof.
  intros H. split.
  - destruct (Str.includes p a) eqn:E; [|reflexivity].
    apply (Text.includes_app_l p a b) in E. congruence.
  - destruct (Str.includes p b) eqn:E; [|reflexivity].
    apply (Text.includes_app_r p a b) in E. congruence.
Qed.

Lemma free_tail (p : string) (c : ascii) (s : string) :
  Str.includes p (String c s) = false -> Str.includes p s = false.
Proof. intros H. apply (free_app p (String c EmptyString) s H). Qed.

Lemma free_trimStart (p s : string) :
  Str.includes p s = false -> Str.includes p (trimStart s) = false.
Proof.
  destruct (Ends.trimStart_split s) as (ws & _ & E). intros H.
  rewrite E in H. now apply free_app in H.
Qed.

Lemma free_trim (p s : string) :
  Str.includes p s = false -> Str.includes p (trim s) = false.
Proof.
  intros H. apply free_trimStart in H. unfold trim.
  destruct (Ends.trimEnd_split (trimStart s)) as (ws & _ & E).
  rewrite E in H. now apply free_app in H.
Qed.

(** ** The equations of [/>\s*</g -> '><'] *)

Lemma tag_cases (c : ascii) (r : string) :
  (exists u, c = ">"%char /\ trimStart r = String "<" u)
  \/ re_gt_optional_spaces_lt (String c r) = None.
Proof.
  unfold re_gt_optional_spaces_lt.
  destruct (Ascii.eqb_spec c ">") as [-> | Hc]; [|now right].
  destruct (trimStart r) as [|d u] eqn:Ht; [now right |].
  destruct (Ascii.eqb_spec d "<") as [-> | Hd]; [|now right].
  left. now exists u.
Qed.

Lemma closeTags_match (r u : string) :
  trimStart r = String "<" u ->
  closeTags (String ">" r) = String ">" (String "<" (closeTags u)).
Proof.
  intros Ht. unfold closeTags, replaceAll. cbn [replaceFrom].
  unfold re_gt_optional_spaces_lt. rewrite Ht.
  cbn [Ascii.eqb Bool.eqb Nat.pred append]. do 2 f_equal.
  replace (S (spaces r)) with (spaces r + 1) by lia.
  rewrite Norm.skip_spaces, Ht. reflexivity.
Qed.

Lemma closeTags_nomatch (c : ascii) (r : string) :
  re_gt_optional_spaces_lt (String c r) = None ->
  closeTags (String c r) = String c (closeTags r).
Proof.
  intros H. unfold closeTags, replaceAll. cbn [replaceFrom]. now rewrite H.
Qed.

(** ** What a stage leaves at the head of its output *)

Lemma startsWith_collapse (x : string) :
  (forall c, Str.hasChar c x = true -> Str.isWhitespace c = false) ->
  forall s, Str.startsWith x (collapseSpaces s) = true -> Str.startsWith x s = true.
Proof.
  induction x as [|y x IH]; intros Hx s H; [reflexivity |].
  destruct s as [|c r]; [discriminate |].
  assert (Hy : Str.isWhitespace y = false).
  { apply Hx. cbn [Str.hasChar]. now rewrite (proj2 (Ascii.eqb_eq y y) eq_refl). }
  destruct (Str.isWhitespace c) eqn:E.
  - rewrite (Norm.collapse_space c r E) in H. cbn [Str.startsWith] in H.
    apply andb_true_iff in H as [H _]. apply Ascii.eqb_eq in H as ->. discriminate.
  - rewrite (Norm.collapse_char c r E) in H. cbn [Str.startsWith] in *.
    apply andb_true_iff in H as [-> H]. cbn [andb]. apply IH; [|exact H].
    intros d Hd. apply Hx. cbn [Str.hasChar]. now rewrite Hd, orb_true_r.
Qed.

Lemma startsWith_closeTags (x : string) :
  Str.hasChar ">" x = false ->
  forall s, Str.startsWith x (closeTags s) = true -> Str.startsWith x s = true.
Proof.
  induction x as [|y x IH]; intros Hx s H; [reflexivity |].
  destruct s as [|c r]; [discriminate |].
  cbn [Str.hasChar] in Hx. apply orb_false_iff in Hx as [Hy Hx].
  destruct (tag_cases c r) as [(u & -> & Ht) | Hnone].
  - rewrite (closeTags_match r u Ht) in H. cbn [Str.startsWith] in H.
    apply andb_true_iff in H as [H _]. congruence.
  - rewrite (closeTags_nomatch c r Hnone) in H. cbn [Str.startsWith] in *.
    apply andb_true_iff in H as [-> H]. cbn [andb]. now apply IH.
Qed.

Section Needle.
(** A pattern [<q] where [q] is made of tag-name characters and has
    no [<]. *)
Variable q : string.
Hypothesis q_name : takeRun isTagNameChar q = q.
Hypothesis q_no_lt : Str.hasChar "<" q = false.

Lemma q_chars (c : ascii) :
  Str.hasChar c q = true -> Ascii.eqb c ">" = false /\ Str.isWhitespace c = false.
Proof.
  intros H. apply (takeRun_fixed _ _ q_name) in H. unfold isTagNameChar in H.
  now apply negb_true_iff, orb_false_iff in H.
Qed.

Lemma q_no_gt : Str.hasChar ">" q = false.
Proof.
  destruct (Str.hasChar ">" q) eqn:E; [|reflexivity].
  now apply q_chars in E as [E _].
Qed.

Lemma p_no_space (c : ascii) :
  Str.hasChar c (String "<" q) = true -> Str.isWhitespace c = false.
Proof.
  cbn [Str.hasChar]. intros H. apply orb_true_iff in H as [H | H].
  - apply Ascii.eqb_eq in H as <-. reflexivity.
  - now apply q_chars in H.
Qed.

(** The pattern does not start at a character other than [<]. *)
Lemma free_cons (c : ascii) (s : string) :
  Ascii.eqb c "<" = false ->
  Str.includes (String "<" q) (String c s) = Str.includes (String "<" q) s.
Proof.
  intros H. cbn [Str.includes Str.startsWith].
  rewrite Ascii.eqb_sym, H. reflexivity.
Qed.

Lemma includes_collapse (s : string) :
  Str.includes (String "<" q) (collapseSpaces s) = true ->
  Str.includes (String "<" q) s = true.
Proof.
  apply (Norm.collapse_ind
           (fun s t => Str.includes (String "<" q) t = true ->
                       Str.includes (String "<" q) s = true)); [auto | |].
  - intros c r E IH H. rewrite free_cons in H by reflexivity.
    specialize (IH H).
    destruct (Str.includes (String "<" q) (String c r)) eqn:F; [reflexivity |].
    apply free_tail, free_trimStart in F. congruence.
  - intros c r E IH H.
    change (Str.includes (String "<" q) (String c (collapseSpaces r)))
      with (Str.startsWith (String "<" q) (String c (collapseSpaces r))
            || Str.includes (String "<" q) (collapseSpaces r)) in H.
    change (Str.includes (String "<" q) (String c r))
      with (Str.startsWith (String "<" q) (String c r)
            || Str.includes (String "<" q) r).
    apply orb_true_iff in H as [H | H].
    + rewrite <- (Norm.collapse_char c r E) in H.
      apply (startsWith_collapse _ p_no_space) in H. now rewrite H.
    + rewrite (IH H). apply orb_true_r.
Qed.

Lemma includes_closeTags (s : string) :
  Str.includes (String "<" q) (closeTags s) = true ->
  Str.includes (String "<" q) s = true.
Proof.
  induction s as [s IH] using Blank.suffix_ind.
  destruct s as [|c r]; [auto |].
  destruct (tag_cases c r) as [(u & -> & Ht) | Hnone].
  - rewrite (closeTags_match r u Ht). rewrite free_cons by reflexivity. intros H.
    destruct (Str.includes (String "<" q) (String ">" r)) eqn:F; [reflexivity |].
    apply free_tail, free_trimStart in F. rewrite Ht in F.
    change (Str.includes (String "<" q) (String "<" (closeTags u)))
      with (Str.startsWith (String "<" q) (String "<" (closeTags u))
            || Str.includes (String "<" q) (closeTags u)) in H.
    apply orb_true_iff in H as [H | H].
    + cbn [Str.startsWith Ascii.eqb Bool.eqb andb] in H.
      apply (startsWith_closeTags _ q_no_gt) in H.
      cbn [Str.includes Str.startsWith Ascii.eqb Bool.eqb andb] in F.
      rewrite H in F. discriminate.
    + apply IH in H; [|now apply (Blank.length_after_lt ">" r u)].
      apply free_tail in F. congruence.
  - rewrite (closeTags_nomatch c r Hnone). intros H.
    change (Str.includes (String "<" q) (String c (closeTags r)))
      with (Str.startsWith (String "<" q) (String c (closeTags r))
            || Str.includes (String "<" q) (closeTags r)) in H.
    change (Str.includes (String "<" q) (String c r))
      with (Str.startsWith (String "<" q) (String c r)
            || Str.includes (String "<" q) r).
    apply orb_true_iff in H as [H | H].
    + cbn [Str.startsWith] in *. apply andb_true_iff in H as [-> H].
      now rewrite (startsWith_closeTags _ q_no_gt _ H).
    + rewrite IH; [apply orb_true_r | cbn [String.length]; lia | exact H].
Qed.

(** ** The parts of the split *)

Lemma free_splitFrom (s : string) :
  forall (skip : nat) (piece : string),
    Str.includes (String "<" q) s = false ->
    (skip = 0 -> Str.includes (String "<" q) (piece ++ s) = false) ->
    (skip <> 0 -> piece = EmptyString) ->
    Forall (fun part => Str.includes (String "<" q) part = false) (splitFrom skip piece s).
Proof.
  induction s as [|c r IH]; intros skip piece Hs Hpiece Hskip; cbn [splitFrom].
  - apply Forall_cons; [|apply Forall_nil].
    destruct skip as [|k].
    + specialize (Hpiece eq_refl). now apply free_app in Hpiece.
    + now rewrite Hskip.
  - pose proof (free_tail _ _ _ Hs) as Hr.
    destruct skip as [|k].
    + specialize (Hpiece eq_refl).
      destruct (re_tag (String c r)) as [n|].
      * apply Forall_cons; [now apply free_app in Hpiece |].
        apply Forall_cons.
        { destruct (substring_prefix n (String c r)) as (rest & E).
          rewrite E in Hs. now apply free_app in Hs. }
        apply IH; [exact Hr | intros _; exact Hr | reflexivity].
      * apply IH; [exact Hr | | congruence].
        intros _. now rewrite StrFacts.append_assoc.
    + apply IH; [exact Hr | | intros _; apply Hskip; discriminate].
      intros _. now rewrite Hskip.
Qed.

(** ** The lines *)

Lemma free_indentation (n : nat) (part : string) :
  Str.includes (String "<" q) part = false ->
  Str.includes (String "<" q) (indentation n ++ part) = false.
Proof.
  intros H. unfold indentation. induction (n * 2) as [|k IH]; [exact H |].
  cbn [Str.repeat append]. now rewrite free_cons.
Qed.

(** Nothing of the pattern lies across the end of [a] when [b] starts
    with a character that is not one of [q]. *)
Lemma free_join (a : string) (c : ascii) (b : string) :
  Str.hasChar c q = false ->
  Str.includes (String "<" q) a = false ->
  Str.includes (String "<" q) (String c b) = false ->
  Str.includes (String "<" q) (a ++ String c b) = false.
Proof.
  intros Hc Ha Hb. induction a as [|y a IH]; [exact Hb |].
  cbn [append].
  change (Str.includes (String "<" q) (String y (a ++ String c b)))
    with (Str.startsWith (String "<" q) (String y (a ++ String c b))
          || Str.includes (String "<" q) (a ++ String c b)).
  rewrite (IH (free_tail _ _ _ Ha)), orb_false_r.
  destruct (Str.startsWith _ _) eqn:E; [|reflexivity]. exfalso.
  cbn [Str.startsWith] in E. apply andb_true_iff in E as [Ey E].
  apply Occ.startsWith_past in E as [E | (d & r & Hr & Hd)].
  - cbn [Str.includes Str.startsWith] in Ha. rewrite Ey, E in Ha. discriminate.
  - injection Hr as <- _. congruence.
Qed.

Lemma lastOf_In (lines : list string) (lastLine : string) :
  lastOf lines = Some lastLine -> In lastLine lines.
Proof.
  unfold lastOf. induction lines as [|x l IH]; [discriminate |].
  cbn [map last]. destruct l as [|y l].
  - intros H. injection H as ->. now left.
  - intros H. right. apply IH. exact H.
Qed.

Lemma Forall_removelast {A : Type} (P : A -> Prop) (l : list A) :
  Forall P l -> Forall P (removelast l).
Proof.
  induction 1 as [|x l Hx Hl IH]; [apply Forall_nil |].
  cbn [removelast]. destruct l; [apply Forall_nil | now apply Forall_cons].
Qed.

Lemma free_concat (lines : list string) :
  Forall (fun line => Str.includes (String "<" q) line = false) lines ->
  Str.includes (String "<" q) (String.concat Str.newline lines) = false.
Proof.
  induction 1 as [|x l Hx Hl IH]; [reflexivity |].
  cbn [String.concat]. destruct l as [|y l]; [exact Hx |].
  unfold Str.newline at 1. cbn [append]. apply free_join; [| exact Hx |].
  - destruct (Str.hasChar (ascii_of_nat 10) q) eqn:E; [|reflexivity].
    apply q_chars in E as [_ E]. discriminate.
  - now rewrite free_cons.
Qed.

Section Engine.
Variable regExpTest : string -> string -> Completion bool.

Lemma free_prettifyPart (indentLevel : nat) (lines : list string) (rawPart : string) :
  Forall (fun line => Str.includes (String "<" q) line = false) lines ->
  Str.includes (String "<" q) rawPart = false ->
  match prettifyPart regExpTest (indentLevel, lines) rawPart with
  | Return state => Forall (fun line => Str.includes (String "<" q) line = false) (snd state)
  | Throw e => exists tagName line, regExpTest (openTagSource tagName) line = Throw e
  end.
Proof.
  intros Hlines Hraw. apply free_trim in Hraw.
  unfold prettifyPart. set (part := trim rawPart) in *.
  assert (push : forall n, Forall (fun line => Str.includes (String "<" q) line = false)
                             (lines ++ [indentation n ++ part])).
  { intros n. apply Forall_app. split; [exact Hlines |].
    apply Forall_cons; [now apply free_indentation | apply Forall_nil]. }
  destruct (Str.truthy part); cbn [negb]; [|exact Hlines].
  destruct (Str.startsWith "<" part); [|apply push].
  destruct (Str.startsWith "</" part) eqn:Hclosing.
  - destruct (lastOf lines) as [lastLine|] eqn:Hlast; [|apply push].
    destruct (closingTagName part) as [tagName|]; [|apply push].
    destruct (Str.truthy lastLine && Str.truthy tagName); [|apply push].
    destruct (regExpTest (openTagSource tagName) lastLine) as [[|]|e] eqn:Htest;
      cbn [bind snd]; [| apply push | now exists tagName, lastLine].
    apply Forall_app. split; [now apply Forall_removelast |].
    apply Forall_cons; [|apply Forall_nil].
    destruct part as [|c b]; [discriminate |].
    cbn [Str.startsWith] in Hclosing. apply andb_true_iff in Hclosing as [Hc _].
    apply Ascii.eqb_eq in Hc as <-.
    apply free_join; [exact q_no_lt | | exact Hraw].
    rewrite Forall_forall in Hlines. apply Hlines. now apply lastOf_In.
  - destruct (Str.endsWith "/>" part); apply push.
Qed.

Lemma free_prettifyParts (parts : list string) :
  Forall (fun part => Str.includes (String "<" q) part = false) parts ->
  forall (indentLevel : nat) (lines : list string),
    Forall (fun line => Str.includes (String "<" q) line = false) lines ->
    match prettifyParts regExpTest (indentLevel, lines) parts with
    | Return lines' => Forall (fun line => Str.includes (String "<" q) line = false) lines'
    | Throw e => exists tagName line, regExpTest (openTagSource tagName) line = Throw e
    end.
Proof.
  induction 1 as [|part rest Hpart _ IH]; intros indentLevel lines Hlines; [exact Hlines |].
  cbn [prettifyParts].
  pose proof (free_prettifyPart indentLevel lines part Hlines Hpart) as H.
  destruct (prettifyPart regExpTest (indentLevel, lines) part) as [[indentLevel' lines']|e];
    cbn [bind]; [|exact H].
  apply IH. exact H.
Qed.

(** Prettifying brings no occurrence of the pattern into a string that
    has none; it throws only what the engine throws. *)
Lemma free_prettifyHtml (html : string) :
  Str.includes (String "<" q) html = false ->
  match prettifyHtml regExpTest html with
  | Return out => Str.includes (String "<" q) out = false
  | Throw e => exists tagName line, regExpTest (openTagSource tagName) line = Throw e
  end.
Proof.
  intros H. unfold prettifyHtml.
  change (replaceAll re_gt_optional_spaces_lt "><" (replaceAll re_spaces " " html))
    with (closeTags (collapseSpaces html)).
  set (clean := trim (closeTags (collapseSpaces html))).
  assert (Hclean : Str.includes (String "<" q) clean = false).
  { apply free_trim.
    destruct (Str.includes _ (closeTags _)) eqn:E; [|reflexivity].
    apply includes_closeTags, includes_collapse in E. congruence. }
  pose proof (free_prettifyParts (splitTags clean)
                (free_splitFrom clean 0 EmptyString Hclean (fun _ => Hclean)
                   (fun F => False_ind _ (F eq_refl)))
                0 [] (Forall_nil _)) as Hparts.
  destruct (prettifyParts regExpTest (0, []) (splitTags clean)) as [lines|e];
    cbn [bind]; [|exact Hparts].
  now apply free_concat.
Qed.

End Engine.
End Needle.
(** ** What [prettifyHtml] throws *)

Lemma startsWith_takeRun (class : ascii -> bool) (s : string) :
  Str.startsWith (takeRun class s) s = true.
Proof.
  induction s as [|c s IH]; [reflexivity |].
  cbn [takeRun]. destruct (class c); [|reflexivity].
  cbn [Str.startsWith]. now rewrite Ascii.eqb_refl.
Qed.

Lemma takeRun_idem (class : ascii -> bool) (s : string) :
  takeRun class (takeRun class s) = takeRun class s.
Proof.
  induction s as [|c s IH]; [reflexivity |].
  cbn [takeRun]. destruct (class c) eqn:E; [|reflexivity].
  cbn [takeRun]. now rewrite E, IH.
Qed.

(** The name of a closing tag is made of tag-name characters and stands
    in the part, after [</]. *)
Lemma closingTagName_spec (part tagName : string) :
  closingTagName part = Some tagName ->
  takeRun isTagNameChar tagName = tagName
  /\ Str.includes (String "<" (String "/" tagName)) part = true.
Proof.
  induction part as [|c r IH]; [discriminate |].
  assert (tail : closingTagName r = Some tagName ->
                 takeRun isTagNameChar tagName = tagName
                 /\ Str.includes (String "<" (String "/" tagName)) (String c r) = true).
  { intros H. destruct (IH H) as [H1 H2]. split; [exact H1 |].
    change (Str.includes (String "<" (String "/" tagName)) (String c r))
      with (Str.startsWith (String "<" (String "/" tagName)) (String c r)
            || Str.includes (String "<" (String "/" tagName)) r).
    rewrite H2. apply orb_true_r. }
  cbn [closingTagName].
  destruct (Ascii.eqb_spec c "<") as [-> | _]; [|exact tail].
  destruct r as [|d r']; [discriminate |].
  destruct (Ascii.eqb_spec d "/") as [-> | _]; cbn [andb]; [|exact tail].
  destruct (Str.truthy (takeRun isTagNameChar r')); [|exact tail].
  intros H. injection H as <-. split; [apply takeRun_idem |].
  apply Occ.includes_startsWith. cbn [Str.startsWith Ascii.eqb Bool.eqb andb].
  apply startsWith_takeRun.
Qed.

Section Throws.
Variable regExpTest : string -> string -> Completion bool.

Lemma prettifyPart_throws (state : nat * list string) (rawPart : string) (e : JsError) :
  prettifyPart regExpTest state rawPart = Throw e ->
  exists tagName line,
    closingTagName (trim rawPart) = Some tagName
    /\ regExpTest (openTagSource tagName) line = Throw e.
Proof.
  unfold prettifyPart. destruct state as [indentLevel lines].
  destruct (negb (Str.truthy (trim rawPart))); [discriminate |].
  destruct (Str.startsWith "<" (trim rawPart)); [|discriminate].
  destruct (Str.startsWith "</" (trim rawPart)).
  - destruct (lastOf lines) as [lastLine|]; [|discriminate].
    destruct (closingTagName (trim rawPart)) as [tagName|]; [|discriminate].
    destruct (Str.truthy lastLine && Str.truthy tagName); [|discriminate].
    destruct (regExpTest (openTagSource tagName) lastLine) as [[|]|e'] eqn:Htest;
      cbn [bind]; try discriminate.
    intros H. injection H as <-. now exists tagName, lastLine.
  - destruct (Str.endsWith "/>" (trim rawPart)); discriminate.
Qed.

Lemma prettifyParts_throws (parts : list string) :
  forall (state : nat * list string) (e : JsError),
    prettifyParts regExpTest state parts = Throw e ->
    exists part tagName line,
      In part parts
      /\ closingTagName (trim part) = Some tagName
      /\ regExpTest (openTagSource tagName) line = Throw e.
Proof.
  induction parts as [|part rest IH]; intros state e; cbn [prettifyParts]; [discriminate |].
  destruct (prettifyPart regExpTest state part) as [state'|e'] eqn:Hpart; cbn [bind].
  - intros H. destruct (IH _ _ H) as (p & t & l & Hin & Hrest).
    exists p, t, l. split; [now right | exact Hrest].
  - intros H. injection H as <-.
    destruct (prettifyPart_throws state part e' Hpart) as (t & l & Ht).
    exists part, t, l. split; [now left | exact Ht].
Qed.

(** [prettifyHtml] throws only what the engine throws on the pattern of a
    closing tag that stands in the markup. *)
Lemma prettifyHtml_throws (html : string) (e : JsError) :
  prettifyHtml regExpTest html = Throw e ->
  exists tagName line,
    Str.includes ("</" ++ tagName) html = true
    /\ regExpTest (openTagSource tagName) line = Throw e.
Proof.
  unfold prettifyHtml.
  change (replaceAll re_gt_optional_spaces_lt "><" (replaceAll re_spaces " " html))
    with (closeTags (collapseSpaces html)).
  set (clean := trim (closeTags (collapseSpaces html))).
  destruct (prettifyParts regExpTest (0, []) (splitTags clean)) as [lines|e'] eqn:Hparts;
    cbn [bind]; [discriminate |].
  intros H. injection H as <-.
  destruct (prettifyParts_throws _ _ _ Hparts) as (part & t & l & Hin & Hname & Htest).
  exists t, l. split; [|exact Htest].
  destruct (closingTagName_spec _ _ Hname) as [Hrun Hpart].
  assert (Hq : takeRun isTagNameChar (String "/" t) = String "/" t).
  { cbn [takeRun]. change (isTagNameChar "/") with true. cbv iota. now rewrite Hrun. }
  change ("</" ++ t) with (String "<" (String "/" t)).
  apply (includes_collapse _ Hq), (includes_closeTags _ Hq).
  destruct (Str.includes _ (closeTags (collapseSpaces html))) eqn:E; [reflexivity |].
  apply free_trim in E. fold clean in E.
  pose proof (free_splitFrom (String "/" t) clean 0 EmptyString E (fun _ => E)
                (fun F => False_ind _ (F eq_refl))) as Hall.
  rewrite Forall_forall in Hall. specialize (Hall part Hin).
  apply free_trim in Hall. congruence.
Qed.

(** With an engine that accepts every such pattern it returns. *)
Lemma prettifyHtml_returns (html : string) :
  (forall tagName line, exists b, regExpTest (openTagSource tagName) line = Return b) ->
  exists out, prettifyHtml regExpTest html = Return out.
Proof.
  intros Htotal. destruct (prettifyHtml regExpTest html) as [out|e] eqn:H; [eauto |].
  apply prettifyHtml_throws in H as (tagName & line & _ & H).
  destruct (Htotal tagName line) as [b Hb]. congruence.
Qed.

End Throws.

End Pretty.

(** With the default options the text that spells the sentinel is
    prettified with the rest: it is taken for an opening tag and put on a
    line of its own.  (The engine is asked once, whether the line
    [  <mock:shadow-root>] is the opening tag of [</code-sample>], which it
    is not.) *)
Example prettified_text_spelling_the_sentinel :
  let host := mkElement (Some "code-sample") "CODE-SAMPLE" (Some [])
                (Some (mkShadowRoot false
                   [ElementNode (mkElement (Some "pre") "PRE" (Some []) None
                      [ElementNode (mkElement (Some "slot") "SLOT" (Some []) None [] None)]
                      None)]))
                [TextNode "<mock:shadow-root>"] None in
  serializeHtml (prettifyHtml noLineMatches) (InputNode (RootElement host))
    (mkSerializeOptions (Some false) None None)
  = Return ("<code-sample>" ++ Str.newline ++ "  <mock:shadow-root>" ++ Str.newline
            ++ "  </code-sample>").
Proof. reflexivity. Qed.

(** An element that the parser names [a(b] is free of markup, and the
    pattern built from its closing tag is none: what the engine throws on
    it is what [serializeHtml] throws. *)
Lemma pattern_error_reaches_serializeHtml :
  forall (regExpTest : string -> string -> Completion bool) (e : JsError),
    regExpTest "^\s*<a(b[^>]*>$" "<a(b>" = Throw e ->
    let T := RootElement (mkElement (Some "a(b") "A(B" (Some []) None [] None) in
    lightMarkupFreeRoot T = true
    /\ serializeHtml (prettifyHtml regExpTest) (InputNode T)
         (mkSerializeOptions (Some false) None None) = Throw e.
Proof.
  intros regExpTest e H. cbn. unfold prettifyHtml. cbn. rewrite H. now split.
Qed.

(** C4 (amended).  For every tree whose light DOM is free of markup (no
    [<] in its texts, comments, tag names and attributes, no tag name
    containing [mock:shadow-root]), whatever shadow trees and polyfill
    lists its elements carry, serializing with [serializeShadowRoot: false],
    prettified (the default) or not, with [excludeStyles] or not, gives a
    string that contains neither the opening sentinel [<mock:shadow-root],
    with or without attribute, nor the closing sentinel
    [</mock:shadow-root>].  No string is given only when prettifying throws,
    and it throws only what the engine throws on the pattern that
    [prettifyHtml] builds from the name of a closing tag of the markup. *)
Theorem C4_no_shadow_sentinel :
  forall (regExpTest : string -> string -> Completion bool) (T : Root)
         (pretty excludeStyles : option bool),
    lightMarkupFreeRoot T = true ->
    match serializeHtml (prettifyHtml regExpTest) (InputNode T)
            (mkSerializeOptions (Some false) pretty excludeStyles) with
    | Return out =>
      Str.includes "<mock:shadow-root" out = false
      /\ Str.includes "<mock:shadow-root>" out = false
      /\ Str.includes "</mock:shadow-root>" out = false
    | Throw e =>
      orTrue pretty = true
      /\ exists tagName line,
           Str.includes ("</" ++ tagName)
             (serializeElementWithShadow T (orTrue excludeStyles) false) = true
           /\ regExpTest (openTagSource tagName) line = Throw e
    end.
Proof.
  intros regExpTest T pretty xs H. unfold serializeHtml.
  cbn [opt_serializeShadowRoot opt_pretty opt_excludeStyles].
  pose proof (no_opening_sentinel (orTrue xs) T H) as Ho.
  pose proof (no_closing_sentinel (orTrue xs) T H) as Hc.
  change (orTrue (Some false)) with false.
  set (html := serializeElementWithShadow T (orTrue xs) false) in *.
  destruct (orTrue pretty).
  - pose proof (Pretty.free_prettifyHtml "mock:shadow-root" eq_refl eq_refl
                  regExpTest html Ho) as Po.
    pose proof (Pretty.free_prettifyHtml "/mock:shadow-root" eq_refl eq_refl
                  regExpTest html Hc) as Pc.
    destruct (prettifyHtml regExpTest html) as [out|e] eqn:E; cbv beta iota;
      [|split; [reflexivity | exact (Pretty.prettifyHtml_throws regExpTest html e E)]].
    split; [exact Po |]. split.
    + exact (includes_prefix "<mock:shadow-root" ">" _ Po).
    + exact (includes_prefix "</mock:shadow-root" ">" _ Pc).
  - split; [exact Ho |]. split.
    + exact (includes_prefix "<mock:shadow-root" ">" _ Ho).
    + exact (includes_prefix "</mock:shadow-root" ">" _ Hc).
Qed.

Lemma C4_no_shadow_sentinel_witness :
  let host := mkElement (Some "my-button") "MY-BUTTON"
                (Some [mkAttr "class" None None "hydrated"])
                (Some (mkShadowRoot true
                   [ElementNode (mkElement (Some "button") "BUTTON" (Some []) None
                      [ElementNode (mkElement (Some "slot") "SLOT" (Some []) None [] None)]
                      None)]))
                [TextNode "Click me"; CommentNode "x"] None in
  lightMarkupFreeRoot (RootElement host) = true
  /\ match serializeHtml (prettifyHtml noLineMatches)
             (InputNode (RootElement host)) (mkSerializeOptions (Some false) None None) with
     | Return out =>
       Str.includes "<mock:shadow-root" out = false
       /\ Str.includes "<mock:shadow-root>" out = false
       /\ Str.includes "</mock:shadow-root>" out = false
     | Throw e =>
       orTrue None = true
       /\ exists tagName line,
            Str.includes ("</" ++ tagName)
              (serializeElementWithShadow (RootElement host) (orTrue None) false) = true
            /\ noLineMatches (openTagSource tagName) line = Throw e
     end.
Proof.
  intros host. split; [reflexivity |].
  apply (C4_no_shadow_sentinel noLineMatches (RootElement host) None None).
  reflexivity.
Defined.

(* ================================================================== *)
(** * The command line *)
(* ================================================================== *)

Module CliFacts.

Import Cli.

Lemma Subsequence_refl {A} (l : list A) : Subsequence l l.
Proof. induction l; [apply sub_nil | now apply sub_take]. Qed.

Lemma Subsequence_nil {A} (l : list A) : Subsequence [] l.
Proof. induction l; [apply sub_nil | now apply sub_skip]. Qed.

Lemma Subsequence_app {A} (a b c d : list A) :
  Subsequence a b -> Subsequence c d -> Subsequence (a ++ c) (b ++ d).
Proof.
  induction 1 as [|x l m H IH | x l m H IH]; cbn [app]; intros Hcd.
  - assumption.
  - apply sub_skip. auto.
  - apply sub_take. auto.
Qed.

Lemma Subsequence_trans {A} (a b c : list A) :
  Subsequence a b -> Subsequence b c -> Subsequence a c.
Proof.
  intros Hab Hbc. revert a Hab.
  induction Hbc as [|x l m Hlm IH | x l m Hlm IH]; intros a Hab.
  - assumption.
  - apply sub_skip. auto.
  - inversion Hab; subst; [apply sub_skip | apply sub_take]; auto.
Qed.

Lemma definedArgs_app (a b : list (option string)) :
  definedArgs (a ++ b) = (definedArgs a ++ definedArgs b)%list.
Proof.
  induction a as [|[s|] a IH]; cbn [app definedArgs]; [reflexivity | | assumption].
  now rewrite IH.
Qed.

Lemma truthy_defined (l : list (option string)) :
  Subsequence (truthyStrings l) (definedArgs l).
Proof.
  induction l as [|[s|] l IH]; cbn [truthyStrings definedArgs]; [apply sub_nil | | assumption].
  destruct (Str.truthy s); [apply sub_take | apply sub_skip]; assumption.
Qed.

Lemma truthy_nonempty (l : list (option string)) :
  Forall (fun s => s <> EmptyString) (truthyStrings l).
Proof.
  induction l as [|[s|] l IH]; cbn [truthyStrings]; [constructor | | assumption].
  destruct s; cbn [Str.truthy]; [assumption | constructor; [discriminate | assumption]].
Qed.

(** Reasoning along the loop: the index moves by one or by two. *)
Lemma pair_ind {A} (P : list A -> Prop) :
  P [] -> (forall x l, P l -> P (tl l) -> P (x :: l)) -> forall l, P l.
Proof.
  intros Hnil Hstep l. enough (P l /\ P (tl l)) by tauto.
  induction l as [|x l [IH1 IH2]]; [now split |]. split; [now apply Hstep | assumption].
Qed.

Lemma parseFrom_cons (p : ParsedArgs) (arg : string) (rest : list string) :
  parseFrom p (arg :: rest)
  = parseFrom (fst (switchArg p arg (hd_error rest)))
      (if snd (switchArg p arg (hd_error rest)) then tl rest else rest).
Proof.
  cbn [parseFrom]. destruct (switchArg p arg (hd_error rest)) as [p' two]. cbn [fst snd].
  destruct two; [|reflexivity]. now destruct rest.
Qed.

(** What one round of the loop does to the two argument lists. *)
Lemma switchArg_forwards (p : ParsedArgs) (arg : string) (next : option string) :
  stencilArgs (fst (switchArg p arg next)) = stencilArgs p
  /\ exists new,
       vitestArgs (fst (switchArg p arg next)) = (vitestArgs p ++ new)%list
       /\ Subsequence (definedArgs new)
            (arg :: if snd (switchArg p arg next)
                    then match next with Some v => [v] | None => [] end
                    else [])
       /\ (filter isUndefined new = []
           \/ (next = None /\ endsWithPushedValue [arg] = true
               /\ filter isUndefined new = [None])).
Proof.
  switch_cases arg;
    try match goal with
        | |- context [Str.startsWith "-" arg] =>
          destruct (Str.startsWith "-" arg);
          [destruct next as [v|]; [destruct (negb (Str.startsWith "-" v)) |] |]
        end;
    (split; [reflexivity |]); cbn [fst snd vitestArgs].
  all: try (exists []; rewrite app_nil_r; split; [reflexivity |];
            split; [apply Subsequence_nil | now left]).
  all: try (eexists; split; [reflexivity |];
            split; [apply Subsequence_refl | now left]).
  all: eexists; (split; [reflexivity |]);
    destruct next as [v|]; cbn [definedArgs filter isUndefined];
    (split; [apply Subsequence_refl |]); [now left | right; now repeat split].
Qed.

Lemma ends_cons (x : string) (l : list string) :
  endsWithPushedValue l = true -> endsWithPushedValue (x :: l) = true.
Proof.
  destruct l as [|y l]; [discriminate |]. unfold endsWithPushedValue.
  now change (last (x :: y :: l) EmptyString) with (last (y :: l) EmptyString).
Qed.

Lemma bound_cons (x : string) (l : list string) (n : nat) :
  n <= (if endsWithPushedValue l then 1 else 0) ->
  n <= (if endsWithPushedValue (x :: l) then 1 else 0).
Proof.
  destruct (endsWithPushedValue l) eqn:E; [now rewrite (ends_cons x l E) |].
  intros H. destruct (endsWithPushedValue (x :: l)); lia.
Qed.

Lemma parseFrom_forwards (argv : list string) :
  forall p,
    stencilArgs (parseFrom p argv) = stencilArgs p
    /\ exists forwarded,
         vitestArgs (parseFrom p argv) = (vitestArgs p ++ forwarded)%list
         /\ Subsequence (definedArgs forwarded) argv
         /\ List.length (filter isUndefined forwarded)
            <= (if endsWithPushedValue argv then 1 else 0).
Proof.
  induction argv as [|arg rest IHrest IHtl] using pair_ind; intros p.
  - split; [reflexivity |]. exists []. cbn [parseFrom]. rewrite app_nil_r.
    repeat split; [apply sub_nil | cbn; lia].
  - rewrite parseFrom_cons.
    destruct (switchArg_forwards p arg (hd_error rest)) as (Hs & new & Hv & Hsub & Hundef).
    set (p' := fst (switchArg p arg (hd_error rest))) in *.
    destruct (snd (switchArg p arg (hd_error rest))).
    + destruct (IHtl p') as (Hs' & fw & Hv' & Hsub' & Hcount).
      split; [congruence |]. exists (new ++ fw)%list.
      rewrite Hv', Hv, app_assoc. split; [reflexivity |]. split.
      * rewrite definedArgs_app.
        replace (arg :: rest)
          with ((arg :: match hd_error rest with Some v => [v] | None => [] end)
                ++ tl rest)%list by now destruct rest.
        now apply Subsequence_app.
      * rewrite filter_app, length_app.
        destruct Hundef as [-> | (Hnext & Hend & ->)]; cbn [List.length Nat.add].
        -- destruct rest as [|v r]; [exact (bound_cons arg [] _ Hcount) |].
           apply bound_cons, bound_cons. exact Hcount.
        -- destruct rest as [|v r]; [|discriminate]. rewrite Hend.
           cbn [tl] in Hcount. cbn in Hcount. lia.
    + destruct (IHrest p') as (Hs' & fw & Hv' & Hsub' & Hcount).
      split; [congruence |]. exists (new ++ fw)%list.
      rewrite Hv', Hv, app_assoc. split; [reflexivity |]. split.
      * rewrite definedArgs_app. now apply (Subsequence_app _ [arg] _ rest).
      * rewrite filter_app, length_app.
        destruct Hundef as [-> | (Hnext & Hend & ->)]; cbn [List.length Nat.add].
        -- now apply bound_cons.
        -- destruct rest as [|v r]; [|discriminate]. rewrite Hend.
           cbn in Hcount. lia.
Qed.

(** *** Flags *)

Lemma isSwitch_cases (flag : Flag) (arg : string) :
  isSwitch flag arg = true ->
  Str.startsWith "-" arg = true /\ takesValue arg = false.
Proof.
  destruct flag; cbn [isSwitch]; rewrite ?orb_true_iff; intros H;
    repeat match goal with
           | H : _ \/ _ |- _ => destruct H as [H | H]
           end;
    apply String.eqb_eq in H; subst; now split.
Qed.

(** One round of the loop sets a flag exactly when the argument is one of
    its spellings; it moves by two only past a switch that takes a value,
    or past an unknown switch followed by something that is not a switch. *)
Lemma switchArg_flag (flag : Flag) (p : ParsedArgs) (arg : string) (next : option string) :
  flagValue flag (fst (switchArg p arg next)) = flagValue flag p || isSwitch flag arg
  /\ (snd (switchArg p arg next) = true ->
      isSwitch flag arg = false
      /\ (takesValue arg = true
          \/ exists v, next = Some v /\ Str.startsWith "-" v = false)).
Proof.
  switch_cases arg;
    try match goal with
        | |- context [Str.startsWith "-" arg] =>
          assert (Hnot : isSwitch flag arg = false)
            by (destruct flag; cbn [isSwitch];
                repeat match goal with
                       | E : arg <> ?s |- context [String.eqb arg ?s] =>
                         rewrite (proj2 (String.eqb_neq arg s) E)
                       end; reflexivity);
          rewrite Hnot;
          destruct (Str.startsWith "-" arg);
          [destruct next as [v|]; [destruct (Str.startsWith "-" v) eqn:Ev |] |]
        end;
    cbn [fst snd negb]; (split; [| try discriminate]).
  all: try (destruct flag; cbn; rewrite ?orb_true_r, ?orb_false_r; reflexivity).
  all: try (intros _; split; [now destruct flag | now left]).
  all: intros _; split; [reflexivity | right; eauto].
Qed.

Lemma existsb_tl {A} (f : A -> bool) (l : list A) :
  existsb f (tl l) = true -> existsb f l = true.
Proof. destruct l; [auto |]. cbn [tl existsb]. intros ->. apply orb_true_r. Qed.

Lemma parseFrom_flag_sound (flag : Flag) (argv : list string) :
  forall p,
    flagValue flag (parseFrom p argv) = true ->
    flagValue flag p = true \/ existsb (isSwitch flag) argv = true.
Proof.
  induction argv as [|arg rest IHrest IHtl] using pair_ind; intros p; [now left |].
  rewrite parseFrom_cons.
  destruct (switchArg_flag flag p arg (hd_error rest)) as [Hvalue _].
  cbn [existsb]. intros H.
  assert (Hnext : flagValue flag (fst (switchArg p arg (hd_error rest))) = true
                  \/ existsb (isSwitch flag) rest = true).
  { destruct (snd (switchArg p arg (hd_error rest))).
    - destruct (IHtl _ H) as [H' | H']; [now left | right; now apply existsb_tl].
    - exact (IHrest _ H). }
  rewrite Hvalue in Hnext. destruct Hnext as [Hnext | Hnext].
  - apply orb_true_iff in Hnext as [Hp | Hs]; [now left | right; now rewrite Hs].
  - right. rewrite Hnext. apply orb_true_r.
Qed.

Lemma parseFrom_flag_complete (flag : Flag) (argv : list string) :
  forallb (fun arg => negb (takesValue arg)) argv = true ->
  forall p,
    flagValue flag (parseFrom p argv) = flagValue flag p || existsb (isSwitch flag) argv.
Proof.
  induction argv as [|arg rest IHrest IHtl] using pair_ind; intros Hno p;
    [now rewrite orb_false_r |].
  cbn [forallb] in Hno. apply andb_true_iff in Hno as [Harg Hrest].
  apply negb_true_iff in Harg.
  rewrite parseFrom_cons.
  destruct (switchArg_flag flag p arg (hd_error rest)) as [Hvalue Htwo].
  cbn [existsb].
  destruct (snd (switchArg p arg (hd_error rest))).
  - destruct (Htwo eq_refl) as [Hnot [Hvalued | (v & Hv & Hdash)]]; [congruence |].
    destruct rest as [|v' r]; [discriminate |]. cbn [hd_error] in Hv.
    injection Hv as ->. cbn [tl] in *. cbn [forallb] in Hrest.
    apply andb_true_iff in Hrest as [_ Hr].
    rewrite (IHtl Hr), Hvalue, Hnot. cbn [existsb].
    destruct (isSwitch flag v) eqn:Hs; [|now rewrite !orb_false_r].
    apply isSwitch_cases in Hs as [Hs _]. congruence.
  - rewrite (IHrest Hrest), Hvalue. now rewrite orb_assoc.
Qed.

(** *** Values *)

Lemma switchArg_values (p : ParsedArgs) (arg : string) (next : option string) (v : string) :
  (port (fst (switchArg p arg next)) = Some v ->
   port p = Some v \/ (arg = "--port" /\ next = Some v))
  /\ (stencilConfig (fst (switchArg p arg next)) = Some v ->
      stencilConfig p = Some v \/ (arg = "--stencil-config" /\ next = Some v)).
Proof.
  switch_cases arg;
    try match goal with
        | |- context [Str.startsWith "-" arg] =>
          destruct (Str.startsWith "-" arg);
          [destruct next as [w|]; [destruct (negb (Str.startsWith "-" w)) |] |]
        end;
    cbn [fst port stencilConfig]; auto.
Qed.

Lemma In_tl {A} (x : A) (l : list A) : In x (tl l) -> In x l.
Proof. destruct l; [auto | now right]. Qed.

Lemma In_hd_error {A} (x : A) (l : list A) : hd_error l = Some x -> In x l.
Proof. destruct l; [discriminate |]. cbn. intros H. injection H as ->. now left. Qed.

Lemma parseFrom_values (v : string) (argv : list string) :
  forall p,
    (port (parseFrom p argv) = Some v ->
     port p = Some v \/ (In "--port" argv /\ In v argv))
    /\ (stencilConfig (parseFrom p argv) = Some v ->
        stencilConfig p = Some v \/ (In "--stencil-config" argv /\ In v argv)).
Proof.
  induction argv as [|arg rest IHrest IHtl] using pair_ind; intros p; [now split; left |].
  rewrite parseFrom_cons.
  destruct (switchArg_values p arg (hd_error rest) v) as [Hport Hconfig].
  set (p' := fst (switchArg p arg (hd_error rest))) in *.
  assert (Hnext : forall (f : ParsedArgs -> option string) (s : string),
            (forall q l, f (parseFrom q l) = Some v ->
                         l = rest \/ l = tl rest ->
                         (forall q', f (parseFrom q' l) = Some v ->
                                     f q' = Some v \/ (In s l /\ In v l)) ->
                         f q = Some v \/ (In s rest /\ In v rest))).
  { intros f s q l H [-> | ->] IH; destruct (IH q H) as [Hq | [H1 H2]]; auto using In_tl. }
  split; intros H.
  - assert (Hp' : port p' = Some v \/ (In "--port" rest /\ In v rest)).
    { destruct (snd (switchArg p arg (hd_error rest)));
        [apply (Hnext port "--port" p' (tl rest) H (or_intror eq_refl));
         intros q'; apply (IHtl q')
        | apply (Hnext port "--port" p' rest H (or_introl eq_refl));
          intros q'; apply (IHrest q')]. }
    destruct Hp' as [Hp' | [H1 H2]]; [|right; split; now right].
    destruct (Hport Hp') as [Hp | [-> Hn]]; [now left |].
    right. split; [now left | right; now apply In_hd_error].
  - assert (Hp' : stencilConfig p' = Some v
                  \/ (In "--stencil-config" rest /\ In v rest)).
    { destruct (snd (switchArg p arg (hd_error rest)));
        [apply (Hnext stencilConfig "--stencil-config" p' (tl rest) H (or_intror eq_refl));
         intros q'; apply (IHtl q')
        | apply (Hnext stencilConfig "--stencil-config" p' rest H (or_introl eq_refl));
          intros q'; apply (IHrest q')]. }
    destruct Hp' as [Hp' | [H1 H2]]; [|right; split; now right].
    destruct (Hconfig Hp') as [Hp | [-> Hn]]; [now left |].
    right. split; [now left | right; now apply In_hd_error].
Qed.

Lemma flag_switch_In (flag : Flag) (argv : list string) :
  flagValue flag (parseArgs argv) = true ->
  exists arg, In arg argv /\ isSwitch flag arg = true.
Proof.
  intros H. destruct (parseFrom_flag_sound flag argv _ H) as [Hinit | Hin];
    [now destruct flag |].
  apply existsb_exists in Hin. exact Hin.
Qed.

Lemma Subsequence_In {A} (l m : list A) (x : A) : Subsequence l m -> In x l -> In x m.
Proof.
  induction 1 as [|y l m H IH | y l m H IH]; cbn [In]; [auto | auto |].
  intros [-> | Hin]; auto.
Qed.

Lemma afterConfig_In (l : list (option string)) (v : string) :
  afterConfig l = Some v -> In v (definedArgs l).
Proof.
  induction l as [|[s|] l IH]; cbn [afterConfig definedArgs]; [discriminate | | assumption].
  destruct (String.eqb s "--config"); [|intros H; right; auto].
  destruct l as [|[w|] l']; [discriminate | | discriminate].
  intros H. injection H as ->. cbn [definedArgs]. right. now left.
Qed.

End CliFacts.

(** X20.  [parseArgs] forwards arguments to Vitest in the order given and
    invents none: the defined elements of [vitestArgs] are the arguments
    with some left out.  [stencilArgs] stays empty.  [undefined] is pushed
    at most once, and only when the last argument is [--project] or
    [--reporter]. *)
Theorem parseArgs_forwards_in_order (argv : list string) :
  Cli.stencilArgs (Cli.parseArgs argv) = []
  /\ Subsequence (Cli.definedArgs (Cli.vitestArgs (Cli.parseArgs argv))) argv
  /\ List.length (filter Cli.isUndefined (Cli.vitestArgs (Cli.parseArgs argv)))
     <= (if Cli.endsWithPushedValue argv then 1 else 0).
Proof.
  destruct (CliFacts.parseFrom_forwards argv Cli.initialArgs) as (Hs & fw & Hv & Hsub & Hn).
  unfold Cli.parseArgs. rewrite Hv. cbn [Cli.vitestArgs Cli.initialArgs app].
  now repeat split.
Qed.

(** X21.  The command [runTests] spawns is [vitest], the mode, and then
    arguments of the command line in their order; no empty string and no
    [undefined] reaches it. *)
Theorem commandArgs_come_from_the_command_line (argv : list string) :
  exists forwarded,
    Cli.commandArgs (Cli.parseArgs argv)
    = "vitest" :: (if Cli.watch (Cli.parseArgs argv) then "watch" else "run") :: forwarded
    /\ Subsequence forwarded argv
    /\ Forall (fun s => s <> EmptyString) forwarded.
Proof.
  exists (Cli.truthyStrings (Cli.vitestArgs (Cli.parseArgs argv))). split; [|split].
  - unfold Cli.commandArgs. cbn [Cli.truthyStrings Str.truthy].
    now destruct (Cli.watch (Cli.parseArgs argv)).
  - apply (CliFacts.Subsequence_trans _ _ _ (CliFacts.truthy_defined _)).
    destruct (CliFacts.parseFrom_forwards argv Cli.initialArgs) as (_ & fw & Hv & Hsub & _).
    unfold Cli.parseArgs. now rewrite Hv.
  - apply CliFacts.truthy_nonempty.
Qed.

(** X22.  A flag of the parsed arguments is set only if one of its
    spellings is among the arguments. *)
Theorem flag_set_only_by_its_switch (flag : Cli.Flag) (argv : list string) :
  Cli.flagValue flag (Cli.parseArgs argv) = true ->
  existsb (Cli.isSwitch flag) argv = true.
Proof.
  intros H. destruct (CliFacts.parseFrom_flag_sound flag argv _ H) as [Hinit | Hin];
    [now destruct flag | assumption].
Qed.

Lemma flag_set_only_by_its_switch_witness :
  existsb (Cli.isSwitch Cli.Verbose) ["--watch"; "-v"; "button.spec.ts"] = true.
Proof.
  apply (flag_set_only_by_its_switch Cli.Verbose ["--watch"; "-v"; "button.spec.ts"]).
  reflexivity.
Defined.

(** X23.  When none of [--port], [--stencil-config], [--project] and
    [--reporter] is among the arguments, a flag is set exactly when one of
    its spellings is: an unknown switch never swallows a known one. *)
Theorem flag_set_by_its_switch (flag : Cli.Flag) (argv : list string) :
  forallb (fun arg => negb (Cli.takesValue arg)) argv = true ->
  Cli.flagValue flag (Cli.parseArgs argv) = existsb (Cli.isSwitch flag) argv.
Proof.
  intros H. unfold Cli.parseArgs.
  rewrite (CliFacts.parseFrom_flag_complete flag argv H). now destruct flag.
Qed.

Lemma flag_set_by_its_switch_witness :
  Cli.flagValue Cli.Coverage (Cli.parseArgs ["--browser"; "--coverage"; "src"; "--watch"])
  = existsb (Cli.isSwitch Cli.Coverage) ["--browser"; "--coverage"; "src"; "--watch"].
Proof.
  apply (flag_set_by_its_switch Cli.Coverage ["--browser"; "--coverage"; "src"; "--watch"]).
  reflexivity.
Defined.

(** X24.  The arguments of the Stencil process are made of fixed words, of
    the temporary configuration and of arguments of the command line:
    [--prod], [--watch], [--serve], [--port], [--debug] and the values of
    [--port] and [--stencil-config] appear only if the user wrote them, and
    nothing is ever added from [stencilArgs].  The path handed to the
    temporary configuration as the Vitest configuration is an argument of
    the command line as well. *)
Theorem stencil_command_comes_from_the_command_line
  (argv : list string) (tempStencilConfigPath : option string) :
  Forall (Cli.fromCommandLine argv tempStencilConfigPath)
    (Cli.stencilCommand (Cli.parseArgs argv) tempStencilConfigPath)
  /\ match Cli.vitestConfigPath (Cli.parseArgs argv) with
     | Some path => In path argv
     | None => True
     end.
Proof.
  split.
  - assert (Hflag : forall flag s,
              Cli.flagValue flag (Cli.parseArgs argv) = true ->
              (forall arg, Cli.isSwitch flag arg = true -> arg = s) ->
              Forall (Cli.fromCommandLine argv tempStencilConfigPath) [s]).
    { intros flag s H Hs. destruct (CliFacts.flag_switch_In flag argv H) as (arg & Hin & Harg).
      rewrite (Hs arg Harg) in Hin. apply Forall_cons; [|apply Forall_nil]. right. now right. }
    assert (Hword : forall s, In s ["stencil"; "build"; "--dev"; "--config"] ->
                              Cli.fromCommandLine argv tempStencilConfigPath s)
      by (intros s H; now left).
    assert (Hvalue : forall (f : Cli.ParsedArgs -> option string) (s : string),
              (forall v, f (Cli.parseArgs argv) = Some v -> In s argv /\ In v argv) ->
              Cli.given (f (Cli.parseArgs argv)) = true ->
              Cli.fromCommandLine argv tempStencilConfigPath s
              /\ Cli.fromCommandLine argv tempStencilConfigPath
                   (Cli.valueOf (f (Cli.parseArgs argv)))).
    { intros f s Hf Hgiven. destruct (f (Cli.parseArgs argv)) as [v|]; [|discriminate].
      destruct (Hf v eq_refl) as [H1 H2]. split; right; now right. }
    assert (Hport : forall v, Cli.port (Cli.parseArgs argv) = Some v ->
                              In "--port" argv /\ In v argv).
    { intros v H. destruct (CliFacts.parseFrom_values v argv Cli.initialArgs) as [Hp _].
      destruct (Hp H) as [Hinit | Hin]; [discriminate | assumption]. }
    assert (Hconfig : forall v, Cli.stencilConfig (Cli.parseArgs argv) = Some v ->
                                In "--stencil-config" argv /\ In v argv).
    { intros v H. destruct (CliFacts.parseFrom_values v argv Cli.initialArgs) as [_ Hc].
      destruct (Hc H) as [Hinit | Hin]; [discriminate | assumption]. }
    assert (Hconfigured :
              Forall (Cli.fromCommandLine argv tempStencilConfigPath)
                (if Cli.given (Cli.stencilConfig (Cli.parseArgs argv))
                 then ["--config"; Cli.valueOf (Cli.stencilConfig (Cli.parseArgs argv))]
                 else [])).
    { destruct (Cli.given (Cli.stencilConfig (Cli.parseArgs argv))) eqn:Hg; [|constructor].
      destruct (Hvalue Cli.stencilConfig "--stencil-config" Hconfig Hg) as [_ Hv].
      apply Forall_cons; [apply Hword; cbn; tauto |].
      apply Forall_cons; [assumption | apply Forall_nil]. }
    unfold Cli.stencilCommand.
    destruct (CliFacts.parseFrom_forwards argv Cli.initialArgs) as (Hs & _).
    fold (Cli.parseArgs argv) in Hs. rewrite Hs. cbn [Cli.stencilArgs Cli.initialArgs].
    rewrite app_nil_r.
    repeat (apply Forall_app; split).
    + apply Forall_cons; [apply Hword; cbn; tauto |].
      apply Forall_cons; [apply Hword; cbn; tauto | apply Forall_nil].
    + destruct (Cli.prod (Cli.parseArgs argv)) eqn:E.
      * apply (Hflag Cli.Prod); [exact E | intros arg H; now apply String.eqb_eq in H].
      * apply Forall_cons; [apply Hword; cbn; tauto | apply Forall_nil].
    + destruct (Cli.watch (Cli.parseArgs argv)) eqn:E; [|exact Hconfigured].
      repeat (apply Forall_app; split).
      * apply (Hflag Cli.Watch); [exact E | intros arg H; now apply String.eqb_eq in H].
      * destruct (Cli.given tempStencilConfigPath) eqn:Ht; [|exact Hconfigured].
        apply Forall_cons; [apply Hword; cbn; tauto |].
        apply Forall_cons; [|apply Forall_nil].
        destruct tempStencilConfigPath as [t|]; [|discriminate]. right. now left.
      * destruct (Cli.serve (Cli.parseArgs argv)) eqn:Es; [|constructor].
        apply Forall_app. split.
        -- apply (Hflag Cli.Serve); [exact Es | intros arg H; now apply String.eqb_eq in H].
        -- destruct (Cli.given (Cli.port (Cli.parseArgs argv))) eqn:Hg; [|constructor].
           destruct (Hvalue Cli.port "--port" Hport Hg) as [H1 H2].
           apply Forall_cons; [assumption |].
           apply Forall_cons; [assumption | apply Forall_nil].
    + destruct (Cli.debug (Cli.parseArgs argv)) eqn:E; [|constructor].
      apply (Hflag Cli.Debug); [exact E | intros arg H; now apply String.eqb_eq in H].
  - unfold Cli.vitestConfigPath.
    destruct (Cli.afterConfig (Cli.vitestArgs (Cli.parseArgs argv))) as [path|] eqn:E;
      [|exact I].
    apply CliFacts.afterConfig_In in E.
    destruct (CliFacts.parseFrom_forwards argv Cli.initialArgs) as (_ & fw & Hv & Hsub & _).
    fold (Cli.parseArgs argv) in Hv. rewrite Hv in E.
    cbn [Cli.vitestArgs Cli.initialArgs app] in E.
    now apply (CliFacts.Subsequence_In _ _ _ Hsub).
Qed.

(* ================================================================== *)
(** * [slugify] *)
(* ================================================================== *)

Module Slug.

Import Utils.

(** *** Characters *)

Lemma char_lower (c : ascii) : isUpper (Str.lowerChar c) = false.
Proof. destruct c as [[] [] [] [] [] [] [] []]; reflexivity. Qed.

Lemma char_kept (c : ascii) :
  isOther c = false -> isUpper c = false -> isLowerAlnum c || isSeparator c = true.
Proof. destruct c as [[] [] [] [] [] [] [] []]; vm_compute; congruence. Qed.

Lemma char_alnum (c : ascii) :
  isLowerAlnum c = true ->
  isSeparator c = false /\ isHyphen c = false /\ isOther c = false
  /\ Str.isWhitespace c = false /\ Str.lowerChar c = c.
Proof.
  destruct c as [[] [] [] [] [] [] [] []]; vm_compute; intros H;
    try discriminate; now repeat split.
Qed.

Lemma char_hyphen (c : ascii) :
  isHyphen c = true ->
  isSeparator c = true /\ isOther c = false /\ Str.isWhitespace c = false
  /\ Str.lowerChar c = c.
Proof. unfold isHyphen. intros H. apply Ascii.eqb_eq in H. subst. now repeat split. Qed.

(** *** Classes of characters along the stages *)

Lemma allIn_impl (P Q : ascii -> bool) (s : string) :
  (forall c, P c = true -> Q c = true) -> allIn P s = true -> allIn Q s = true.
Proof.
  intros H. induction s as [|c s IH]; [reflexivity |].
  cbn [allIn]. rewrite !andb_true_iff. intros [Hc Hs]. auto.
Qed.

Lemma allIn_lower (s : string) :
  allIn (fun c => negb (isUpper c)) (Str.toLowerCase s) = true.
Proof.
  induction s as [|c s IH]; [reflexivity |].
  cbn [Str.toLowerCase allIn]. now rewrite char_lower, IH.
Qed.

Lemma allIn_trimStart (P : ascii -> bool) (s : string) :
  allIn P s = true -> allIn P (trimStart s) = true.
Proof.
  induction s as [|c s IH]; [reflexivity |]. intros H.
  cbn [trimStart]. destruct (Str.isWhitespace c); [|exact H].
  cbn [allIn] in H. apply andb_true_iff in H as [_ H]. auto.
Qed.

Lemma allIn_trimEnd (P : ascii -> bool) (s : string) :
  allIn P s = true -> allIn P (trimEnd s) = true.
Proof.
  induction s as [|c s IH]; [reflexivity |].
  cbn [allIn]. rewrite andb_true_iff. intros [Hc Hs].
  destruct (string_dec (trimEnd s) EmptyString) as [E | E].
  - rewrite (Norm.trimEnd_last c s E).
    destruct (Str.isWhitespace c); [reflexivity |]. cbn [allIn]. now rewrite Hc.
  - rewrite (Norm.trimEnd_more c s E). cbn [allIn]. now rewrite Hc, IH.
Qed.

Lemma allIn_dropRun (P class : ascii -> bool) (s : string) :
  allIn P s = true -> allIn P (dropRun class s) = true.
Proof.
  induction s as [|c s IH]; [reflexivity |]. intros H.
  cbn [dropRun]. destruct (class c); [|exact H].
  cbn [allIn] in H. apply andb_true_iff in H as [_ H]. auto.
Qed.

Lemma runLength_dropRun (class : ascii -> bool) (s : string) :
  runLength class (dropRun class s) = 0.
Proof.
  induction s as [|c s IH]; [reflexivity |].
  cbn [dropRun]. destruct (class c) eqn:E; [exact IH |]. cbn [runLength]. now rewrite E.
Qed.

Lemma dropRun_id (class : ascii -> bool) (s : string) :
  runLength class s = 0 -> dropRun class s = s.
Proof. destruct s as [|c s]; [reflexivity |]. cbn. now destruct (class c). Qed.

Lemma length_dropRun (class : ascii -> bool) (s : string) :
  String.length (dropRun class s) <= String.length s.
Proof.
  induction s as [|c s IH]; [reflexivity |].
  cbn [dropRun]. destruct (class c); cbn [String.length]; lia.
Qed.

(** *** Removing the other characters *)

Lemma others_eq (s : string) : replaceAll re_other EmptyString s = withoutOthers s.
Proof.
  unfold replaceAll. induction s as [|c s IH]; [reflexivity |].
  cbn [replaceFrom re_other withoutOthers]. destruct (isOther c); cbn [Nat.pred append];
    now rewrite IH.
Qed.

Lemma allIn_withoutOthers (s : string) :
  allIn (fun c => negb (isUpper c)) s = true ->
  allIn (fun c => isLowerAlnum c || isSeparator c) (withoutOthers s) = true.
Proof.
  induction s as [|c s IH]; [reflexivity |].
  cbn [allIn withoutOthers]. rewrite andb_true_iff, negb_true_iff. intros [Hc Hs].
  destruct (isOther c) eqn:E; [auto |]. cbn [allIn].
  now rewrite (char_kept c E Hc), IH.
Qed.

(** *** Joining the separators *)

Lemma skip_run (re : Pattern) (rep : string) (class : ascii -> bool) (r : string) (k : nat) :
  replaceFrom re rep (runLength class r + k) r = replaceFrom re rep k (dropRun class r).
Proof.
  induction r as [|c r IH].
  - now destruct k.
  - cbn [runLength dropRun]. destruct (class c); [|reflexivity].
    cbn [Nat.add replaceFrom]. exact IH.
Qed.

Lemma join_separator (c : ascii) (r : string) :
  isSeparator c = true ->
  joinSeparators (String c r) = String "-" (joinSeparators (dropRun isSeparator r)).
Proof.
  intros H. unfold joinSeparators, replaceAll. cbn [replaceFrom].
  unfold re_separators. cbn [runLength]. rewrite H. cbn [Nat.pred append]. f_equal.
  rewrite <- (Nat.add_0_r (runLength isSeparator r)) at 1. apply skip_run.
Qed.

Lemma join_char (c : ascii) (r : string) :
  isSeparator c = false -> joinSeparators (String c r) = String c (joinSeparators r).
Proof.
  intros H. unfold joinSeparators, replaceAll. cbn [replaceFrom].
  unfold re_separators. cbn [runLength]. now rewrite H.
Qed.

Lemma loose_join (s : string) :
  allIn (fun c => isLowerAlnum c || isSeparator c) s = true ->
  looseFrom false (joinSeparators s) = true
  /\ (runLength isSeparator s = 0 -> looseFrom true (joinSeparators s) = true).
Proof.
  induction s as [s IH] using Blank.suffix_ind.
  destruct s as [|c r]; [now split |].
  cbn [allIn]. rewrite andb_true_iff. intros [Hc Hr].
  destruct (isSeparator c) eqn:E.
  - rewrite (join_separator c r E).
    destruct (IH (dropRun isSeparator r)) as [_ Hstart].
    + pose proof (length_dropRun isSeparator r). cbn [String.length]. lia.
    + now apply allIn_dropRun.
    + specialize (Hstart (runLength_dropRun isSeparator r)).
      cbn [looseFrom runLength]. rewrite E, Hstart. now split.
  - rewrite (join_char c r E). rewrite orb_false_r in Hc.
    destruct (char_alnum c Hc) as (_ & Hh & _).
    destruct (IH r) as [Hloose _]; [cbn [String.length]; lia | assumption |].
    cbn [looseFrom]. rewrite Hh, Hc, Hloose. now split.
Qed.

(** *** Stripping the hyphens at the ends *)

Lemma strip_skip_all (b : bool) (r : string) : stripFrom b (String.length r) r = EmptyString.
Proof.
  revert b. induction r as [|c r IH]; intros b; [reflexivity |].
  cbn [String.length stripFrom]. apply IH.
Qed.

Lemma strip_skip_run (r : string) :
  stripFrom false (runLength isHyphen r) r = stripFrom false 0 (dropRun isHyphen r).
Proof.
  induction r as [|c r IH]; [reflexivity |].
  cbn [runLength dropRun]. destruct (isHyphen c); [|reflexivity].
  cbn [stripFrom]. exact IH.
Qed.

Lemma strip_trailing (s : string) : stripFrom false 0 s = withoutTrailingHyphens s.
Proof.
  induction s as [|c r IH]; [reflexivity |].
  cbn [stripFrom withoutTrailingHyphens orb].
  destruct (Nat.ltb 0 (runLength isHyphen (String c r))
            && Nat.eqb (runLength isHyphen (String c r)) (String.length (String c r)))
    eqn:E; [|now rewrite IH].
  apply andb_true_iff in E as [_ E]. apply Nat.eqb_eq in E. rewrite E.
  cbn [String.length Nat.pred]. apply strip_skip_all.
Qed.

Lemma strip_eq (s : string) :
  stripFrom true 0 s = withoutTrailingHyphens (dropRun isHyphen s).
Proof.
  destruct s as [|c r]; [reflexivity |].
  cbn [stripFrom orb dropRun runLength]. rewrite andb_true_r.
  destruct (isHyphen c) eqn:E.
  - cbn [Nat.ltb Nat.leb Nat.pred]. rewrite strip_skip_run. apply strip_trailing.
  - cbn [Nat.ltb Nat.leb]. rewrite strip_trailing.
    cbn [withoutTrailingHyphens runLength]. now rewrite E.
Qed.

Lemma loose_dropRun (t : string) :
  looseFrom false t = true -> looseFrom true (dropRun isHyphen t) = true.
Proof.
  destruct t as [|c r]; [reflexivity |].
  cbn [looseFrom dropRun]. destruct (isHyphen c) eqn:E.
  - cbn [negb andb]. intros H. destruct r as [|d r']; [reflexivity |].
    cbn [looseFrom] in H. cbn [dropRun]. destruct (isHyphen d) eqn:Ed; [discriminate |].
    cbn [looseFrom]. now rewrite Ed.
  - intros H. cbn [looseFrom]. now rewrite E.
Qed.

Lemma trailing_nil (r : string) :
  withoutTrailingHyphens r = EmptyString ->
  r = EmptyString \/ Nat.eqb (runLength isHyphen r) (String.length r) = true.
Proof.
  destruct r as [|c r]; [now left |]. cbn [withoutTrailingHyphens].
  destruct (Nat.ltb 0 _ && Nat.eqb _ _) eqn:E; [|discriminate].
  intros _. right. now apply andb_true_iff in E as [_ E].
Qed.

Lemma trailing_slug (u : string) :
  forall b, looseFrom b u = true ->
            withoutTrailingHyphens u = EmptyString
            \/ slugFrom b (withoutTrailingHyphens u) = true.
Proof.
  induction u as [|c r IH]; intros b; [now left |].
  cbn [withoutTrailingHyphens].
  destruct (Nat.ltb 0 (runLength isHyphen (String c r))
            && Nat.eqb (runLength isHyphen (String c r)) (String.length (String c r)))
    eqn:Eall; [now left |].
  cbn [looseFrom]. right. cbn [slugFrom].
  destruct (isHyphen c) eqn:E.
  - apply andb_true_iff in H as [Hb Hr]. rewrite Hb. cbn [andb].
    destruct (IH true Hr) as [Hnil | Hslug]; [|assumption].
    exfalso. cbn [runLength String.length] in Eall. rewrite E in Eall.
    cbn [Nat.ltb Nat.leb andb Nat.eqb] in Eall.
    destruct (trailing_nil r Hnil) as [-> | Hall]; [discriminate | congruence].
  - apply andb_true_iff in H as [Hc Hr]. rewrite Hc. cbn [andb].
    destruct (IH false Hr) as [-> | Hslug]; [reflexivity | assumption].
Qed.

Lemma slug_of_loose (t : string) :
  looseFrom false t = true -> isSlug (stripFrom true 0 t) = true.
Proof.
  intros H. rewrite strip_eq.
  destruct (trailing_slug _ true (loose_dropRun t H)) as [-> | Hslug]; [reflexivity |].
  unfold isSlug. now destruct (withoutTrailingHyphens _).
Qed.

Lemma slugify_slug (s : string) : isSlug (slugify s) = true.
Proof.
  unfold slugify. apply slug_of_loose. rewrite others_eq.
  apply loose_join, allIn_withoutOthers. unfold trim.
  apply allIn_trimEnd, allIn_trimStart, allIn_lower.
Qed.

(** *** Slugs are left alone *)

Lemma slug_chars (s : string) :
  forall b, slugFrom b s = true -> allIn (fun c => isLowerAlnum c || isHyphen c) s = true.
Proof.
  induction s as [|c r IH]; intros b; [reflexivity |].
  cbn [slugFrom allIn]. destruct (isHyphen c) eqn:E; rewrite andb_true_iff; intros [H1 H2].
  - rewrite orb_true_r. exact (IH true H2).
  - rewrite H1. exact (IH false H2).
Qed.

Lemma slug_char (c : ascii) :
  isLowerAlnum c || isHyphen c = true ->
  isOther c = false /\ Str.isWhitespace c = false /\ Str.lowerChar c = c.
Proof.
  intros H. apply orb_true_iff in H as [H | H].
  - now destruct (char_alnum c H) as (_ & _ & ? & ? & ?).
  - now destruct (char_hyphen c H) as (_ & ? & ? & ?).
Qed.

Lemma lower_fixed (s : string) :
  allIn (fun c => isLowerAlnum c || isHyphen c) s = true -> Str.toLowerCase s = s.
Proof.
  induction s as [|c r IH]; [reflexivity |].
  cbn [allIn Str.toLowerCase]. rewrite andb_true_iff. intros [Hc Hr].
  destruct (slug_char c Hc) as (_ & _ & ->). now rewrite IH.
Qed.

Lemma trimEnd_fixed (s : string) :
  allIn (fun c => isLowerAlnum c || isHyphen c) s = true -> trimEnd s = s.
Proof.
  induction s as [|c r IH]; [reflexivity |].
  cbn [allIn]. rewrite andb_true_iff. intros [Hc Hr].
  destruct (slug_char c Hc) as (_ & Hws & _).
  rewrite Norm.trimEnd_cons, (IH Hr), Hws. now destruct r.
Qed.

Lemma slug_trim_fixed (s : string) :
  allIn (fun c => isLowerAlnum c || isHyphen c) s = true -> trim s = s.
Proof.
  intros H. unfold trim.
  replace (trimStart s) with s; [now apply trimEnd_fixed |].
  destruct s as [|c r]; [reflexivity |].
  cbn [allIn] in H. apply andb_true_iff in H as [Hc _].
  destruct (slug_char c Hc) as (_ & Hws & _). cbn [trimStart]. now rewrite Hws.
Qed.

Lemma others_fixed (s : string) :
  allIn (fun c => isLowerAlnum c || isHyphen c) s = true -> withoutOthers s = s.
Proof.
  induction s as [|c r IH]; [reflexivity |].
  cbn [allIn withoutOthers]. rewrite andb_true_iff. intros [Hc Hr].
  destruct (slug_char c Hc) as (-> & _ & _). now rewrite IH.
Qed.

Lemma join_fixed (s : string) :
  forall b, slugFrom b s = true -> joinSeparators s = s.
Proof.
  induction s as [|c r IH]; intros b; [reflexivity |].
  cbn [slugFrom]. destruct (isHyphen c) eqn:E; rewrite andb_true_iff; intros [H1 H2].
  - destruct (char_hyphen c E) as (Hsep & _).
    rewrite (join_separator c r Hsep).
    apply Ascii.eqb_eq in E. subst c. f_equal.
    destruct r as [|d r']; [discriminate |].
    assert (Hd : isSeparator d = false).
    { cbn [slugFrom] in H2. destruct (isHyphen d); [discriminate |].
      apply andb_true_iff in H2 as [Hd _]. now destruct (char_alnum d Hd). }
    cbn [dropRun]. rewrite Hd. exact (IH true H2).
  - destruct (char_alnum c H1) as (Hsep & _).
    rewrite (join_char c r Hsep). f_equal. exact (IH false H2).
Qed.

Lemma slug_not_hyphens (c : ascii) (r : string) :
  forall b, slugFrom b (String c r) = true ->
            Nat.eqb (runLength isHyphen (String c r)) (String.length (String c r)) = false.
Proof.
  revert c. induction r as [|d r IH]; intros c b.
  - cbn [slugFrom runLength String.length]. destruct (isHyphen c); [|reflexivity].
    cbn [negb]. rewrite andb_false_r. discriminate.
  - cbn [slugFrom runLength String.length] in *.
    destruct (isHyphen c); rewrite andb_true_iff; intros [H1 H2]; [|reflexivity].
    cbn [Nat.eqb]. exact (IH d true H2).
Qed.

Lemma trailing_fixed (s : string) :
  forall b, slugFrom b s = true -> withoutTrailingHyphens s = s.
Proof.
  induction s as [|c r IH]; intros b H; [reflexivity |].
  cbn [withoutTrailingHyphens]. rewrite (slug_not_hyphens c r b H), andb_false_r. f_equal.
  cbn [slugFrom] in H. destruct r as [|d r']; [reflexivity |].
  destruct (isHyphen c); apply andb_true_iff in H as [_ H]; eapply IH; exact H.
Qed.

Lemma strip_fixed (s : string) : slugFrom true s = true -> stripFrom true 0 s = s.
Proof.
  intros H. rewrite strip_eq.
  replace (dropRun isHyphen s) with s; [now apply (trailing_fixed s true) |].
  destruct s as [|c r]; [reflexivity |].
  cbn [slugFrom] in H. cbn [dropRun]. now destruct (isHyphen c).
Qed.

Lemma slug_fixed (s : string) : isSlug s = true -> slugify s = s.
Proof.
  destruct s as [|c r]; [reflexivity |]. unfold isSlug. intros H.
  pose proof (slug_chars _ true H) as Hchars.
  unfold slugify.
  rewrite (lower_fixed _ Hchars), (slug_trim_fixed _ Hchars), others_eq, (others_fixed _ Hchars).
  fold (joinSeparators (String c r)). rewrite (join_fixed _ true H).
  now apply strip_fixed.
Qed.

End Slug.

(** X25.  What [slugify] returns is a slug: lower-case letters and digits
    only, separated by single hyphens, with no hyphen at either end (or the
    empty string).  Hence applying [slugify] twice gives what applying it
    once gives. *)
Theorem slugify_gives_a_slug (str : string) :
  Utils.isSlug (Utils.slugify str) = true
  /\ Utils.slugify (Utils.slugify str) = Utils.slugify str.
Proof.
  split; [apply Slug.slugify_slug | apply Slug.slug_fixed, Slug.slugify_slug].
Qed.

(** X26.  The strings [slugify] leaves as they are are exactly the slugs. *)
Theorem slugify_fixed_points (str : string) :
  String.eqb (Utils.slugify str) str = Utils.isSlug str.
Proof.
  destruct (Utils.isSlug str) eqn:E.
  - rewrite (Slug.slug_fixed str E). apply String.eqb_refl.
  - apply not_true_is_false. intros H. apply String.eqb_eq in H.
    pose proof (Slug.slugify_slug str) as Hslug. rewrite H in Hslug. congruence.
Qed.
